(** * Invoice generator (app.py): placeholder substitution, trailing-paragraph
  trimming and invoice numbering, embedded and verified.

  Text is modelled as [list ascii] (Python [str] restricted to code points
  below 256), the replacement dictionary as a [gmap], a python-docx
  paragraph as the list of its runs and hyperlinks, and the output
  directory as the list of its file names.  A call that mutates a document
  gives the document as it leaves it and how it ends, by returning or by
  letting the [ValueError] of python-docx escape. *)

From Stdlib Require Import Ascii String List ZArith Lia.
From Stdlib Require Import PrimFloat FloatOps SpecFloat FloatAxioms.
From stdpp Require Import gmap strings list sorting.

Open Scope list_scope.
Set Warnings "-register-all".

(** ** Python strings *)

Module Py.

Abbreviation str := (list ascii).

(** A Python string literal. *)
Definition lit (s : string) : str := list_ascii_of_string s.

(** [s.startswith(k)] *)
Fixpoint startswith (k s : str) : bool :=
  match k, s with
  | [], _ => true
  | a :: k', b :: s' => bool_decide (a = b) && startswith k' s'
  | _ :: _, [] => false
  end.

(** [s.endswith(k)] *)
Definition endswith (k s : str) : bool := startswith (rev k) (rev s).

(** [k in s] for strings: [k] occurs as a contiguous substring of [s]. *)
Fixpoint contains (k s : str) : bool :=
  startswith k s ||
  match s with
  | [] => false
  | _ :: s' => contains k s'
  end.

(** [s[i:j]] and [s[i:]] for [0 <= i], [0 <= j]. *)
Definition slice (i j : nat) (s : str) : str := take (j - i) (drop i s).
Definition slice_from (i : nat) (s : str) : str := drop i s.

(** [c.isspace()] on the code points below 256: TAB..CR, FS..US, SPACE,
    NEL (133) and NBSP (160). *)
Definition isspace (c : ascii) : bool :=
  let n := nat_of_ascii c in
  ((9 <=? n) && (n <=? 13)) || ((28 <=? n) && (n <=? 32))
  || (n =? 133) || (n =? 160).

(** [s.lstrip()], [s.strip()] *)
Fixpoint lstrip (s : str) : str :=
  match s with
  | c :: s' => if isspace c then lstrip s' else s
  | [] => []
  end.
Definition strip (s : str) : str := rev (lstrip (rev (lstrip s))).

(** Truthiness of a string: it is not empty. *)
Definition truthy (s : str) : bool :=
  match s with [] => false | _ :: _ => true end.

(** [c] is a decimal digit, [0]..[9]: what [\d] matches and [int] reads,
    on the code points below 256. *)
Definition isdigit_char (c : ascii) : bool :=
  let n := nat_of_ascii c in (48 <=? n) && (n <=? 57).

(** A non-empty string of decimal digits. *)
Definition isdecimal (s : str) : bool := truthy s && forallb isdigit_char s.

(** [s.isdigit()]: non-empty, and every character is a digit in the sense
    of [str.isdigit], which below 256 also takes the superscripts two,
    three and one (178, 179, 185). *)
Definition isdigit (s : str) : bool :=
  truthy s &&
  forallb (λ c, isdigit_char c ||
                let n := nat_of_ascii c in
                (n =? 178) || (n =? 179) || (n =? 185)) s.

(** [s.rfind(".")], as [None] for -1. *)
Fixpoint rfind_dot (s : str) : option nat :=
  match s with
  | [] => None
  | c :: s' =>
      match rfind_dot s' with
      | Some i => Some (S i)
      | None => if bool_decide (c = "."%char) then Some 0 else None
      end
  end.

End Py.

(** ** The fragment of [re] the program uses

  Both patterns of the program are sequences of single-character classes,
  some of them repeated with a greedy [+].  [match_here] is the
  backtracking matcher anchored at the head of its input; it returns the
  text consumed by each item of the pattern. *)

Module Re.

Inductive cls :=
| Ch (c : ascii)       (* the literal character c *)
| NotCh (c : ascii)    (* [^c] *)
| Digit.               (* \d *)

Inductive item :=
| One (a : cls)        (* a  *)
| Plus (a : cls).      (* a+ (greedy) *)

Definition regex := list item.

Definition accepts (a : cls) (c : ascii) : bool :=
  match a with
  | Ch x => bool_decide (c = x)
  | NotCh x => negb (bool_decide (c = x))
  | Digit => Py.isdigit_char c
  end.

(** [a+] followed by the continuation [k]: consume as many characters as
    possible, giving them back one at a time while [k] fails. *)
Fixpoint match_plus (a : cls) (k : list ascii → option (list (list ascii)))
    (s : list ascii) : option (list (list ascii)) :=
  match s with
  | c :: s' =>
      if accepts a c then
        match match_plus a k s' with
        | Some (g :: gs) => Some ((c :: g) :: gs)
        | _ => cons [c] <$> k s'
        end
      else None
  | [] => None
  end.

Fixpoint match_here (r : regex) (s : list ascii)
    : option (list (list ascii)) :=
  match r with
  | [] => Some []
  | One a :: r' =>
      match s with
      | c :: s' => if accepts a c then cons [c] <$> match_here r' s' else None
      | [] => None
      end
  | Plus a :: r' => match_plus a (match_here r') s
  end.

(** A match object: its span and the text consumed by each pattern item. *)
Record rmatch := Match {
  m_start : nat;
  m_end : nat;
  m_items : list (list ascii)
}.

(** The whole matched text, [m.group(0)]. *)
Definition group0 (m : rmatch) : list ascii := concat (m_items m).

(** [pattern.search(s)]: the leftmost match. [pos] is the offset of [s]
    in the searched string. *)
Fixpoint search_from (r : regex) (pos : nat) (s : list ascii)
    : option rmatch :=
  match match_here r s with
  | Some gs => Some (Match pos (pos + length (concat gs)) gs)
  | None =>
      match s with
      | [] => None
      | _ :: s' => search_from r (S pos) s'
      end
  end.
Definition search (r : regex) (s : list ascii) : option rmatch :=
  search_from r 0 s.

(** [pattern.finditer(s)]: the successive leftmost non-overlapping
    matches.  After a match the scan resumes at its end (one character
    further after an empty match).  [fuel] bounds the number of scan
    positions visited; [S (length s)] is always enough. *)
Fixpoint finditer_from (fuel : nat) (r : regex) (pos : nat)
    (s : list ascii) : list rmatch :=
  match fuel with
  | 0 => []
  | S fuel' =>
      match match_here r s with
      | Some gs =>
          let n := length (concat gs) in
          Match pos (pos + n) gs ::
            match n, s with
            | 0, [] => []
            | 0, _ :: s' => finditer_from fuel' r (S pos) s'
            | _, _ => finditer_from fuel' r (pos + n) (drop n s)
            end
      | None =>
          match s with
          | [] => []
          | _ :: s' => finditer_from fuel' r (S pos) s'
          end
      end
  end.
Definition finditer (r : regex) (s : list ascii) : list rmatch :=
  finditer_from (S (length s)) r 0 s.

(** [re.escape(s)], compiled: every character matches itself. *)
Definition escape (s : list ascii) : regex := map (λ c, One (Ch c)) s.

End Re.

Import Py Re.

(** ** The python-docx objects the program touches

    A run carries its text as [run.text] reads it, its tri-state bold
    attribute ([None]: never assigned, the run inherits) and the rest of its
    formatting, which the program never reads or writes.  A paragraph holds,
    in document order, its runs and its hyperlinks: [paragraph.runs] lists
    the runs only, while [paragraph.text] (python-docx 1.0 and later) also
    reads the text of the hyperlinks. *)

Record Run := mkRun {
  r_text : str;
  r_bold : option bool;
  r_fmt : str
}.

Inductive Inline :=
| IRun (r : Run)
| IHyperlink (text : str).

Record Paragraph := mkParagraph {
  p_content : list Inline;
  p_style : str
}.

Definition run_of (i : Inline) : option Run :=
  match i with IRun r => Some r | IHyperlink _ => None end.

Definition inline_text (i : Inline) : str :=
  match i with IRun r => r_text r | IHyperlink t => t end.

(** [paragraph.runs] *)
Definition runs (p : Paragraph) : list Run := omap run_of (p_content p).

(** [paragraph.text] *)
Definition paragraph_text (p : Paragraph) : str :=
  concat (map inline_text (p_content p)).

(** [''.join(run.text for run in paragraph.runs)] *)
Definition full_text_of (p : Paragraph) : str := concat (map r_text (runs p)).

(** How a call into python-docx ends: it returns, or a [ValueError]
    escapes it. *)
Inductive outcome := Returns | Raises.

Definition TAB : ascii := "009"%char.
Definition LF : ascii := "010"%char.
Definition CR : ascii := "013"%char.

(** The characters XML can carry: tab, line feed, carriage return and
    everything from the space on.  lxml refuses a text that holds any other
    with [ValueError]. *)
Definition xml_char (c : ascii) : bool :=
  let n := nat_of_ascii c in (n =? 9) || (n =? 10) || (n =? 13) || (32 <=? n).
Definition xml_compatible (s : str) : bool := forallb xml_char s.

(** [run.text = text] on a run without content.  python-docx reads the text
    character by character: a tab closes the stretch read so far and adds a
    [w:tab], a line feed or a carriage return closes it and adds a [w:br],
    any other character joins the stretch; a stretch that is not empty is
    stored as a [w:t] when it is closed, which is where lxml raises.
    [content] is what the run reads back so far ([w:tab] as a tab, [w:br] as
    a line feed), [bfr] the stretch being read. *)
Fixpoint append_to_run (content bfr text : str) : str * outcome :=
  match text with
  | [] =>
      if xml_compatible bfr then (content ++ bfr, Returns)
      else (content, Raises)
  | c :: text' =>
      if bool_decide (c = TAB) then
        if xml_compatible bfr
        then append_to_run (content ++ bfr ++ [TAB]) [] text'
        else (content, Raises)
      else if bool_decide (c = CR) || bool_decide (c = LF) then
        if xml_compatible bfr
        then append_to_run (content ++ bfr ++ [LF]) [] text'
        else (content, Raises)
      else append_to_run content (bfr ++ [c]) text'
  end.

(** [run.text = t]: the content of the run is cleared, then [t] is
    stored; the formatting stays. *)
Definition set_text (t : str) (r : Run) : Run * outcome :=
  let '(t', o) := append_to_run [] [] t in
  ({| r_text := t'; r_bold := r_bold r; r_fmt := r_fmt r |}, o).


(** [run.text = ""], which cannot raise. *)
Definition clear_run (r : Run) : Run := (set_text [] r).1.

(** [for r in paragraph.runs: r.text = ""] *)
Definition clear_runs (p : Paragraph) : Paragraph :=
  {| p_content :=
       map (λ i, match i with
                 | IRun r => IRun (clear_run r)
                 | IHyperlink t => IHyperlink t
                 end) (p_content p);
     p_style := p_style p |}.

(** [run.bold = b] *)
Definition set_bold (b : bool) (r : Run) : Run :=
  {| r_text := r_text r; r_bold := Some b; r_fmt := r_fmt r |}.

(** [paragraph.add_run(text)]: a fresh run, with no formatting of its own,
    becomes the last child of the paragraph; then, for a [text] that is not
    empty, [run.text = text].  The paragraph, the new run and how the call
    ends are returned: when the assignment raises, the run is in the
    paragraph with the part of the text stored before. *)
Definition new_run : Run := {| r_text := []; r_bold := None; r_fmt := [] |}.
Definition add_run (text : str) (p : Paragraph) : Paragraph * Run * outcome :=
  let '(r, o) :=
    if truthy text then set_text text new_run else (new_run, Returns) in
  ({| p_content := p_content p ++ [IRun r]; p_style := p_style p |}, r, o).

(** Store back the run last returned by [add_run] after it was modified. *)
Definition update_last_run (r : Run) (p : Paragraph) : Paragraph :=
  {| p_content := removelast (p_content p) ++ [IRun r];
     p_style := p_style p |}.

(** ** Placeholder replacement *)

(** [PLACEHOLDER_RE = re.compile(r'(\{\{[^}]+\}\})')] *)
Definition PLACEHOLDER_RE : regex :=
  [One (Ch "{"); One (Ch "{"); Plus (NotCh "}"); One (Ch "}"); One (Ch "}")]%char.

(** Group 1 of [PLACEHOLDER_RE] encloses the whole pattern. *)
Definition placeholder_group1 (m : rmatch) : str := group0 m.

Definition BOLD_KEYS : list str :=
  map lit ["{{base_amo}}"; "{{cgst_c}}"; "{{sgst_c}}"; "{{tax_t}}";
           "{{sub_total_words}}"; "{{tax_to_words}}"]%string.

Definition BOLD_PARAGRAPH_KEYS : list str :=
  map lit ["{{sub_total_words}}"; "{{tax_to_words}}"; "{{sub_total}}"]%string.

(** [any(k in full_text for k in BOLD_PARAGRAPH_KEYS)] *)
Definition paragraph_should_be_bold (full_text : str) : bool :=
  existsb (λ k, contains k full_text) BOLD_PARAGRAPH_KEYS.

(** The loop state of [replace_placeholders_in_paragraph]. *)
Record scan_state := ScanState {
  segments : list (str * bool);
  idx : nat;
  found : bool
}.

(** One iteration of [for m in PLACEHOLDER_RE.finditer(full_text)]. *)
Definition scan_step (full_text : str) (replacements : gmap str str)
    (pbold : bool) (st : scan_state) (m : rmatch) : scan_state :=
  let placeholder := placeholder_group1 m in
  let segs :=
    if idx st <? m_start m
    then segments st ++ [(slice (idx st) (m_start m) full_text, pbold)]
    else segments st in
  let replacement_text := default placeholder (replacements !! placeholder) in
  let is_bold := pbold || bool_decide (placeholder ∈ BOLD_KEYS) in
  {| segments := segs ++ [(replacement_text, is_bold)];
     idx := m_end m;
     found := true |}.

(** [if idx < len(full_text): segments.append((full_text[idx:], ...))] *)
Definition scan_finish (full_text : str) (pbold : bool) (st : scan_state)
    : scan_state :=
  if idx st <? length full_text
  then {| segments := segments st ++ [(slice_from (idx st) full_text, pbold)];
          idx := idx st; found := found st |}
  else st.

(** The loop over the matches, then the trailing literal text. *)
Definition scan_segments (full_text : str) (replacements : gmap str str)
    (pbold : bool) : scan_state :=
  scan_finish full_text pbold
    (fold_left (scan_step full_text replacements pbold)
       (finditer PLACEHOLDER_RE full_text)
       {| segments := []; idx := 0; found := false |}).

(** One iteration of [for text, bold_flag in segments: ...]; nothing is
    done once an iteration has raised. *)
Definition emit_segment (st : Paragraph * outcome) (seg : str * bool)
    : Paragraph * outcome :=
  match st.2 with
  | Raises => st
  | Returns =>
      let '(text, bold_flag) := seg in
      if negb (truthy text) then st
      else
        let '(p', r, o) := add_run text st.1 in
        match o with
        | Raises => (p', Raises)
        | Returns =>
            if bold_flag then (update_last_run (set_bold true r) p', Returns)
            else (p', Returns)
        end
  end.

(** The call: the paragraph as it leaves it, and how it ends. *)
Definition replace_placeholders_in_paragraph_call (paragraph : Paragraph)
    (replacements : gmap str str) : Paragraph * outcome :=
  let full_text := full_text_of paragraph in
  if negb (contains (lit "{{") full_text) then (paragraph, Returns)
  else
    let pbold := paragraph_should_be_bold full_text in
    let st := scan_segments full_text replacements pbold in
    if negb (found st) then (paragraph, Returns)
    else fold_left emit_segment (segments st) (clear_runs paragraph, Returns).

(** The paragraph after the call, whether it returned or raised. *)
Definition replace_placeholders_in_paragraph (paragraph : Paragraph)
    (replacements : gmap str str) : Paragraph :=
  (replace_placeholders_in_paragraph_call paragraph replacements).1.

(** How the call ends. *)
Definition replace_placeholders_in_paragraph_outcome (paragraph : Paragraph)
    (replacements : gmap str str) : outcome :=
  (replace_placeholders_in_paragraph_call paragraph replacements).2.

(** ** The placeholder scan, specified from the words of the design

    A placeholder is an open double-brace, one or more non-close-brace
    characters and a close double-brace.  The scan cuts a text into literal
    pieces and placeholder tokens, each token being the leftmost placeholder
    that starts at or after the end of the previous one. *)

(** The longest prefix free of [c], and what follows it. *)
Fixpoint span_not (c : ascii) (s : str) : str * str :=
  match s with
  | x :: s' =>
      if bool_decide (x = c) then ([], s)
      else let '(b, r) := span_not c s' in (x :: b, r)
  | [] => ([], [])
  end.

Inductive piece :=
| Literal (s : str)
| Token (t : str).

Definition is_placeholder (t : str) : Prop :=
  ∃ body, t = lit "{{" ++ body ++ lit "}}" ∧ body ≠ [] ∧ "}"%char ∉ body.

(** A placeholder starts at offset [i] of [s]. *)
Definition occurs_at (i : nat) (s : str) : Prop :=
  ∃ t, is_placeholder t ∧ t `prefix_of` drop i s.

(** [k] occurs in [s] as a contiguous substring. *)
Definition substring (k s : str) : Prop := ∃ pre post, s = pre ++ k ++ post.

(** Literal text between matches; an empty stretch gives no piece. *)
Definition literal_piece (l : str) : list piece :=
  match l with [] => [] | _ :: _ => [Literal l] end.

Inductive Scan : str → list piece → Prop :=
| Scan_end s :
    (∀ i, ¬ occurs_at i s) →
    Scan s (literal_piece s)
| Scan_tok l t rest ps :
    is_placeholder t →
    (∀ i, i < length l → ¬ occurs_at i (l ++ t ++ rest)) →
    Scan rest ps →
    Scan (l ++ t ++ rest) (literal_piece l ++ Token t :: ps).

Definition is_token (pc : piece) : bool :=
  match pc with Token _ => true | Literal _ => false end.

(** The text a piece stands for in the source. *)
Definition piece_source (pc : piece) : str :=
  match pc with Literal l => l | Token t => t end.

(** The text a piece becomes: a token that is a key of the map is replaced
    by its value, anything else stays as it is. *)
Definition piece_text (replacements : gmap str str) (pc : piece) : str :=
  match pc with
  | Literal l => l
  | Token t => match replacements !! t with Some v => v | None => t end
  end.

Definition substitute (replacements : gmap str str) (ps : list piece) : str :=
  concat (map (piece_text replacements) ps).

(** A segment is bold if the paragraph is in paragraph-bold mode or its
    token is in the segment-bold set. *)
Definition piece_bold (pbold : bool) (pc : piece) : bool :=
  pbold || match pc with
           | Token t => bool_decide (t ∈ BOLD_KEYS)
           | Literal _ => false
           end.

(** The segment the program is to build for a piece. *)
Definition piece_segment (replacements : gmap str str) (pbold : bool)
    (pc : piece) : str * bool :=
  (piece_text replacements pc, piece_bold pbold pc).

(** The segments the program is to build for the pieces of a text. *)
Definition piece_segments (replacements : gmap str str) (full_text : str)
    (ps : list piece) : list (str * bool) :=
  map (piece_segment replacements (paragraph_should_be_bold full_text)) ps.

(** A character that joins the stretch being read. *)
Definition plain_char (c : ascii) : Prop := c ≠ TAB ∧ c ≠ CR ∧ c ≠ LF.

(** The text a run reads back once [text] was stored in it: a carriage
    return was stored as a line break, which reads as a line feed. *)
Definition docx_text (text : str) : str :=
  map (λ c, if bool_decide (c = CR) then LF else c) text.

(** The run a segment gives rise to when python-docx accepts its text: none
    for an empty text; the bold attribute is assigned (to true) only for a
    bold segment. *)
Definition run_of_segment (seg : str * bool) : option Run :=
  match seg.1 with
  | [] => None
  | _ :: _ =>
      Some {| r_text := docx_text seg.1;
              r_bold := if seg.2 then Some true else None;
              r_fmt := [] |}
  end.

(** The runs the loop over the segments adds, and how it ends: one run for
    each segment that is not empty, up to the first whose text is refused;
    that one leaves a run with the part of its text stored before, and no
    bold flag. *)
Fixpoint built_runs (segs : list (str * bool)) : list Run * outcome :=
  match segs with
  | [] => ([], Returns)
  | (text, bold_flag) :: segs' =>
      if negb (truthy text) then built_runs segs'
      else
        match append_to_run [] [] text with
        | (t, Returns) =>
            let '(rs, o) := built_runs segs' in
            ({| r_text := t; r_bold := if bold_flag then Some true else None;
                r_fmt := [] |} :: rs, o)
        | (t, Raises) => ([{| r_text := t; r_bold := None; r_fmt := [] |}], Raises)
        end
  end.

(** The pieces that are to get a run: those whose text is not empty. *)
Definition visible_pieces (replacements : gmap str str) (ps : list piece)
    : list piece :=
  List.filter (λ pc, truthy (piece_text replacements pc)) ps.

(** The run a visible piece is to get. *)
Definition run_of_piece (replacements : gmap str str) (pbold : bool)
    (pc : piece) : Run :=
  {| r_text := docx_text (piece_text replacements pc);
     r_bold := if piece_bold pbold pc then Some true else None;
     r_fmt := [] |}.

(** The spans and texts of the tokens of a scan that starts at offset
    [pos]. *)
Fixpoint token_spans (pos : nat) (ps : list piece) : list (nat * nat * str) :=
  match ps with
  | [] => []
  | Literal l :: ps' => token_spans (pos + length l) ps'
  | Token t :: ps' => (pos, pos + length t, t) :: token_spans (pos + length t) ps'
  end.

(** [(m.start(), m.end(), m.group(1))] of a match of [PLACEHOLDER_RE]. *)
Definition match_span (m : rmatch) : nat * nat * str :=
  (m_start m, m_end m, placeholder_group1 m).

(** The runs the paragraph gained: those after its original runs. *)
Definition emitted (before after : Paragraph) : list Run :=
  drop (length (runs before)) (runs after).


(** Sample paragraphs and a sample replacement map. *)
Definition sample_run (t : string) : Run := mkRun (lit t) (Some false) (lit "Calibri").
Definition sample_paragraph (ts : list string) : Paragraph :=
  mkParagraph (map (λ t, IRun (sample_run t)) ts) (lit "Normal").
Definition sample_replacements : gmap str str :=
  list_to_map [(lit "{{date}}", lit "01/02/2025"); (lit "{{hsn}}", []);
               (lit "{{base_amo}}", lit "864.41");
               (lit "{{sub_total}}", lit "1020.00")].

(** A paragraph whose only text is that of a hyperlink. *)
Definition link_paragraph : Paragraph :=
  mkParagraph [IRun (sample_run " "); IHyperlink (lit "www.example.com")]
    (lit "Normal").

(** A payment type as a form sends it from a text area, its lines ended by
    carriage return and line feed; and an HSN code with a form feed. *)
Definition two_line_replacements : gmap str str :=
  {[ lit "{{payment_type}}" := lit "Cash" ++ [CR; LF] ++ lit "NEFT" ]}.
Definition form_feed_replacements : gmap str str :=
  {[ lit "{{hsn}}" := lit "99" ++ ["012"%char] ++ lit "54" ]}.

(** The text after the call is the text before it with every token that is
    a key of the map replaced by its value, everything else as it was. *)
Definition text_replaced_verbatim (p : Paragraph)
    (replacements : gmap str str) : Prop :=
  ∃ ps, Scan (full_text_of p) ps ∧
    full_text_of (replace_placeholders_in_paragraph p replacements) =
      substitute replacements ps.


(** Whether a run is bold: by its own flag when it has one, and as the
    style of its paragraph makes it otherwise.  [bold_styles] tells the
    styles of the document that are bold. *)
Definition renders_bold (bold_styles : str → bool) (p : Paragraph) (r : Run)
    : bool :=
  default (bold_styles (p_style p)) (r_bold r).

(** The emitted runs are bold exactly where the bold policy says: all of
    them when a paragraph-bold token occurs in the text, and otherwise the
    replacement runs of the segment-bold tokens only. *)
Definition bold_where_claimed (bold_styles : str → bool) (p : Paragraph)
    (replacements : gmap str str) : Prop :=
  ∃ ps, Scan (full_text_of p) ps ∧
    Forall2
      (λ pc r,
         renders_bold bold_styles p r = true ↔
           (∃ k, k ∈ BOLD_PARAGRAPH_KEYS ∧ substring k (full_text_of p)) ∨
           (∃ t, pc = Token t ∧ t ∈ BOLD_KEYS))
      (if existsb is_token ps then visible_pieces replacements ps else [])
      (emitted p (replace_placeholders_in_paragraph p replacements)).

(** A document in which the style [Heading 1] is bold, and a heading. *)
Definition heading_bold (style : str) : bool :=
  bool_decide (style = lit "Heading 1").
Definition sample_heading : Paragraph :=
  mkParagraph [IRun (mkRun (lit "Invoice of {{date}}") None [])]
    (lit "Heading 1").

(** ** Blocks and the trailing-paragraph trim

    A block (the body, a table cell, a header or a footer) holds paragraphs
    and tables in document order.  A table holds the cells that its rows
    yield, each a block, and its grid: for each row, the cells that
    [row.cells] yields, by their index; python-docx yields a merged cell
    once for every grid position it covers, so its index comes as many
    times. *)

Inductive Item :=
| IPara (p : Paragraph)
| ITable (cells : list (list Item)) (grid : list (list nat)).

Definition Block := list Item.
Definition Table : Type := list Block * list (list nat).

(** [block.paragraphs] and [block.tables]: the paragraphs, and the tables,
    that are direct children of the block, in document order. *)
Definition paragraphs (block : Block) : list Paragraph :=
  omap (λ it, match it with IPara p => Some p | ITable _ _ => None end) block.
Definition tables (block : Block) : list Table :=
  omap (λ it, match it with
              | ITable cells grid => Some (cells, grid)
              | IPara _ => None
              end) block.

Definition is_para (it : Item) : bool :=
  match it with IPara _ => true | ITable _ _ => false end.

(** [s and s.strip()], as a truth value. *)
Definition has_visible_text (s : str) : bool := truthy s && truthy (strip s).

Definition is_paragraph_empty (paragraph : Paragraph) : bool :=
  if has_visible_text (paragraph_text paragraph) then false
  else negb (existsb (λ run, has_visible_text (r_text run)) (runs paragraph)).

(** [parent.remove(p_el)] for the last paragraph of the block: that child
    is taken out, every other child stays where it is. *)
Fixpoint remove_last_paragraph (block : Block) : Block :=
  match block with
  | [] => []
  | it :: rest =>
      if is_para it && negb (existsb is_para rest) then rest
      else it :: remove_last_paragraph rest
  end.

(** The [while block.paragraphs:] loop.  A paragraph listed by the block
    always has the block as its parent, so the [parent is None] exit is
    never taken.  [None] stands for running out of [fuel]. *)
Fixpoint trim_loop (fuel : nat) (block : Block) : option Block :=
  match fuel with
  | 0 => None
  | S fuel' =>
      match last (paragraphs block) with
      | None => Some block
      | Some p =>
          if is_paragraph_empty p
          then trim_loop fuel' (remove_last_paragraph block)
          else Some block
      end
  end.

Definition remove_trailing_empty_paragraphs_from_block (block : Block)
    : option Block :=
  trim_loop (S (length (paragraphs block))) block.

(** A paragraph is blank when its text, that of its hyperlinks included,
    holds no character that is not white space. *)
Definition blank (p : Paragraph) : Prop :=
  ∀ c, c ∈ paragraph_text p → isspace c = true.




Definition link_block : Block :=
  [IPara (sample_paragraph ["See"]); IPara link_paragraph].

(** ** Invoice numbering *)

(** [Path(name).stem]: the name without its last extension. *)
Definition stem (name : str) : str :=
  match rfind_dot name with
  | Some i => if (0 <? i) && (i <? length name - 1) then take i name else name
  | None => name
  end.

(** [Path(OUTPUT_DIR).glob("*.pdf")] keeps the names that end in [.pdf]
    (names are compared case-sensitively, as on a POSIX file system). *)
Definition is_pdf (name : str) : bool := endswith (lit ".pdf") name.

(** [re.compile(rf"GB-{re.escape(month_year)}-(\d+)")] *)
Definition suffix_pattern (month_year : str) : regex :=
  [One (Ch "G"); One (Ch "B"); One (Ch "-")]%char ++ escape month_year ++
  [One (Ch "-"); Plus Digit]%char.

(** Group 1 of [suffix_pattern] is its last item, the digits. *)
Definition suffix_group1 (m : rmatch) : str := List.last (m_items m) [].

Definition digit_value (c : ascii) : N := N.of_nat (nat_of_ascii c - 48).

(** [int(s)] on a string of decimal digits; [None] stands for the
    [ValueError] raised on any other text the program could pass. *)
Definition py_int (s : str) : option N :=
  if isdecimal s then Some (fold_left (λ acc c, 10 * acc + digit_value c)%N s 0%N)
  else None.

Definition digit_char (d : N) : ascii := ascii_of_nat (48 + N.to_nat d).

(** The decimal digits of [n], most significant first. *)
Fixpoint decimal_fuel (fuel : nat) (n : N) (acc : str) : str :=
  match fuel with
  | 0 => acc
  | S fuel' =>
      let acc' := digit_char (n mod 10) :: acc in
      if (n / 10 =? 0)%N then acc' else decimal_fuel fuel' (n / 10)%N acc'
  end.
Definition decimal (n : N) : str := decimal_fuel (S (N.to_nat (N.size n))) n [].

(** [f"{n:02d}"]: decimal, padded with zeros on the left to two characters. *)
Definition format_02d (n : N) : str :=
  let s := decimal n in
  repeat "0"%char (2 - length s) ++ s.

(** The body of [for path in Path(OUTPUT_DIR).glob("*.pdf")]. *)
Definition suffix_step (pattern : regex) (max_suffix : N) (path : str) : N :=
  let name := stem path in
  match search pattern name with
  | Some m =>
      match py_int (suffix_group1 m) with
      | Some val => if (max_suffix <? val)%N then val else max_suffix
      | None => max_suffix
      end
  | None => max_suffix
  end.

(** [output_dir] is the listing of [OUTPUT_DIR]. *)
Definition get_next_suffix_for_month (month_year : str)
    (output_dir : list str) : str :=
  let pattern := suffix_pattern month_year in
  let max_suffix :=
    fold_left (suffix_step pattern) (List.filter is_pdf output_dir) 0%N in
  format_02d (max_suffix + 1).

(** The value of a string of decimal digits. *)
Definition digits_value (s : str) : N :=
  fold_left (λ acc c, 10 * acc + digit_value c)%N s 0%N.

(** The longest prefix of digits, and what follows it. *)
Fixpoint span_digits (s : str) : str * str :=
  match s with
  | c :: s' =>
      if isdigit_char c then let '(ds, r) := span_digits s' in (c :: ds, r)
      else ([], s)
  | [] => ([], [])
  end.

(** The fixed part of an invoice token for a month: [GB-<MMYY>-]. *)
Definition token_head (month_year : str) : str :=
  lit "GB-" ++ month_year ++ lit "-".

(** An invoice token [GB-<MMYY>-<digits>] starts at offset [i] of [name]. *)
Definition token_at (month_year : str) (i : nat) (name : str) : Prop :=
  ∃ d rest, isdigit_char d = true ∧
            drop i name = token_head month_year ++ d :: rest.

(** [ds] is the numeric segment of the first invoice token of [name]: all
    the digits that follow the leftmost [GB-<MMYY>-] followed by a digit. *)
Definition first_token (month_year : str) (name : str) (ds : str) : Prop :=
  ∃ pre post,
    name = pre ++ token_head month_year ++ ds ++ post ∧
    ds ≠ [] ∧ Forall (λ c, isdigit_char c = true) ds ∧
    (∀ c, head post = Some c → isdigit_char c = false) ∧
    (∀ i, i < length pre → ¬ token_at month_year i name).

(** The suffix the scan reads off one file name, if any. *)
Definition suffix_of (pattern : regex) (path : str) : option N :=
  match search pattern (stem path) with
  | Some m => py_int (suffix_group1 m)
  | None => None
  end.

(** The numbering rule read over every name of the directory: the result is
    the formatted successor of the largest numeric segment among the first
    tokens of the names, of 0 when no name has one. *)
Definition next_suffix_over_names (month_year : str) (names : list str)
    (out : str) : Prop :=
  ∃ mx : N,
    out = format_02d (mx + 1) ∧
    (∀ name ds, name ∈ names → first_token month_year name ds →
                (digits_value ds ≤ mx)%N) ∧
    (mx = 0%N ∨
     ∃ name ds, name ∈ names ∧ first_token month_year name ds ∧
                digits_value ds = mx).

(** ** The financial computation

    Python [float] is IEEE 754 binary64, as is the kernel's [float]; the
    arithmetic of the program is the kernel's, and the conversions to and
    from integers and decimal text are computed on the exact value
    [(-1)^s * m * 2^e] of a float. *)

(** The literals of the program, as the binary64 values nearest to them. *)
Definition f_1_02 : float := 0x1.051eb851eb852p+0%float.
Definition f_1_18 : float := 0x1.2e147ae147ae1p+0%float.
Definition f_0_09 : float := 0x1.70a3d70a3d70ap-4%float.

(** The signed mantissa of a finite float. *)
Definition signed (s : bool) (m : positive) : Z := if s then Z.neg m else Z.pos m.

(** [math.ceil(x)]: the least integer not below [x]; [None] stands for the
    [ValueError] raised on a NaN and the [OverflowError] raised on an
    infinity. *)
Definition math_ceil (x : float) : option Z :=
  match Prim2SF x with
  | S754_zero _ => Some 0%Z
  | S754_finite s m e =>
      Some (if (0 <=? e)%Z then signed s m * 2 ^ e
            else - ((- signed s m) / 2 ^ (- e)))%Z
  | S754_infinity _ | S754_nan => None
  end.

(** [float(n)] for an integer [n]: the nearest float; [None] stands for the
    [OverflowError] raised when [n] is out of range. *)
Definition float_of_int (n : Z) : option float :=
  match binary_normalize prec emax n 0 false with
  | S754_infinity _ => None
  | sf => Some (SF2Prim sf)
  end.

(** The integer nearest to [m * 100 * 2^e], ties to even. *)
Definition round_hundredths (m : positive) (e : Z) : Z :=
  if (0 <=? e)%Z then Z.pos m * 100 * 2 ^ e
  else
    let den := (2 ^ (- e))%Z in
    let q := (Z.pos m * 100 / den)%Z in
    let r := (Z.pos m * 100 mod den)%Z in
    match (2 * r ?= den)%Z with
    | Lt => q
    | Gt => (q + 1)%Z
    | Eq => if Z.even q then q else (q + 1)%Z
    end.

(** [f"{x:.2f}"] for a float [x]. *)
Definition format_2f (x : float) : str :=
  match Prim2SF x with
  | S754_nan => lit "nan"
  | S754_infinity s => (if s then lit "-inf" else lit "inf")
  | S754_zero s => (if s then lit "-0.00" else lit "0.00")
  | S754_finite s m e =>
      let q := Z.to_N (round_hundredths m e) in
      (if s then lit "-" else []) ++
      decimal (q / 100) ++ lit "." ++ format_02d (q mod 100)
  end.

Record financials := Financials {
  sub_total : Z;
  base_amount : float;
  cgst : float;
  sgst : float;
  sub_total_2 : float;
  tax_total : float
}.

(** The arithmetic of [generate_invoice], from the parsed amount on;
    [None] stands for an exception raised on the way. *)
Definition compute_financials (y_value : float) : option financials :=
  match math_ceil (y_value * f_1_02) with
  | None => None
  | Some sub_total =>
      match float_of_int sub_total with
      | None => None
      | Some sub_total_f =>
          let base_amount := (sub_total_f / f_1_18)%float in
          let cgst := (base_amount * f_0_09)%float in
          let sgst := (base_amount * f_0_09)%float in
          let sub_total_2 := (base_amount + cgst + sgst)%float in
          let tax_total := (cgst + sgst)%float in
          Some (Financials sub_total base_amount cgst sgst sub_total_2 tax_total)
      end
  end.

(** [f"{n:.2f}"] for an integer [n]: it is formatted as a float. *)
Definition format_2f_int (n : Z) : option str := format_2f <$> float_of_int n.

(** [z] is the least integer that is not below the exact value of [sf]. *)
Definition is_ceiling (sf : spec_float) (z : Z) : Prop :=
  match sf with
  | S754_zero _ => z = 0%Z
  | S754_finite s m e =>
      if (0 <=? e)%Z then z = (signed s m * 2 ^ e)%Z
      else ((z - 1) * 2 ^ (- e) < signed s m ≤ z * 2 ^ (- e))%Z
  | S754_infinity _ | S754_nan => False
  end.

(** The computation yields its values for the amount [y]. *)
Definition yields_financials (y : float) : Prop :=
  is_Some (compute_financials y).

(** The largest finite float, about 1.797e308. *)
Definition max_float : float := 0x1.fffffffffffffp+1023%float.

(** ** The request handlers, up to the end of input validation

    The built-ins the handlers call are parameters: [py_float] is
    [float(s)] and [strptime_ymd] is [datetime.strptime(s, "%Y-%m-%d")],
    as year, month and day, each [None] when the call raises [ValueError];
    [today] is [datetime.now().strftime("%Y-%m-%d")].  [produce] is the rest
    of [generate_invoice], from the loading of the template on. *)

(** What a handler does to the outside world. *)
Inductive event :=
| LoadTemplate
| WriteFile (name : str).

(** How a handler ends: it returns a response, or lets an exception
    escape, which the framework answers with status 500. *)
Inductive result :=
| Returned (status : nat) (body : str)
| Raised (exn : str).

Definition http_status (r : result) : nat :=
  match r with
  | Returned status _ => status
  | Raised _ => 500
  end.

(** A client error: a status from 400 to 499. *)
Definition client_error (r : result) : Prop := 400 ≤ http_status r < 500.

(** The inputs of the invoice once validated. *)
Record invoice_input := InvoiceInput {
  in_y_value : float;
  in_sub_total : Z;
  in_date : nat * nat * nat;
  in_invoice_suffix : str;
  in_payment_type : str;
  in_hsn_code : str
}.

Section Handlers.

Variable py_float : str → option float.
Variable strptime_ymd : str → option (nat * nat * nat).
Variable today : str.
Variable produce : invoice_input → list event * result.

(** [generate_invoice], after [login_required]; [form] is [request.form]. *)
Definition generate_invoice (form : gmap str str) : list event * result :=
  match form !! lit "y_value" ≫= py_float with
  | None => ([], Returned 400 (lit "Invalid y_value"))
  | Some y_value =>
      match math_ceil (y_value * f_1_02) with
      | None => ([], Raised (lit "ValueError or OverflowError"))
      | Some sub_total =>
          let date_value := default today (form !! lit "date") in
          let invoice_suffix :=
            strip (default [] (form !! lit "invoice_suffix")) in
          let payment_type := default [] (form !! lit "payment_type") in
          let hsn_code := default [] (form !! lit "hsn_code") in
          if negb (isdigit invoice_suffix)
          then ([], Returned 400 (lit "Invoice suffix must be numeric"))
          else
            match strptime_ymd date_value with
            | None => ([], Raised (lit "ValueError"))
            | Some date =>
                produce (InvoiceInput y_value sub_total date invoice_suffix
                           payment_type hsn_code)
            end
      end
  end.

(** [strftime("%m%y")] of a date. *)
Definition month_year_of (date : nat * nat * nat) : str :=
  let '(y, m, _) := date in
  format_02d (N.of_nat m) ++ format_02d (N.of_nat (y mod 100)).

(** [next_suffix], after [login_required]; [args] is [request.args] and
    [output_dir] the listing of [OUTPUT_DIR]. *)
Definition next_suffix (output_dir : list str) (args : gmap str str)
    : list event * result :=
  match args !! lit "date" with
  | None | Some [] => ([], Returned 400 (lit "date is required"))
  | Some date_value =>
      match strptime_ymd date_value with
      | None => ([], Returned 400 (lit "invalid date"))
      | Some date =>
          ([], Returned 200
                 (get_next_suffix_for_month (month_year_of date) output_dir))
      end
  end.

End Handlers.

(** A sample request with the date [2025-13-40], and sample built-ins:
    [float] knows the text [1000], [strptime] knows no date. *)
Definition sample_form : gmap str str :=
  list_to_map [(lit "y_value", lit "1000"); (lit "date", lit "2025-13-40");
               (lit "invoice_suffix", lit " 07 ")].
Definition sample_float (s : str) : option float :=
  if bool_decide (s = lit "1000") then Some 1000%float else None.
Definition sample_strptime (s : str) : option (nat * nat * nat) := None.
Definition sample_produce (i : invoice_input) : list event * result :=
  ([LoadTemplate; WriteFile (lit "tmp_generated.docx")], Returned 200 []).


(** ** Further definitions for the properties of the code *)

(** Two runs differ at most by the text, which the second may have lost. *)
Definition same_but_cleared (r r' : Run) : Prop :=
  r_bold r' = r_bold r ∧ r_fmt r' = r_fmt r ∧
  (r_text r' = r_text r ∨ r_text r' = []).

(** One span ends before the next begins. *)
Definition span_before (x y : nat * nat * str) : Prop := x.1.2 ≤ y.1.1.

(** The text of the hyperlinks of a paragraph. *)
Definition hyperlink_text (p : Paragraph) : str :=
  concat (omap (λ i, match i with
                     | IHyperlink t => Some t
                     | IRun _ => None
                     end) (p_content p)).

(** A text as python-docx reads it from a document that spells no carriage
    return as a character reference: XML can carry it, and its line ends
    were turned into line feeds when the document was parsed. *)
Definition read_from_document (s : str) : Prop :=
  xml_compatible s = true ∧ CR ∉ s.

(** ** The traversal of the document tree *)

(** [f] runs on the elements of a list in turn, each in its place, up to
    the first on which it raises. *)
Fixpoint each {A} (f : A → A * outcome) (l : list A) : list A * outcome :=
  match l with
  | [] => ([], Returns)
  | x :: l' =>
      let '(x', o) := f x in
      match o with
      | Raises => (x' :: l', Raises)
      | Returns => let '(l'', o') := each f l' in (x' :: l'', o')
      end
  end.

(** One step of [for cell in row.cells]: [on_cell] runs on the cell of
    index [i] as the steps before left it; nothing is done once a step has
    raised. *)
Definition visit (on_cell : Block → Block * outcome)
    (st : list Block * outcome) (i : nat) : list Block * outcome :=
  match st.2 with
  | Raises => st
  | Returns =>
      match st.1 !! i with
      | Some cell =>
          let '(cell', o) := on_cell cell in (<[i := cell']> st.1, o)
      | None => st
      end
  end.

(** [for p in block.paragraphs:
       replace_placeholders_in_paragraph(p, replacements)] *)
Definition replace_in_paragraphs (replacements : gmap str str) (block : Block)
    : Block * outcome :=
  each (λ it, match it with
              | IPara p =>
                  let '(p', o) :=
                    replace_placeholders_in_paragraph_call p replacements in
                  (IPara p', o)
              | ITable _ _ => (it, Returns)
              end) block.

(** [for row in table.rows: for cell in row.cells: ...], given what is done
    on a cell. *)
Definition replace_in_table (on_cell : Block → Block * outcome) (t : Table)
    : Table * outcome :=
  let '(cells', o) := fold_left (visit on_cell) (concat t.2) (t.1, Returns) in
  ((cells', t.2), o).

(** [for t in getattr(block, "tables", []): ...] *)
Definition replace_in_tables (on_cell : Block → Block * outcome)
    (block : Block) : Block * outcome :=
  each (λ it, match it with
              | ITable cells grid =>
                  let '((cells', grid'), o) :=
                    replace_in_table on_cell (cells, grid) in
                  (ITable cells' grid', o)
              | IPara _ => (it, Returns)
              end) block.

(** [replace_placeholders_in_block]: the paragraphs of the block, then its
    tables.  Each unit of [fuel] lets the recursion enter the cells of one
    more level of nested tables. *)
Fixpoint replace_in_block (fuel : nat) (replacements : gmap str str)
    (block : Block) : Block * outcome :=
  let '(block1, o) := replace_in_paragraphs replacements block in
  match o with
  | Raises => (block1, Raises)
  | Returns =>
      match fuel with
      | 0 => (block1, Returns)
      | S fuel' =>
          replace_in_tables (replace_in_block fuel' replacements) block1
      end
  end.

(** How deep the tables of a block are nested: 0 for a block without
    table. *)
Fixpoint item_depth (it : Item) : nat :=
  match it with
  | IPara _ => 0
  | ITable cells _ =>
      S (max_list (map (λ cell, max_list (map item_depth cell)) cells))
  end.
Definition nesting_depth (block : Block) : nat :=
  max_list (map item_depth block).

(** The call, with the fuel the block needs: the block as the call leaves
    it, and how it ends. *)
Definition replace_placeholders_in_block_call (block : Block)
    (replacements : gmap str str) : Block * outcome :=
  replace_in_block (nesting_depth block) replacements block.

(** The block after the call, whether it returned or raised. *)
Definition replace_placeholders_in_block (block : Block)
    (replacements : gmap str str) : Block :=
  (replace_placeholders_in_block_call block replacements).1.

Definition replace_placeholders_in_table (t : Table)
    (replacements : gmap str str) : Table * outcome :=
  replace_in_table
    (λ cell, replace_placeholders_in_block_call cell replacements) t.

(** The paragraphs of a block at any depth: its own and those of the cells
    of its tables. *)
Fixpoint item_paragraphs (it : Item) : list Paragraph :=
  match it with
  | IPara p => [p]
  | ITable cells _ =>
      concat (map (λ cell, concat (map item_paragraphs cell)) cells)
  end.

Definition block_paragraphs (block : Block) : list Paragraph :=
  concat (map item_paragraphs block).

(** No table of the block, at any depth, has a merged cell: the rows of
    each yield every cell of the table once, in order. *)
Fixpoint item_unmerged (it : Item) : bool :=
  match it with
  | IPara _ => true
  | ITable cells grid =>
      bool_decide (concat grid = seq 0 (length cells)) &&
      forallb (forallb item_unmerged) cells
  end.
Definition unmerged (block : Block) : bool := forallb item_unmerged block.

(** The item in which every paragraph, at any depth, is replaced by what
    one call makes of it. *)
Fixpoint substituted_item (replacements : gmap str str) (it : Item) : Item :=
  match it with
  | IPara p => IPara (replace_placeholders_in_paragraph p replacements)
  | ITable cells grid =>
      ITable (map (map (substituted_item replacements)) cells) grid
  end.

(** Induction on the document tree. *)
Definition Item_deep_ind (P : Item → Prop)
    (Hpara : ∀ p, P (IPara p))
    (Htable : ∀ cells grid, Forall (Forall P) cells → P (ITable cells grid))
    : ∀ it, P it :=
  fix IH (it : Item) : P it :=
    match it with
    | IPara p => Hpara p
    | ITable cells grid =>
        Htable cells grid
          ((fix on_cells (cells : list (list Item))
              : Forall (Forall P) cells :=
              match cells return Forall (Forall P) cells with
              | [] => @List.Forall_nil _ _
              | cell :: cells' =>
                  @List.Forall_cons _ _ cell cells'
                    ((fix on_cell (cell : list Item) : Forall P cell :=
                        match cell return Forall P cell with
                        | [] => @List.Forall_nil _ _
                        | x :: cell' =>
                            @List.Forall_cons _ _ x cell' (IH x) (on_cell cell')
                        end) cell)
                    (on_cells cells')
              end) cells)
    end.

(** A sample block: a paragraph, a table of one cell, a paragraph. *)
Definition sample_block : Block :=
  [IPara (sample_paragraph ["Plain "; "text"]);
   ITable [[IPara (sample_paragraph ["cell } text"])]] [[0]];
   IPara (sample_paragraph [" "])].

(** A map that empties the token [{{note}}] and gives [{{hsn}}] a value
    with a form feed. *)
Definition refused_replacements : gmap str str :=
  <[lit "{{note}}" := []]> form_feed_replacements.

(** A table of one row whose only cell spans two grid columns; its text
    holds a token the sample map does not know. *)
Definition merged_block : Block :=
  [ITable [[IPara (sample_paragraph ["Total {{sub_total}} {{x}}"])]] [[0; 0]]].

(** The name under which [generate_invoice] keeps the PDF of invoice
    [GB-<month_year>-<suffix>]: [secure_filename] of
    [G BUILDCON Invoice - GB-<month_year>-<suffix>.pdf], which for a month
    and a suffix made of ASCII digits turns the blanks into underscores and
    changes nothing else. *)
Definition stored_name (month_year suffix : str) : str :=
  lit "G_BUILDCON_Invoice_-_" ++ token_head month_year ++ suffix ++ lit ".pdf".

(** ** The list of invoices *)

(** [a <= b] on strings: lexicographic on the code points, as [str]
    compares. *)
Fixpoint str_leb (a b : str) : bool :=
  match a, b with
  | [], _ => true
  | _ :: _, [] => false
  | x :: a', y :: b' =>
      (nat_of_ascii x <? nat_of_ascii y) ||
      ((nat_of_ascii x =? nat_of_ascii y) && str_leb a' b')
  end.

(** The order of [sorted(..., reverse=True)]: a name comes before the names
    that are not above it.  The paths of one directory compare as their
    names do. *)
Definition name_ge (a b : str) : Prop := str_leb b a = true.

#[global] Instance name_ge_dec a b : Decision (name_ge a b).
Proof. unfold name_ge. apply _. Defined.

(** [s.replace(old, new)] for single characters. *)
Definition replace_char (old new : ascii) (s : str) : str :=
  map (λ c, if bool_decide (c = old) then new else c) s.

(** [r"(GB-\d{4}-\d+)"] *)
Definition INVOICE_NO_RE : regex :=
  [One (Ch "G"); One (Ch "B"); One (Ch "-"); One Digit; One Digit; One Digit;
   One Digit; One (Ch "-"); Plus Digit]%char.

Record invoice_entry := InvoiceEntry {
  e_filename : str;
  e_display_name : str;
  e_invoice_no : str;
  e_url : str
}.

(** The body of the loop of [list_existing_invoices]; [url_for] is Flask's,
    [None] when it raises [RuntimeError]. *)
Definition invoice_entry_of (url_for : str → option str) (safe_name : str)
    : invoice_entry :=
  let display_name := replace_char "_" " " safe_name in
  let invoice_no :=
    match search INVOICE_NO_RE safe_name with
    | Some m => group0 m
    | None => []
    end in
  let url := default (lit "/download/" ++ safe_name) (url_for safe_name) in
  InvoiceEntry safe_name display_name invoice_no url.

(** [output_dir] is the listing of [OUTPUT_DIR]. *)
Definition list_existing_invoices (url_for : str → option str)
    (output_dir : list str) : list invoice_entry :=
  map (invoice_entry_of url_for)
    (merge_sort name_ge (List.filter is_pdf output_dir)).

(** An invoice number: [GB-], four digits, [-], one or more digits. *)
Definition is_invoice_no (t : str) : Prop :=
  ∃ my ds, t = token_head my ++ ds ∧
    length my = 4 ∧ Forall (λ c, isdigit_char c = true) my ∧
    ds ≠ [] ∧ Forall (λ c, isdigit_char c = true) ds.

(** ** The download handler *)

(** [c.lower()] on the code points below 256: the letters [A]..[Z] and the
    capital letters of Latin-1 (192..222 but the multiplication sign). *)
Definition lower_char (c : ascii) : ascii :=
  let n := nat_of_ascii c in
  if ((65 <=? n) && (n <=? 90)) ||
     ((192 <=? n) && (n <=? 222) && negb (n =? 215))
  then ascii_of_nat (n + 32) else c.
Definition lower (s : str) : str := map lower_char s.

(** What [download_file] does to the file system. *)
Inductive fs_event :=
| FsResolve (path : str)
| FsExists (path : str)
| FsSend (path download_name : str).

Definition is_send (e : fs_event) : bool :=
  match e with FsSend _ _ => true | _ => false end.

Section Download.

(** [resolves_inside p] is whether [Path(p).resolve()] lies under the
    resolved [OUTPUT_DIR], [None] when resolving raises; [path_exists] is
    [os.path.exists]. *)
Variable resolves_inside : str → option bool.
Variable path_exists : str → bool.

(** [download_file], after [login_required]; [abort(n)] ends the request
    with status [n] and an empty body here.  Paths are joined as on a POSIX
    system. *)
Definition download_file (filename : str) : list fs_event * result :=
  if contains (lit "/") filename || contains (lit "\") filename
     || contains (lit "..") filename
  then ([], Returned 400 [])
  else
    let full_path := lit "output/" ++ filename in
    match resolves_inside full_path with
    | Some true =>
        if negb (path_exists full_path)
        then ([FsResolve full_path; FsExists full_path], Returned 404 [])
        else if negb (endswith (lit ".pdf") (lower filename))
        then ([FsResolve full_path; FsExists full_path], Returned 400 [])
        else ([FsResolve full_path; FsExists full_path;
               FsSend full_path (replace_char "_" " " filename)],
              Returned 200 full_path)
    | Some false | None => ([FsResolve full_path], Returned 400 [])
    end.

End Download.

(** ** Amounts in words *)

(** [s.split(".")] *)
Fixpoint split_dot (s : str) : list str :=
  match s with
  | [] => [[]]
  | c :: s' =>
      if bool_decide (c = "."%char) then [] :: split_dot s'
      else match split_dot s' with
           | p :: ps => (c :: p) :: ps
           | [] => [[c]]
           end
  end.

(** [int(s)] on an optional minus sign followed by decimal digits; [None]
    stands for the [ValueError] raised on any other text the program could
    pass. *)
Definition py_int_signed (s : str) : option Z :=
  match s with
  | "-"%char :: t => (λ n, - Z.of_N n)%Z <$> py_int t
  | _ => Z.of_N <$> py_int s
  end.

Section Words.

(** [num2words] is [num2words(n, lang='en_IN')], [None] when it raises (it
    raises [OverflowError] on a number beyond those it has words for), and
    [title] is [str.title]. *)
Variable num2words : Z → option str.
Variable title : str → str.

(** [num2words(n, lang='en_IN').replace(",", "").title()] *)
Definition in_words (n : Z) : option str :=
  (λ w, title (List.filter (λ c, negb (bool_decide (c = ","%char))) w))
    <$> num2words n.

(** [number_to_words_indian], from [float(amount)] on; [None] stands for an
    exception: the [ValueError] of an unpacking or of [int], or what
    [num2words] raises. *)
Definition number_to_words_indian (amount : float) : option str :=
  let amount_str := format_2f amount in
  match split_dot amount_str with
  | [rupees_str; paise_str] =>
      rupees ← py_int_signed rupees_str;
      paise ← py_int_signed paise_str;
      rupees_words ← in_words rupees;
      if (0 <? paise)%Z
      then paise_words ← in_words paise;
           Some (rupees_words ++ lit " Rupees And " ++ paise_words ++
                 lit " Paise Only")
      else Some (rupees_words ++ lit " Rupees Only")
  | _ => None
  end.

End Words.

(** Words for the numbers below ten thousand million, which is where
    [num2words] stops for [en_IN]; the words themselves are left out. *)
Definition sample_num2words (n : Z) : option str :=
  if (Z.abs n <? 10 ^ 10)%Z then Some (lit "n") else None.

(** * Properties *)

(** ** Strings *)

Lemma startswith_spec k s : startswith k s = true ↔ k `prefix_of` s.
Proof.
  revert s. induction k as [|a k IH]; intros [|b s]; simpl.
  - split; [intros _; apply prefix_nil | done].
  - split; [intros _; apply prefix_nil | done].
  - split; [done | intros [x Hx]; discriminate].
  - rewrite andb_true_iff, bool_decide_eq_true, IH. split.
    + intros [-> [x ->]]. by exists x.
    + intros [x Hx]. injection Hx as -> ->. split; [done | by exists x].
Qed.

Lemma contains_spec k s : contains k s = true ↔ substring k s.
Proof.
  induction s as [|c s IH]; simpl.
  - rewrite orb_false_r, startswith_spec. split.
    + intros [x ->]. by exists [], x.
    + intros (pre & post & H). symmetry in H.
      apply app_eq_nil in H as [-> H]. apply app_eq_nil in H as [-> ->].
      apply prefix_nil.
  - rewrite orb_true_iff, startswith_spec, IH. split.
    + intros [[x ->] | (pre & post & ->)].
      * by exists [], x.
      * by exists (c :: pre), post.
    + intros ([|c' pre] & post & H).
      * left. exists post. done.
      * right. injection H as -> ->. by exists pre, post.
Qed.

(** ** The matcher on [PLACEHOLDER_RE] *)

Lemma span_not_app c s : s = (span_not c s).1 ++ (span_not c s).2.
Proof.
  induction s as [|x s IH]; simpl; [done|].
  case_bool_decide; simpl; [done|].
  destruct (span_not c s) as [b r]. simpl in *. by f_equal.
Qed.

Lemma span_not_free c s : c ∉ (span_not c s).1.
Proof.
  induction s as [|x s IH]; simpl; [apply not_elem_of_nil|].
  case_bool_decide; simpl; [apply not_elem_of_nil|].
  destruct (span_not c s) as [b r]. simpl in *.
  rewrite not_elem_of_cons. split; congruence.
Qed.

Lemma span_not_rest c s :
  (span_not c s).2 = [] ∨ ∃ r, (span_not c s).2 = c :: r.
Proof.
  induction s as [|x s IH]; simpl; [by left|].
  case_bool_decide; simpl; [right; subst; eauto|].
  destruct (span_not c s) as [b r]. done.
Qed.

Lemma span_not_unique c body rest :
  c ∉ body → span_not c (body ++ c :: rest) = (body, c :: rest).
Proof.
  induction body as [|x body IH]; simpl; intros Hc.
  - by rewrite bool_decide_eq_true_2.
  - apply not_elem_of_cons in Hc as [Hx Hc].
    rewrite bool_decide_eq_false_2 by congruence. by rewrite IH.
Qed.

(** With a continuation that rejects every text starting with a character
    of the class, backtracking never helps: [a+] takes the longest run. *)
Lemma match_plus_notch c k s :
  (∀ x s', x ≠ c → k (x :: s') = None) →
  match_plus (NotCh c) k s =
    match (span_not c s).1 with
    | [] => None
    | body => cons body <$> k (span_not c s).2
    end.
Proof.
  intros Hk. induction s as [|x s IH]; simpl; [done|].
  case_bool_decide as Hx; simpl; [done|].
  rewrite IH. destruct (span_not c s) as [b r] eqn:Hsp. simpl.
  destruct b as [|y b].
  - destruct s as [|z s]; simpl in Hsp.
    + by injection Hsp as <-.
    + case_bool_decide; [by injection Hsp as <-|].
      destruct (span_not c s); discriminate.
  - destruct (k r) as [gs|] eqn:Hr; simpl; [done|].
    destruct s as [|z s]; simpl in Hsp; [discriminate|].
    case_bool_decide as Hz; [discriminate|].
    by rewrite Hk.
Qed.

Lemma match_placeholder s :
  match_here PLACEHOLDER_RE s =
    match s with
    | "{"%char :: "{"%char :: s' =>
        match span_not "}" s' with
        | ((_ :: _) as body, "}"%char :: "}"%char :: _) =>
            Some [["{"%char]; ["{"%char]; body; ["}"%char]; ["}"%char]]
        | _ => None
        end
    | _ => None
    end.
Proof.
  unfold PLACEHOLDER_RE. simpl.
  destruct s as [|a s]; [done|]. simpl.
  case_bool_decide as Ha; [subst a|]; simpl.
  2:{ destruct a as [[] [] [] [] [] [] [] []]; try done.
      all: destruct s as [|b s]; try done. }
  destruct s as [|b s]; [done|].
  case_bool_decide as Hb; [subst b|]; simpl.
  2:{ destruct b as [[] [] [] [] [] [] [] []]; try done. }
  rewrite match_plus_notch.
  2:{ intros x s' Hx. simpl. by rewrite bool_decide_eq_false_2. }
  destruct (span_not "}" s) as [[|y body] r]; simpl; [done|].
  destruct r as [|r1 r]; [done|].
  case_bool_decide as H1; [subst r1|]; simpl.
  2:{ destruct r1 as [[] [] [] [] [] [] [] []]; try done. }
  destruct r as [|r2 r]; [done|].
  case_bool_decide as H2; [subst r2|]; simpl; [done|].
  destruct r2 as [[] [] [] [] [] [] [] []]; try done.
Qed.

Lemma match_placeholder_complete body rest :
  body ≠ [] → "}"%char ∉ body →
  match_here PLACEHOLDER_RE (lit "{{" ++ body ++ lit "}}" ++ rest) =
    Some [["{"%char]; ["{"%char]; body; ["}"%char]; ["}"%char]].
Proof.
  intros Hne Hfree. rewrite match_placeholder. cbn [lit list_ascii_of_string app].
  rewrite span_not_unique by done. by destruct body.
Qed.

Lemma match_placeholder_Some s gs :
  match_here PLACEHOLDER_RE s = Some gs →
  is_placeholder (concat gs) ∧ ∃ rest, s = concat gs ++ rest.
Proof.
  rewrite match_placeholder.
  destruct s as [|a s]; [done|].
  destruct a as [[] [] [] [] [] [] [] []]; try done.
  destruct s as [|b s]; [done|].
  destruct b as [[] [] [] [] [] [] [] []]; try done.
  pose proof (span_not_app "}" s) as Happ.
  pose proof (span_not_free "}" s) as Hfree.
  destruct (span_not "}" s) as [[|y body] r]; [done|].
  destruct r as [|r1 r]; [done|].
  destruct r1 as [[] [] [] [] [] [] [] []]; try done.
  destruct r as [|r2 r]; [done|].
  destruct r2 as [[] [] [] [] [] [] [] []]; try done.
  intros [= <-]. simpl in *. split.
  - exists (y :: body). split_and!; [|done|done].
    reflexivity.
  - exists r. rewrite Happ. simpl. by rewrite <- app_assoc.
Qed.

Lemma is_placeholder_prefix t s :
  is_placeholder t → t `prefix_of` s →
  ∃ gs, match_here PLACEHOLDER_RE s = Some gs ∧ concat gs = t.
Proof.
  intros (body & -> & Hne & Hfree) [rest ->].
  eexists. split.
  - rewrite <- !app_assoc. by apply match_placeholder_complete.
  - reflexivity.
Qed.

Lemma match_placeholder_None s :
  match_here PLACEHOLDER_RE s = None → ¬ occurs_at 0 s.
Proof.
  intros Hnone (t & Ht & Hpre). rewrite drop_0 in Hpre.
  destruct (is_placeholder_prefix t s Ht Hpre) as (gs & Hgs & _). congruence.
Qed.

Lemma is_placeholder_length t : is_placeholder t → 5 ≤ length t.
Proof.
  intros (body & -> & Hne & _). destruct body; [done|].
  cbn. rewrite length_app. cbn. lia.
Qed.

(** At a given position there is at most one placeholder. *)
Lemma is_placeholder_unique t t' s :
  is_placeholder t → is_placeholder t' →
  t `prefix_of` s → t' `prefix_of` s → t = t'.
Proof.
  intros Ht Ht' Hp Hp'.
  destruct (is_placeholder_prefix t s Ht Hp) as (gs & Hgs & <-).
  destruct (is_placeholder_prefix t' s Ht' Hp') as (gs' & Hgs' & <-).
  congruence.
Qed.

Lemma finditer_placeholder_unfold fuel pos s :
  finditer_from (S fuel) PLACEHOLDER_RE pos s =
    match match_here PLACEHOLDER_RE s with
    | Some gs =>
        Match pos (pos + length (concat gs)) gs ::
          finditer_from fuel PLACEHOLDER_RE (pos + length (concat gs))
            (drop (length (concat gs)) s)
    | None =>
        match s with
        | [] => []
        | _ :: s' => finditer_from fuel PLACEHOLDER_RE (S pos) s'
        end
    end.
Proof.
  cbn [finditer_from].
  destruct (match_here PLACEHOLDER_RE s) as [gs|] eqn:Hm; [|done].
  apply match_placeholder_Some in Hm as [Hp _].
  apply is_placeholder_length in Hp.
  destruct (length (concat gs)); [lia | done].
Qed.

(** ** The scan loop computes the specified pieces *)

Lemma literal_piece_segments replacements pbold l (segs : list (str * bool)) :
  (if 0 <? length l then segs ++ [(l, pbold)] else segs) =
  segs ++ map (piece_segment replacements pbold) (literal_piece l).
Proof.
  destruct l; simpl; [by rewrite app_nil_r|].
  unfold piece_segment, piece_bold. simpl. by rewrite orb_false_r.
Qed.

Lemma scan_loop replacements pbold fuel :
  ∀ full pos pre l s st,
    length s < fuel →
    full = pre ++ l ++ s →
    pos = length pre + length l →
    idx st = length pre →
    (∀ i, i < length l → ¬ occurs_at i (l ++ s)) →
    ∃ ps, Scan (l ++ s) ps ∧
      let st' := scan_finish full pbold
                   (fold_left (scan_step full replacements pbold)
                      (finditer_from fuel PLACEHOLDER_RE pos s) st) in
      segments st' =
        segments st ++ map (piece_segment replacements pbold) ps ∧
      found st' = found st || existsb is_token ps.
Proof.
  induction fuel as [|fuel IH]; intros full pos pre l s st Hfuel Hfull Hpos Hidx Hleft;
    [lia|].
  rewrite finditer_placeholder_unfold.
  destruct (match_here PLACEHOLDER_RE s) as [gs|] eqn:Hm.
  - (* a placeholder starts here *)
    destruct (match_placeholder_Some _ _ Hm) as [Ht [rest Hs]].
    set (t := concat gs) in *.
    pose proof (is_placeholder_length _ Ht) as Hlen.
    assert (Hdrop : drop (length t) s = rest).
    { rewrite Hs. by rewrite drop_app_length. }
    rewrite Hdrop. cbn [fold_left].
    destruct (IH full (pos + length t) (pre ++ l ++ t) [] rest
                (scan_step full replacements pbold st (Match pos (pos + length t) gs)))
      as (ps & Hscan & Hsegs & Hfound).
    + rewrite Hs, length_app in Hfuel. lia.
    + rewrite Hfull, Hs. by rewrite <- !app_assoc.
    + rewrite !length_app. simpl. lia.
    + simpl. rewrite !length_app. lia.
    + simpl. lia.
    + exists (literal_piece l ++ Token t :: ps). split.
      * rewrite Hs. by apply Scan_tok; [| rewrite <- Hs |].
      * simpl in Hscan. cbn zeta in *. rewrite Hsegs, Hfound. split.
        -- unfold scan_step at 1. cbn [segments m_start idx].
           unfold placeholder_group1, group0. cbn [m_items]. fold t.
           rewrite Hidx, Hpos.
           replace (slice (length pre) (length pre + length l) full) with l.
           2:{ unfold slice. rewrite Hfull, drop_app_length.
               replace (length pre + length l - length pre) with (length l) by lia.
               by rewrite take_app_length. }
           replace (length pre <? length pre + length l) with (0 <? length l).
           2:{ destruct l; simpl; [symmetry; apply Nat.ltb_ge; lia
                                  | symmetry; apply Nat.ltb_lt; lia]. }
           rewrite (literal_piece_segments replacements pbold).
           rewrite map_app. simpl. rewrite <- !app_assoc. simpl.
           do 3 f_equal.
        -- unfold scan_step at 1. cbn [found]. rewrite existsb_app. simpl.
           by rewrite !orb_true_r.
  - (* no placeholder starts here *)
    destruct s as [|c s].
    + cbn [fold_left]. exists (literal_piece l). split.
      * rewrite app_nil_r. apply Scan_end. intros i Hi.
        destruct (decide (i < length l)) as [Hlt|Hge].
        -- specialize (Hleft i Hlt). by rewrite app_nil_r in Hleft.
        -- destruct Hi as (t & Ht & Hpre). rewrite drop_ge in Hpre by lia.
           apply is_placeholder_length in Ht. apply prefix_nil_inv in Hpre.
           subst t. simpl in Ht. lia.
      * unfold scan_finish. rewrite Hidx, Hfull, app_nil_r, length_app.
        unfold slice_from. rewrite drop_app_length.
        replace (length pre <? length pre + length l) with (0 <? length l).
        2:{ destruct l; simpl; [symmetry; apply Nat.ltb_ge; lia
                               | symmetry; apply Nat.ltb_lt; lia]. }
        destruct l; simpl.
        -- by rewrite app_nil_r, orb_false_r.
        -- unfold piece_segment, piece_bold. simpl. by rewrite !orb_false_r.
    + destruct (IH full (S pos) pre (l ++ [c]) s st) as (ps & Hscan & Hres).
      * simpl in Hfuel. lia.
      * rewrite Hfull. by rewrite <- !app_assoc.
      * rewrite length_app. simpl. lia.
      * done.
      * intros i Hi. rewrite <- app_assoc. simpl.
        rewrite length_app in Hi. simpl in Hi.
        destruct (decide (i < length l)) as [Hlt|Hge]; [by apply Hleft|].
        assert (i = length l) as -> by lia.
        intros (t & Ht & Hpre). rewrite drop_app_length in Hpre.
        apply (match_placeholder_None _ Hm). exists t. by rewrite drop_0.
      * exists ps. rewrite <- app_assoc in Hscan. simpl in Hscan. done.
Qed.

Lemma scan_segments_spec full replacements pbold :
  ∃ ps, Scan full ps ∧
    segments (scan_segments full replacements pbold) =
      map (piece_segment replacements pbold) ps ∧
    found (scan_segments full replacements pbold) = existsb is_token ps.
Proof.
  destruct (scan_loop replacements pbold (S (length full)) full 0 [] [] full
              {| segments := []; idx := 0; found := false |})
    as (ps & Hscan & Hsegs & Hfound); simpl; try done; try lia.
  exists ps. done.
Qed.

(** ** The specified scan is a function of the text *)

Lemma occurs_at_app_token l t rest :
  is_placeholder t → occurs_at (length l) (l ++ t ++ rest).
Proof.
  intros Ht. exists t. split; [done|].
  rewrite drop_app_length. by exists rest.
Qed.

Lemma Scan_unique s ps ps' : Scan s ps → Scan s ps' → ps = ps'.
Proof.
  intros H. revert ps'.
  induction H as [s Hnone | l t rest ps Ht Hleft Hscan IH]; intros ps' H'.
  - inversion H' as [s' Hnone' | l' t' rest' ps0 Ht' Hleft' Hscan' Heq]; subst.
    + done.
    + exfalso. eapply Hnone. by apply occurs_at_app_token.
  - inversion H' as [s' Hnone' | l' t' rest' ps0 Ht' Hleft' Hscan' Heq]; subst.
    + exfalso. eapply Hnone'. by apply occurs_at_app_token.
    + assert (Hlen : length l = length l').
      { destruct (Nat.lt_trichotomy (length l) (length l')) as [Hlt | [Heq' | Hgt]].
        - exfalso. apply (Hleft' _ Hlt). rewrite Heq.
          by apply occurs_at_app_token.
        - done.
        - exfalso. apply (Hleft _ Hgt). rewrite <- Heq.
          by apply occurs_at_app_token. }
      apply app_inj_1 in Heq as [-> Heq]; [|done].
      assert (t' = t) as ->.
      { apply (is_placeholder_unique t' t (t ++ rest)); try done.
        - rewrite <- Heq. by exists rest'.
        - by exists rest. }
      apply app_inv_head in Heq as ->.
      by rewrite (IH _ Hscan').
Qed.

Lemma literal_piece_source l : concat (map piece_source (literal_piece l)) = l.
Proof. destruct l; simpl; [done | by rewrite app_nil_r]. Qed.

(** The pieces, put back together, are the text: nothing is lost. *)
Lemma Scan_source s ps : Scan s ps → concat (map piece_source ps) = s.
Proof.
  induction 1 as [s Hnone | l t rest ps Ht Hleft Hscan IH].
  - apply literal_piece_source.
  - rewrite map_app, concat_app, literal_piece_source. simpl. by rewrite IH.
Qed.

Lemma Scan_token_occurs s ps :
  Scan s ps → existsb is_token ps = true ↔ ∃ i, occurs_at i s.
Proof.
  intros H. split.
  - destruct H as [s Hnone | l t rest ps Ht Hleft Hscan].
    + by destruct s.
    + intros _. exists (length l). by apply occurs_at_app_token.
  - intros [i Hi]. destruct H as [s Hnone | l t rest ps Ht Hleft Hscan].
    + by destruct (Hnone i).
    + rewrite existsb_app. simpl. by rewrite orb_true_r.
Qed.

Lemma occurs_at_braces i s : occurs_at i s → substring (lit "{{") s.
Proof.
  intros (t & (body & -> & _) & [rest Hrest]).
  exists (take i s), (body ++ lit "}}" ++ rest).
  rewrite <- (take_drop i s) at 1. rewrite Hrest.
  by rewrite <- !app_assoc.
Qed.

(** ** What python-docx stores of a text *)

Lemma docx_text_app s t : docx_text (s ++ t) = docx_text s ++ docx_text t.
Proof. apply map_app. Qed.


Lemma docx_text_plain bfr : Forall plain_char bfr → docx_text bfr = bfr.
Proof.
  induction 1 as [|c bfr (_ & Hc & _) _ IH]; simpl; [done|].
  rewrite IH. by rewrite bool_decide_eq_false_2.
Qed.

Lemma docx_text_idemp s : docx_text (docx_text s) = docx_text s.
Proof.
  unfold docx_text. rewrite map_map. apply map_ext. intros c.
  unfold CR, LF. repeat case_bool_decide; congruence.
Qed.

Lemma docx_text_id s : CR ∉ s → docx_text s = s.
Proof.
  induction s as [|c s IH]; simpl; [done|].
  intros [Hc Hs]%not_elem_of_cons. rewrite IH by done.
  by rewrite bool_decide_eq_false_2 by congruence.
Qed.

Lemma xml_compatible_app s t :
  xml_compatible (s ++ t) = xml_compatible s && xml_compatible t.
Proof. apply forallb_app. Qed.

Lemma xml_compatible_concat ss :
  xml_compatible (concat ss) = forallb xml_compatible ss.
Proof.
  induction ss as [|s ss IH]; simpl; [done|].
  by rewrite xml_compatible_app, IH.
Qed.

Lemma xml_compatible_docx_text s :
  xml_compatible (docx_text s) = xml_compatible s.
Proof.
  induction s as [|c s IH]; simpl; [done|]. rewrite IH. f_equal.
  case_bool_decide as Hc; [by subst c | done].
Qed.

Lemma isspace_docx_text s :
  Forall (λ c, isspace c = true) (docx_text s) ↔
  Forall (λ c, isspace c = true) s.
Proof.
  induction s as [|c s IH]; simpl; [done|].
  rewrite !Forall_cons, IH.
  case_bool_decide as Hc; [by subst c | done].
Qed.

(** A text that XML can carry is stored whole, and reads back with its
    carriage returns as line feeds. *)
Lemma append_to_run_compatible text :
  ∀ content bfr,
    Forall plain_char bfr → xml_compatible bfr = true →
    xml_compatible text = true →
    append_to_run content bfr text =
      (content ++ bfr ++ docx_text text, Returns).
Proof.
  induction text as [|c text IH]; intros content bfr Hplain Hbfr Htext.
  - simpl. by rewrite Hbfr, app_nil_r.
  - simpl in Htext. apply andb_true_iff in Htext as [Hc Htext].
    cbn [append_to_run docx_text map].
    case_bool_decide as Htab.
    + rewrite Hbfr, IH by done. subst c.
      rewrite bool_decide_eq_false_2 by done.
      by rewrite <- !app_assoc.
    + case_bool_decide as Hcr; cbn [orb].
      * rewrite Hbfr, IH by done. by rewrite <- !app_assoc.
      * case_bool_decide as Hlf.
        -- rewrite Hbfr, IH by done. subst c. by rewrite <- !app_assoc.
        -- rewrite IH.
           ++ by rewrite <- !app_assoc.
           ++ apply Forall_app. split; [done|]. by constructor.
           ++ rewrite xml_compatible_app, Hbfr. simpl. by rewrite Hc.
           ++ done.
Qed.

(** A text with a character XML cannot carry makes the assignment raise. *)
Lemma append_to_run_refused text :
  ∀ content bfr,
    xml_compatible (bfr ++ text) = false →
    (append_to_run content bfr text).2 = Raises.
Proof.
  induction text as [|c text IH]; intros content bfr Hbad.
  - rewrite app_nil_r in Hbad. simpl. by rewrite Hbad.
  - cbn [append_to_run].
    rewrite xml_compatible_app in Hbad.
    destruct (xml_compatible bfr) eqn:Hbfr.
    + simpl in Hbad. apply andb_false_iff in Hbad as [Hc | Htext].
      * repeat case_bool_decide; subst; try done.
        cbn [orb]. apply IH.
        rewrite !xml_compatible_app. simpl. rewrite Hc.
        by rewrite andb_false_r.
      * repeat case_bool_decide; cbn [orb]; try (by apply IH).
        apply IH. rewrite !xml_compatible_app. simpl. rewrite Htext.
        by rewrite !andb_false_r.
    + repeat case_bool_decide; cbn [orb]; try done.
      apply IH. rewrite !xml_compatible_app, Hbfr. done.
Qed.

Lemma append_to_run_spec text :
  if xml_compatible text
  then append_to_run [] [] text = (docx_text text, Returns)
  else (append_to_run [] [] text).2 = Raises.
Proof.
  destruct (xml_compatible text) eqn:Hc.
  - by rewrite append_to_run_compatible.
  - by apply append_to_run_refused.
Qed.

(** ** The runs emitted for the segments *)

Lemma runs_app c rs sty :
  runs {| p_content := c ++ map IRun rs; p_style := sty |} =
  omap run_of c ++ rs.
Proof.
  unfold runs. simpl. rewrite omap_app. f_equal.
  induction rs as [|r rs IH]; simpl; [done|]. by f_equal.
Qed.

Lemma runs_clear_runs p : runs (clear_runs p) = map clear_run (runs p).
Proof.
  unfold runs, clear_runs. simpl.
  induction (p_content p) as [|[r|t] c IH]; simpl; [done| |done].
  by f_equal.
Qed.

Lemma emit_segment_raised segs p :
  fold_left emit_segment segs (p, Raises) = (p, Raises).
Proof. induction segs as [|seg segs IH]; simpl; [done|]. apply IH. Qed.

Lemma emit_segments_built segs :
  ∀ p, fold_left emit_segment segs (p, Returns) =
       ({| p_content := p_content p ++ map IRun (built_runs segs).1;
           p_style := p_style p |},
        (built_runs segs).2).
Proof.
  induction segs as [|[text b] segs IH]; intros p.
  - simpl. rewrite app_nil_r. by destruct p.
  - cbn [fold_left built_runs]. unfold emit_segment at 2. cbn [snd fst].
    destruct text as [|c text]; cbn [truthy negb].
    + apply IH.
    + unfold add_run, set_text. cbn [truthy].
      destruct (append_to_run [] [] (c :: text)) as [t [|]]; cbn [fst snd].
      * destruct b; rewrite IH; destruct (built_runs segs) as [rs o];
          cbn [fst snd map].
        -- unfold update_last_run, set_bold. cbn [p_content p_style].
           rewrite removelast_last. cbn [r_text r_fmt new_run].
           by rewrite <- app_assoc.
        -- cbn [p_content p_style new_run r_bold r_fmt].
           by rewrite <- app_assoc.
      * by rewrite emit_segment_raised.
Qed.

Lemma built_runs_compatible segs :
  forallb (λ seg, xml_compatible seg.1) segs = true →
  built_runs segs = (omap run_of_segment segs, Returns).
Proof.
  induction segs as [|[text b] segs IH]; [done|].
  cbn [forallb fst]. intros [Ht Hsegs]%andb_true_iff.
  cbn [built_runs omap]. unfold run_of_segment at 1. cbn [fst snd].
  destruct text as [|c text]; cbn [truthy negb]; [by apply IH|].
  pose proof (append_to_run_spec (c :: text)) as Hspec.
  rewrite Ht in Hspec. rewrite Hspec, IH by done. done.
Qed.

Lemma built_runs_refused segs :
  forallb (λ seg, xml_compatible seg.1) segs = false →
  (built_runs segs).2 = Raises.
Proof.
  induction segs as [|[text b] segs IH]; [done|].
  cbn [forallb fst]. intros Hbad. cbn [built_runs].
  destruct text as [|c text]; cbn [truthy negb]; [by apply IH|].
  pose proof (append_to_run_spec (c :: text)) as Hspec.
  destruct (xml_compatible (c :: text)) eqn:Hc.
  - rewrite Hspec. simpl in Hbad.
    destruct (built_runs segs) as [rs o] eqn:Hb. cbn [snd].
    by apply IH.
  - destruct (append_to_run [] [] (c :: text)) as [t o]. cbn [snd] in Hspec.
    by subst o.
Qed.




(** ** What [replace_placeholders_in_paragraph] does to a paragraph *)

Lemma replace_placeholders_spec p replacements :
  ∃ ps, Scan (full_text_of p) ps ∧
    replace_placeholders_in_paragraph_call p replacements =
      if existsb is_token ps then
        ({| p_content :=
              p_content (clear_runs p) ++
              map IRun
                (built_runs (piece_segments replacements (full_text_of p) ps)).1;
            p_style := p_style p |},
         (built_runs (piece_segments replacements (full_text_of p) ps)).2)
      else (p, Returns).
Proof.
  destruct (scan_segments_spec (full_text_of p) replacements
              (paragraph_should_be_bold (full_text_of p)))
    as (ps & Hscan & Hsegs & Hfound).
  exists ps. split; [done|].
  unfold replace_placeholders_in_paragraph_call. cbn zeta.
  destruct (contains (lit "{{") (full_text_of p)) eqn:Hc; simpl.
  - rewrite Hfound. destruct (existsb is_token ps); simpl; [|done].
    by rewrite emit_segments_built, Hsegs.
  - destruct (existsb is_token ps) eqn:Htok; [|done].
    apply (Scan_token_occurs _ _ Hscan) in Htok as [i Hi].
    apply occurs_at_braces, contains_spec in Hi. congruence.
Qed.

Lemma piece_segments_compatible replacements full ps :
  forallb (λ seg, xml_compatible seg.1) (piece_segments replacements full ps) =
  xml_compatible (substitute replacements ps).
Proof.
  unfold piece_segments, substitute. rewrite xml_compatible_concat.
  induction ps as [|pc ps IH]; simpl; [done|]. by rewrite IH.
Qed.

Lemma runs_of_visible_pieces replacements pbold ps :
  omap run_of_segment (map (piece_segment replacements pbold) ps) =
  map (run_of_piece replacements pbold) (visible_pieces replacements ps).
Proof.
  induction ps as [|pc ps IH]; simpl; [done|].
  unfold run_of_segment at 1. unfold piece_segment at 1. simpl.
  destruct (piece_text replacements pc) eqn:Ht; simpl; [exact IH|].
  f_equal; [|exact IH]. unfold run_of_piece. by rewrite Ht.
Qed.

Lemma cleared_runs_text rs : concat (map r_text (map clear_run rs)) = [].
Proof. induction rs; simpl; done. Qed.

Lemma visible_pieces_text replacements pbold ps :
  concat (map r_text (map (run_of_piece replacements pbold)
                        (visible_pieces replacements ps))) =
  docx_text (substitute replacements ps).
Proof.
  unfold substitute. induction ps as [|pc ps IH]; simpl; [done|].
  rewrite docx_text_app.
  destruct (piece_text replacements pc) eqn:Ht; simpl; [done|].
  rewrite IH, Ht. done.
Qed.

Lemma substitute_no_token replacements ps :
  existsb is_token ps = false →
  substitute replacements ps = concat (map piece_source ps).
Proof.
  unfold substitute. induction ps as [|[l|t] ps IH]; simpl; [done| |done].
  intros H. by rewrite IH.
Qed.

Lemma paragraph_should_be_bold_spec s :
  paragraph_should_be_bold s = true ↔
  ∃ k, k ∈ BOLD_PARAGRAPH_KEYS ∧ substring k s.
Proof.
  unfold paragraph_should_be_bold. rewrite existsb_exists.
  split; intros (k & Hk & Hs); exists k.
  - by rewrite list_elem_of_In, <- contains_spec.
  - by rewrite <- list_elem_of_In, contains_spec.
Qed.

(** The call, from the pieces of the text, when python-docx accepts every
    text it is given. *)
Lemma replace_placeholders_returns p replacements ps :
  Scan (full_text_of p) ps → existsb is_token ps = true →
  xml_compatible (substitute replacements ps) = true →
  replace_placeholders_in_paragraph_call p replacements =
    ({| p_content :=
          p_content (clear_runs p) ++
          map IRun
            (map (run_of_piece replacements
                    (paragraph_should_be_bold (full_text_of p)))
               (visible_pieces replacements ps));
        p_style := p_style p |}, Returns).
Proof.
  intros Hscan Htok Hxml.
  destruct (replace_placeholders_spec p replacements) as (ps' & Hscan' & ->).
  rewrite (Scan_unique _ _ _ Hscan' Hscan), Htok.
  rewrite built_runs_compatible by (by rewrite piece_segments_compatible).
  cbn [fst snd]. unfold piece_segments. by rewrite runs_of_visible_pieces.
Qed.

(** The call raises exactly when a placeholder is found and the substituted
    text holds a character XML cannot carry. *)
Lemma replace_placeholders_outcome p replacements ps :
  Scan (full_text_of p) ps →
  replace_placeholders_in_paragraph_outcome p replacements =
    if existsb is_token ps && negb (xml_compatible (substitute replacements ps))
    then Raises else Returns.
Proof.
  intros Hscan. unfold replace_placeholders_in_paragraph_outcome.
  destruct (replace_placeholders_spec p replacements) as (ps' & Hscan' & ->).
  rewrite (Scan_unique _ _ _ Hscan' Hscan).
  destruct (existsb is_token ps); [|done]. cbn [snd andb].
  destruct (xml_compatible (substitute replacements ps)) eqn:Hxml; cbn [negb].
  - by rewrite built_runs_compatible by (by rewrite piece_segments_compatible).
  - apply built_runs_refused. by rewrite piece_segments_compatible.
Qed.

(** The runs after the call: the runs before it, without their text, and
    the runs built. *)
Lemma replace_placeholders_runs p replacements ps :
  Scan (full_text_of p) ps → existsb is_token ps = true →
  runs (replace_placeholders_in_paragraph p replacements) =
    map clear_run (runs p) ++
    (built_runs (piece_segments replacements (full_text_of p) ps)).1.
Proof.
  intros Hscan Htok. unfold replace_placeholders_in_paragraph.
  destruct (replace_placeholders_spec p replacements) as (ps' & Hscan' & ->).
  rewrite (Scan_unique _ _ _ Hscan' Hscan), Htok. cbn [fst].
  rewrite runs_app. f_equal. apply runs_clear_runs.
Qed.

Lemma replace_not_found p replacements :
  (∀ i, ¬ occurs_at i (full_text_of p)) →
  replace_placeholders_in_paragraph_call p replacements = (p, Returns).
Proof.
  intros Hnone.
  destruct (replace_placeholders_spec p replacements) as (ps & Hscan & ->).
  destruct (existsb is_token ps) eqn:Htok; [|done].
  apply (Scan_token_occurs _ _ Hscan) in Htok as [i Hi]. by destruct (Hnone i).
Qed.

(** ** The matches of the scan are the tokens of the specified pieces *)

Lemma token_spans_app pos ps1 ps2 :
  token_spans pos (ps1 ++ ps2) =
  token_spans pos ps1 ++
  token_spans (pos + length (concat (map piece_source ps1))) ps2.
Proof.
  revert pos. induction ps1 as [|[l|t] ps1 IH]; intros pos; simpl.
  - by rewrite Nat.add_0_r.
  - rewrite IH, length_app. by rewrite Nat.add_assoc.
  - rewrite IH, length_app. by rewrite Nat.add_assoc.
Qed.

Lemma finditer_loop fuel :
  ∀ base pos l s,
    length s < fuel →
    pos = base + length l →
    (∀ i, i < length l → ¬ occurs_at i (l ++ s)) →
    ∃ ps, Scan (l ++ s) ps ∧
      map match_span (finditer_from fuel PLACEHOLDER_RE pos s) =
      token_spans base ps.
Proof.
  induction fuel as [|fuel IH]; intros base pos l s Hfuel Hpos Hleft; [lia|].
  rewrite finditer_placeholder_unfold.
  destruct (match_here PLACEHOLDER_RE s) as [gs|] eqn:Hm.
  - destruct (match_placeholder_Some _ _ Hm) as [Ht [rest Hs]].
    set (t := concat gs) in *.
    assert (Hdrop : drop (length t) s = rest).
    { rewrite Hs. by rewrite drop_app_length. }
    rewrite Hdrop.
    destruct (IH (pos + length t) (pos + length t) [] rest)
      as (ps & Hscan & Hspans).
    + rewrite Hs, length_app in Hfuel.
      apply is_placeholder_length in Ht. lia.
    + simpl. lia.
    + simpl. lia.
    + exists (literal_piece l ++ Token t :: ps). split.
      * rewrite Hs. by apply Scan_tok; [| rewrite <- Hs |].
      * rewrite token_spans_app, literal_piece_source. simpl.
        rewrite Hspans, <- Hpos.
        by destruct l.
  - destruct s as [|c s].
    + exists (literal_piece l). split.
      * rewrite app_nil_r. apply Scan_end. intros i Hi.
        destruct (decide (i < length l)) as [Hlt|Hge].
        -- specialize (Hleft i Hlt). by rewrite app_nil_r in Hleft.
        -- destruct Hi as (t & Ht & Hpre). rewrite drop_ge in Hpre by lia.
           apply is_placeholder_length in Ht. apply prefix_nil_inv in Hpre.
           subst t. simpl in Ht. lia.
      * by destruct l.
    + destruct (IH base (S pos) (l ++ [c]) s) as (ps & Hscan & Hres).
      * simpl in Hfuel. lia.
      * rewrite length_app. simpl. lia.
      * intros i Hi. rewrite <- app_assoc. simpl.
        rewrite length_app in Hi. simpl in Hi.
        destruct (decide (i < length l)) as [Hlt|Hge]; [by apply Hleft|].
        assert (i = length l) as -> by lia.
        intros (t & Ht & Hpre). rewrite drop_app_length in Hpre.
        apply (match_placeholder_None _ Hm). exists t. by rewrite drop_0.
      * exists ps. rewrite <- app_assoc in Hscan. simpl in Hscan. done.
Qed.

(** ** Deciding occurrences on concrete texts *)


Lemma token_spans_nil pos ps : token_spans pos ps = [] → existsb is_token ps = false.
Proof.
  revert pos. induction ps as [|[l|t] ps IH]; intros pos; simpl; [done| |done].
  apply IH.
Qed.

Lemma no_occurrence_check s :
  finditer PLACEHOLDER_RE s = [] → ∀ i, ¬ occurs_at i s.
Proof.
  intros Hnil i Hi.
  destruct (finditer_loop (S (length s)) 0 0 [] s) as (ps & Hscan & Hspans);
    simpl; try done; try lia.
  fold (finditer PLACEHOLDER_RE s) in Hspans. rewrite Hnil in Hspans.
  symmetry in Hspans. apply token_spans_nil in Hspans.
  assert (existsb is_token ps = true); [|congruence].
  apply (Scan_token_occurs _ _ Hscan). by exists i.
Qed.


Lemma emitted_app p c rs sty :
  omap run_of c = map clear_run (runs p) →
  emitted p {| p_content := c ++ map IRun rs; p_style := sty |} = rs.
Proof.
  intros H. unfold emitted. rewrite runs_app, H.
  rewrite <- (length_map clear_run). by rewrite drop_app_length.
Qed.

(** The runs the call added. *)
Lemma emitted_built p replacements ps :
  Scan (full_text_of p) ps → existsb is_token ps = true →
  emitted p (replace_placeholders_in_paragraph p replacements) =
    (built_runs (piece_segments replacements (full_text_of p) ps)).1.
Proof.
  intros Hscan Htok. unfold emitted.
  rewrite (replace_placeholders_runs p replacements ps) by done.
  rewrite <- (length_map clear_run). by rewrite drop_app_length.
Qed.

Lemma full_text_after p replacements ps :
  Scan (full_text_of p) ps → existsb is_token ps = true →
  full_text_of (replace_placeholders_in_paragraph p replacements) =
    concat (map r_text
              (built_runs (piece_segments replacements (full_text_of p) ps)).1).
Proof.
  intros Hscan Htok. unfold full_text_of at 1.
  rewrite (replace_placeholders_runs p replacements ps) by done.
  by rewrite map_app, concat_app, cleared_runs_text.
Qed.

(** The text after a call that found a placeholder and returned, from the
    pieces of the text before it. *)
Lemma replaced_text_of_scan p replacements ps :
  Scan (full_text_of p) ps → existsb is_token ps = true →
  xml_compatible (substitute replacements ps) = true →
  full_text_of (replace_placeholders_in_paragraph p replacements) =
    docx_text (substitute replacements ps).
Proof.
  intros Hscan Htok Hxml.
  rewrite (full_text_after p replacements ps) by done.
  rewrite built_runs_compatible by (by rewrite piece_segments_compatible).
  cbn [fst]. unfold piece_segments.
  rewrite runs_of_visible_pieces. apply visible_pieces_text.
Qed.

(** The texts of the pieces, read off the segments of the loop. *)
Lemma substitute_segments s replacements pbold ps :
  Scan s ps →
  substitute replacements ps =
    concat (map fst (segments (scan_segments s replacements pbold))) ∧
  existsb is_token ps = found (scan_segments s replacements pbold).
Proof.
  intros Hscan.
  destruct (scan_segments_spec s replacements pbold)
    as (ps' & Hscan' & -> & ->).
  rewrite (Scan_unique _ _ _ Hscan Hscan'). split; [|done].
  unfold substitute. by rewrite map_map.
Qed.

(** ** Substitution: the text of the paragraph *)

(** C1, as stated, fails: a payment type of two lines, as a form sends it
    from a text area, reads back with its carriage return as a second line
    feed. *)
Lemma text_replaced_verbatim_counterexample :
  ¬ text_replaced_verbatim (sample_paragraph ["Paid by {{payment_type}}"])
      two_line_replacements.
Proof.
  intros (ps & Hscan & Heq).
  destruct (substitute_segments _ two_line_replacements false ps Hscan)
    as [Hsub _].
  rewrite Hsub in Heq. vm_compute in Heq. discriminate Heq.
Qed.

(** C1, amended: the text of the paragraph is cut into its literal
    stretches and its placeholder matches.  When there is no match the call
    returns and leaves the paragraph as it was.  When there is one and XML
    can carry every character of the substituted text (the text in which
    every match that is a key of the map is replaced by its value, the
    other matches and the literal text being as they were), the call returns
    and the concatenated run texts are the substituted text as python-docx
    reads it back, each carriage return as a line feed.  When XML cannot
    carry some character of it, the call raises. *)
Theorem replace_placeholders_text (p : Paragraph) (replacements : gmap str str) :
  ∃ ps, Scan (full_text_of p) ps ∧
    concat (map piece_source ps) = full_text_of p ∧
    match existsb is_token ps,
          xml_compatible (substitute replacements ps) with
    | false, _ =>
        replace_placeholders_in_paragraph_call p replacements = (p, Returns) ∧
        substitute replacements ps = full_text_of p
    | true, true =>
        replace_placeholders_in_paragraph_outcome p replacements = Returns ∧
        full_text_of (replace_placeholders_in_paragraph p replacements) =
          docx_text (substitute replacements ps)
    | true, false =>
        replace_placeholders_in_paragraph_outcome p replacements = Raises
    end.
Proof.
  destruct (replace_placeholders_spec p replacements) as (ps & Hscan & Hcall).
  exists ps. split_and!; [done | by apply Scan_source |].
  pose proof (replace_placeholders_outcome p replacements ps Hscan) as Hout.
  destruct (existsb is_token ps) eqn:Htok.
  - destruct (xml_compatible (substitute replacements ps)) eqn:Hxml;
      [|done].
    split; [done|]. by apply replaced_text_of_scan.
  - split; [done|]. rewrite substitute_no_token by done.
    by apply Scan_source.
Qed.

Example replace_placeholders_text_sample :
  full_text_of
    (replace_placeholders_in_paragraph
       (sample_paragraph ["Date: {{da"; "te}} / {{hsn}}{{x}} {{base_amo}}."])
       sample_replacements) =
  lit "Date: 01/02/2025 / {{x}} 864.41.".
Proof. vm_compute. reflexivity. Qed.

Example replace_placeholders_two_lines_sample :
  replace_placeholders_in_paragraph_outcome
    (sample_paragraph ["Paid by {{payment_type}}"]) two_line_replacements =
    Returns ∧
  full_text_of
    (replace_placeholders_in_paragraph
       (sample_paragraph ["Paid by {{payment_type}}"]) two_line_replacements) =
  lit "Paid by Cash" ++ [LF; LF] ++ lit "NEFT".
Proof. vm_compute. done. Qed.

Example replace_placeholders_form_feed_sample :
  replace_placeholders_in_paragraph_call
    (sample_paragraph ["HSN "; "{{hsn}} / {{date}}"]) form_feed_replacements =
  ({| p_content := [IRun (mkRun [] (Some false) (lit "Calibri"));
                    IRun (mkRun [] (Some false) (lit "Calibri"));
                    IRun (mkRun (lit "HSN ") None []);
                    IRun (mkRun [] None [])];
      p_style := lit "Normal" |}, Raises).
Proof. vm_compute. reflexivity. Qed.

(** ** Bold policy *)

Lemma piece_bold_spec s pc :
  piece_bold (paragraph_should_be_bold s) pc = true ↔
  (∃ k, k ∈ BOLD_PARAGRAPH_KEYS ∧ substring k s) ∨
  (∃ t, pc = Token t ∧ t ∈ BOLD_KEYS).
Proof.
  rewrite <- paragraph_should_be_bold_spec. unfold piece_bold.
  destruct (paragraph_should_be_bold s); simpl.
  - split; [by left | done].
  - destruct pc as [l|t]; simpl.
    + split; [done|]. intros [? | (t & ? & _)]; done.
    + case_bool_decide as Hin.
      * split; [|done]. intros _. right. by exists t.
      * split; [done|]. intros [? | (t' & [= <-] & ?)]; done.
Qed.

(** The runs a call that returned has added, from the pieces of the text. *)
Lemma emitted_returned p replacements ps :
  Scan (full_text_of p) ps →
  replace_placeholders_in_paragraph_outcome p replacements = Returns →
  emitted p (replace_placeholders_in_paragraph p replacements) =
    map (run_of_piece replacements (paragraph_should_be_bold (full_text_of p)))
      (if existsb is_token ps then visible_pieces replacements ps else []).
Proof.
  intros Hscan Hret.
  rewrite (replace_placeholders_outcome p replacements ps Hscan) in Hret.
  destruct (existsb is_token ps) eqn:Htok.
  - destruct (xml_compatible (substitute replacements ps)) eqn:Hxml; [|done].
    rewrite (emitted_built p replacements ps) by done.
    rewrite built_runs_compatible by (by rewrite piece_segments_compatible).
    cbn [fst]. apply runs_of_visible_pieces.
  - destruct (replace_placeholders_spec p replacements) as (ps' & Hscan' & Heq).
    rewrite (Scan_unique _ _ _ Hscan' Hscan), Htok in Heq.
    unfold replace_placeholders_in_paragraph. rewrite Heq. cbn [fst].
    unfold emitted. by rewrite drop_all.
Qed.

(** C2, as stated, fails: in a paragraph whose style is bold, the runs
    emitted for the literal text and for a token outside the segment-bold
    set are bold, though no paragraph-bold token occurs: they carry no bold
    flag of their own and follow the style. *)
Lemma bold_where_claimed_counterexample :
  ¬ bold_where_claimed heading_bold sample_heading sample_replacements.
Proof.
  intros (ps & Hscan & Hall).
  assert (Hret : replace_placeholders_in_paragraph_outcome sample_heading
                   sample_replacements = Returns) by (vm_compute; reflexivity).
  rewrite (emitted_returned _ _ ps Hscan Hret) in Hall.
  destruct (substitute_segments _ sample_replacements false ps Hscan)
    as [_ Htok].
  assert (Hfound : found (scan_segments (full_text_of sample_heading)
                            sample_replacements false) = true)
    by (vm_compute; reflexivity).
  rewrite Htok, Hfound in Hall.
  destruct (scan_segments_spec (full_text_of sample_heading)
              sample_replacements
              (paragraph_should_be_bold (full_text_of sample_heading)))
    as (ps' & Hscan' & Hsegs & _).
  rewrite (Scan_unique _ _ _ Hscan' Hscan) in Hsegs.
  assert (Hlit : segments (scan_segments (full_text_of sample_heading)
                   sample_replacements
                   (paragraph_should_be_bold (full_text_of sample_heading))) =
                 [(lit "Invoice of ", false); (lit "01/02/2025", false)])
    by (vm_compute; reflexivity).
  rewrite Hlit in Hsegs.
  destruct ps as [|pc ps]; [discriminate Hsegs|].
  cbn [map] in Hsegs. unfold piece_segment at 1 in Hsegs.
  injection Hsegs as Htext Hbold _.
  unfold visible_pieces in Hall. cbn [List.filter] in Hall.
  rewrite <- Htext in Hall. cbn [truthy lit list_ascii_of_string map] in Hall.
  apply Forall2_cons_1 in Hall as [[Hyes _] _].
  rewrite <- piece_bold_spec in Hyes.
  replace (paragraph_should_be_bold (full_text_of sample_heading))
    with false in Hyes by (vm_compute; reflexivity).
  unfold renders_bold, run_of_piece, piece_bold in Hyes.
  cbn [r_bold orb] in Hyes. rewrite <- Hbold in Hyes.
  discriminate Hyes. vm_compute. reflexivity.
Qed.

(** C2, amended: when the call returns, every emitted run stands for one
    piece of the text with a non-empty replacement text, and its bold flag
    is set (to true) exactly when a paragraph-bold token occurs as a
    substring of the paragraph's text or the piece is a token of the
    segment-bold set; the flag of every other emitted run is left
    unassigned, so that such a run is bold exactly when the style of the
    paragraph makes it so.  With a paragraph-bold token present every
    emitted run is bold, literal text included. *)
Theorem replace_placeholders_bold (p : Paragraph) (replacements : gmap str str) :
  ∃ ps, Scan (full_text_of p) ps ∧
    (replace_placeholders_in_paragraph_outcome p replacements = Returns →
     Forall2
       (λ pc r,
          r_text r = docx_text (piece_text replacements pc) ∧
          (r_bold r = Some true ↔
             (∃ k, k ∈ BOLD_PARAGRAPH_KEYS ∧ substring k (full_text_of p)) ∨
             (∃ t, pc = Token t ∧ t ∈ BOLD_KEYS)) ∧
          (r_bold r = Some true ∨ r_bold r = None) ∧
          ∀ bold_styles,
            renders_bold bold_styles p r =
              piece_bold (paragraph_should_be_bold (full_text_of p)) pc
              || bold_styles (p_style p))
       (if existsb is_token ps then visible_pieces replacements ps else [])
       (emitted p (replace_placeholders_in_paragraph p replacements))).
Proof.
  destruct (replace_placeholders_spec p replacements) as (ps & Hscan & _).
  exists ps. split; [done|]. intros Hret.
  rewrite (emitted_returned p replacements ps Hscan Hret).
  rewrite Forall2_fmap_r. apply Forall_Forall2_diag, Forall_forall.
  intros pc _. unfold compose, renders_bold, run_of_piece.
  cbn [r_text r_bold]. rewrite <- piece_bold_spec.
  destruct (piece_bold (paragraph_should_be_bold (full_text_of p)) pc);
    split_and!; try done; auto.
Qed.

Example paragraph_bold_sample :
  map (λ r, (r_text r, r_bold r))
    (emitted (sample_paragraph ["Total: {{sub_total}} INR"])
       (replace_placeholders_in_paragraph
          (sample_paragraph ["Total: {{sub_total}} INR"]) sample_replacements)) =
  [(lit "Total: ", Some true); (lit "1020.00", Some true); (lit " INR", Some true)].
Proof. vm_compute. reflexivity. Qed.

Example segment_bold_sample :
  map (λ r, (r_text r, r_bold r))
    (emitted (sample_paragraph ["Base {{base_amo}} on {{date}}"])
       (replace_placeholders_in_paragraph
          (sample_paragraph ["Base {{base_amo}} on {{date}}"]) sample_replacements)) =
  [(lit "Base ", None); (lit "864.41", Some true); (lit " on ", None);
   (lit "01/02/2025", None)].
Proof. vm_compute. reflexivity. Qed.

Example heading_bold_sample :
  map (λ r, (r_text r, r_bold r, renders_bold heading_bold sample_heading r))
    (emitted sample_heading
       (replace_placeholders_in_paragraph sample_heading sample_replacements)) =
  [(lit "Invoice of ", None, true); (lit "01/02/2025", None, true)].
Proof. vm_compute. reflexivity. Qed.

(** ** The scan *)

(** C3: the matches of [PLACEHOLDER_RE.finditer] are, with their spans, the
    tokens of the one decomposition of the text into literal stretches and
    placeholders in which each placeholder is the leftmost one starting at
    or after the end of the previous one; the segments of the loop carry the
    literal stretches verbatim, and the pieces put together are the text. *)
Theorem placeholder_scan (s : str) (replacements : gmap str str) (pbold : bool) :
  ∃ ps, Scan s ps ∧
    (∀ ps', Scan s ps' → ps' = ps) ∧
    map match_span (finditer PLACEHOLDER_RE s) = token_spans 0 ps ∧
    map fst (segments (scan_segments s replacements pbold)) =
      map (piece_text replacements) ps ∧
    concat (map piece_source ps) = s.
Proof.
  destruct (scan_segments_spec s replacements pbold) as (ps & Hscan & Hsegs & _).
  exists ps. split_and!.
  - done.
  - intros ps' H'. by apply (Scan_unique s).
  - destruct (finditer_loop (S (length s)) 0 0 [] s) as (ps' & Hscan' & Hspans);
      simpl; try done; try lia.
    simpl in Hscan'. by rewrite (Scan_unique _ _ _ Hscan Hscan').
  - rewrite Hsegs, map_map. done.
  - by apply Scan_source.
Qed.

Example placeholder_scan_sample :
  map match_span
    (finditer PLACEHOLDER_RE (lit "ab{{date}} x {{{a}}}} {{a}b}} {{}} {{q")) =
  [(2, 10, lit "{{date}}"); (13, 19, lit "{{{a}}")].
Proof. vm_compute. reflexivity. Qed.

(** ** Rebuilding the runs *)





Example replace_placeholders_rebuild_sample :
  replace_placeholders_in_paragraph_call
    (sample_paragraph ["Date: {{date}}"]) sample_replacements =
  ({| p_content := [IRun (mkRun [] (Some false) (lit "Calibri"));
                    IRun (mkRun (lit "Date: ") None []);
                    IRun (mkRun (lit "01/02/2025") None [])];
      p_style := lit "Normal" |}, Returns).
Proof. vm_compute. reflexivity. Qed.

(** ** No match, no mutation *)

(** C5: when the paragraph's text contains no open double-brace, and also
    when it contains one but no complete placeholder, the call returns the
    paragraph as it was: same runs, same texts, same formatting. *)
Theorem replace_placeholders_noop (p : Paragraph) (replacements : gmap str str) :
  ¬ substring (lit "{{") (full_text_of p) ∨
  (∀ i, ¬ occurs_at i (full_text_of p)) →
  replace_placeholders_in_paragraph p replacements = p.
Proof.
  unfold replace_placeholders_in_paragraph.
  intros [Hno | Hno]; rewrite replace_not_found; try done.
  intros i Hi. apply Hno. by apply (occurs_at_braces i).
Qed.

Lemma replace_placeholders_noop_witness :
  replace_placeholders_in_paragraph
    (sample_paragraph ["Plain "; "text } only"]) sample_replacements =
  sample_paragraph ["Plain "; "text } only"] ∧
  replace_placeholders_in_paragraph
    (sample_paragraph ["Open {{da"; "te} never closed {{}}"]) sample_replacements =
  sample_paragraph ["Open {{da"; "te} never closed {{}}"].
Proof.
  split.
  - apply (replace_placeholders_noop
             (sample_paragraph ["Plain "; "text } only"]) sample_replacements).
    left. rewrite <- contains_spec. vm_compute. discriminate.
  - apply (replace_placeholders_noop
             (sample_paragraph ["Open {{da"; "te} never closed {{}}"])
             sample_replacements).
    right. apply no_occurrence_check. vm_compute. reflexivity.
Defined.

(** ** Empty replacements *)



Example empty_replacement_sample :
  runs (replace_placeholders_in_paragraph
          (sample_paragraph ["HSN {{h"; "sn}}"]) sample_replacements) =
  [mkRun [] (Some false) (lit "Calibri"); mkRun [] (Some false) (lit "Calibri");
   mkRun (lit "HSN ") None []].
Proof. vm_compute. reflexivity. Qed.

(** ** Trailing empty paragraphs *)

Lemma lstrip_nil s : lstrip s = [] ↔ Forall (λ c, isspace c = true) s.
Proof.
  induction s as [|c s IH]; simpl; [done|].
  destruct (isspace c) eqn:Hc.
  - rewrite IH. split; [by constructor | by inversion 1].
  - split; [done | inversion 1; congruence].
Qed.

Lemma lstrip_spaces s :
  Forall (λ c, isspace c = true) (lstrip s) ↔ Forall (λ c, isspace c = true) s.
Proof.
  induction s as [|c s IH]; simpl; [done|].
  destruct (isspace c) eqn:Hc; [|done].
  rewrite IH. split; [by constructor | by inversion 1].
Qed.

Lemma Forall_rev_iff {A} (P : A → Prop) l : Forall P (rev l) ↔ Forall P l.
Proof.
  split; intros H; [|by apply Forall_rev].
  rewrite <- (rev_involutive l). by apply Forall_rev.
Qed.

Lemma truthy_rev (s : str) : truthy (rev s) = false ↔ s = [].
Proof.
  destruct s as [|c s]; simpl; [done|].
  split; [|done]. by destruct (rev s).
Qed.

Lemma has_visible_text_spec s :
  has_visible_text s = false ↔ Forall (λ c, isspace c = true) s.
Proof.
  unfold has_visible_text, strip.
  rewrite <- (lstrip_spaces s), <- Forall_rev_iff, <- lstrip_nil, <- truthy_rev.
  destruct s as [|c s]; [done|]. simpl (truthy (c :: s)). by rewrite andb_true_l.
Qed.

Lemma blank_Forall p :
  blank p ↔ Forall (λ c, isspace c = true) (paragraph_text p).
Proof. unfold blank. by rewrite Forall_forall. Qed.

(** The text of a run is part of the text of its paragraph. *)
Lemma run_text_in_paragraph p r c :
  r ∈ runs p → c ∈ r_text r → c ∈ paragraph_text p.
Proof.
  unfold runs, paragraph_text.
  induction (p_content p) as [|i content IH]; simpl; [by intros ?%elem_of_nil|].
  intros Hr Hc. apply elem_of_app.
  destruct i as [r'|t]; simpl in Hr.
  - apply elem_of_cons in Hr as [-> | Hr]; [by left | right; by apply IH].
  - right. by apply IH.
Qed.

(** [is_paragraph_empty] decides blankness: the loop over the runs finds
    nothing that the test of [paragraph.text] has not found. *)
Lemma is_paragraph_empty_spec p : is_paragraph_empty p = true ↔ blank p.
Proof.
  rewrite blank_Forall. unfold is_paragraph_empty. split.
  - destruct (has_visible_text (paragraph_text p)) eqn:Hv; [done|].
    intros _. by apply has_visible_text_spec.
  - intros Hall.
    assert (Hfull : has_visible_text (paragraph_text p) = false)
      by (by apply has_visible_text_spec).
    rewrite Hfull, negb_true_iff.
    destruct (existsb _ (runs p)) eqn:Hex; [|done].
    apply existsb_exists in Hex as (r & Hr & Hv).
    assert (has_visible_text (r_text r) = false); [|congruence].
    apply has_visible_text_spec, Forall_forall. intros c Hc.
    rewrite Forall_forall in Hall. apply Hall.
    apply (run_text_in_paragraph p r); [by apply list_elem_of_In | done].
Qed.

Lemma paragraphs_no_para block :
  existsb is_para block = false → paragraphs block = [].
Proof.
  induction block as [|[p|t] block IH]; simpl; [done|done|]. apply IH.
Qed.

Lemma paragraphs_has_para block :
  existsb is_para block = true → paragraphs block ≠ [].
Proof.
  induction block as [|[p|t] block IH]; simpl; [done|done|]. apply IH.
Qed.

Lemma remove_last_paragraph_paragraphs block :
  paragraphs (remove_last_paragraph block) = removelast (paragraphs block).
Proof.
  induction block as [|[p|t] block IH]; simpl; [done| |done].
  destruct (existsb is_para block) eqn:Hex; simpl.
  - change (omap _ (remove_last_paragraph block))
      with (paragraphs (remove_last_paragraph block)).
    rewrite IH. apply paragraphs_has_para in Hex.
    change (omap _ block) with (paragraphs block).
    by destruct (paragraphs block).
  - apply paragraphs_no_para in Hex.
    change (omap _ block) with (paragraphs block). by rewrite Hex.
Qed.

Lemma remove_last_paragraph_tables block :
  tables (remove_last_paragraph block) = tables block.
Proof.
  induction block as [|[p|t] block IH]; simpl; [done| |].
  - destruct (existsb is_para block); simpl; [apply IH | done].
  - f_equal. apply IH.
Qed.

Lemma remove_last_paragraph_sublist block :
  remove_last_paragraph block `sublist_of` block.
Proof.
  induction block as [|it block IH]; simpl; [done|].
  destruct (is_para it && negb (existsb is_para block)).
  - by apply sublist_cons.
  - by apply sublist_skip.
Qed.

Lemma last_removelast {A} (l : list A) x :
  last l = Some x → l = removelast l ++ [x].
Proof.
  intros H. destruct (last_Some l x) as [[l' ->] _]; [done|].
  by rewrite removelast_last.
Qed.

Lemma trim_loop_spec fuel :
  ∀ block, length (paragraphs block) < fuel →
    ∃ block' removed,
      trim_loop fuel block = Some block' ∧
      tables block' = tables block ∧
      paragraphs block = paragraphs block' ++ removed ∧
      Forall blank removed ∧
      (∀ p, last (paragraphs block') = Some p → ¬ blank p) ∧
      block' `sublist_of` block.
Proof.
  induction fuel as [|fuel IH]; intros block Hfuel; [lia|]. simpl.
  destruct (last (paragraphs block)) as [p|] eqn:Hlast.
  - destruct (is_paragraph_empty p) eqn:Hempty.
    + pose proof (last_removelast _ _ Hlast) as Hsplit.
      destruct (IH (remove_last_paragraph block))
        as (block' & removed & Hrun & Htab & Hpar & Hblank & Hstop & Hsub).
      { rewrite remove_last_paragraph_paragraphs.
        rewrite Hsplit, length_app in Hfuel. simpl in Hfuel. lia. }
      exists block', (removed ++ [p]). split_and!; try done.
      * by rewrite Htab, remove_last_paragraph_tables.
      * rewrite Hsplit, <- remove_last_paragraph_paragraphs, Hpar.
        by rewrite <- app_assoc.
      * apply Forall_app. split; [done|]. constructor; [|done].
        by apply is_paragraph_empty_spec.
      * etrans; [done|]. apply remove_last_paragraph_sublist.
    + exists block, []. split_and!; try done.
      * by rewrite app_nil_r.
      * intros p' Hp'. rewrite Hlast in Hp'. injection Hp' as <-.
        rewrite <- is_paragraph_empty_spec. congruence.
  - exists block, []. split_and!; try done.
    + by rewrite app_nil_r.
    + intros p' Hp'. congruence.
Qed.



Example remove_trailing_sample :
  remove_trailing_empty_paragraphs_from_block
    [IPara (sample_paragraph ["Total"]); IPara (sample_paragraph [" "; ""]);
     ITable [[IPara (sample_paragraph [])]] [[0]]; IPara (sample_paragraph [])] =
  Some [IPara (sample_paragraph ["Total"]);
        ITable [[IPara (sample_paragraph [])]] [[0]]].
Proof. vm_compute. reflexivity. Qed.

Example remove_trailing_all_empty_sample :
  remove_trailing_empty_paragraphs_from_block
    [IPara (sample_paragraph [" "]); IPara (sample_paragraph [])] = Some [].
Proof. vm_compute. reflexivity. Qed.

Example remove_trailing_link_sample :
  remove_trailing_empty_paragraphs_from_block link_block = Some link_block.
Proof. vm_compute. reflexivity. Qed.

(** ** Decimal formatting *)

Local Open Scope N_scope.

Lemma digit_char_value d : d < 10 → digit_value (digit_char d) = d.
Proof.
  intros H.
  assert (d = 0 ∨ d = 1 ∨ d = 2 ∨ d = 3 ∨ d = 4 ∨ d = 5 ∨ d = 6 ∨ d = 7 ∨
          d = 8 ∨ d = 9) as Hd by lia.
  repeat (destruct Hd as [-> | Hd]; [reflexivity|]). by subst.
Qed.

Lemma digit_char_isdigit d : d < 10 → isdigit_char (digit_char d) = true.
Proof.
  intros H.
  assert (d = 0 ∨ d = 1 ∨ d = 2 ∨ d = 3 ∨ d = 4 ∨ d = 5 ∨ d = 6 ∨ d = 7 ∨
          d = 8 ∨ d = 9) as Hd by lia.
  repeat (destruct Hd as [-> | Hd]; [reflexivity|]). by subst.
Qed.

Lemma digit_char_nonzero d : 0 < d < 10 → digit_char d ≠ "0"%char.
Proof.
  intros H.
  assert (d = 1 ∨ d = 2 ∨ d = 3 ∨ d = 4 ∨ d = 5 ∨ d = 6 ∨ d = 7 ∨
          d = 8 ∨ d = 9) as Hd by lia.
  repeat (destruct Hd as [-> | Hd]; [discriminate|]). by subst.
Qed.

Lemma fold_digits s a :
  fold_left (λ acc c, 10 * acc + digit_value c) s a =
  a * 10 ^ N.of_nat (length s) + digits_value s.
Proof.
  unfold digits_value. revert a.
  induction s as [|c s IH]; intros a.
  - simpl. lia.
  - cbn [fold_left]. rewrite IH, (IH (10 * 0 + digit_value c)).
    replace (N.of_nat (length (c :: s))) with (N.succ (N.of_nat (length s)))
      by (simpl; lia).
    rewrite N.pow_succ_r'. lia.
Qed.

Lemma digits_value_cons c s :
  digits_value (c :: s) = digit_value c * 10 ^ N.of_nat (length s) + digits_value s.
Proof. unfold digits_value at 1. cbn [fold_left]. rewrite fold_digits. lia. Qed.

Lemma decimal_fuel_value fuel :
  ∀ n acc, n < 2 ^ N.of_nat fuel →
    Forall (λ c, isdigit_char c = true) acc →
    Forall (λ c, isdigit_char c = true) (decimal_fuel fuel n acc) ∧
    digits_value (decimal_fuel fuel n acc) =
      n * 10 ^ N.of_nat (length acc) + digits_value acc.
Proof.
  induction fuel as [|fuel IH]; intros n acc Hn Hacc.
  - change (2 ^ N.of_nat 0) with 1 in Hn. assert (n = 0) as -> by lia.
    split; [done | simpl; lia].
  - cbn [decimal_fuel].
    assert (Hmod : n mod 10 < 10) by (apply N.mod_lt; lia).
    assert (Hacc' : Forall (λ c, isdigit_char c = true)
                      (digit_char (n mod 10) :: acc)).
    { constructor; [by apply digit_char_isdigit | done]. }
    pose proof (N.div_mod n 10 ltac:(lia)) as Hdm.
    destruct (N.eqb_spec (n / 10) 0) as [Hz | Hnz].
    + split; [done|]. rewrite digits_value_cons, digit_char_value by done.
      rewrite Hz in Hdm. nia.
    + destruct (IH (n / 10) (digit_char (n mod 10) :: acc)) as [Hd Hv];
        [|done|].
      { replace (N.of_nat (S fuel)) with (N.succ (N.of_nat fuel)) in Hn by lia.
        rewrite N.pow_succ_r' in Hn.
        apply N.Div0.div_lt_upper_bound. lia. }
      split; [done|]. rewrite Hv, digits_value_cons, digit_char_value by done.
      replace (N.of_nat (length (digit_char (n mod 10) :: acc)))
        with (N.succ (N.of_nat (length acc))) by (simpl; lia).
      rewrite N.pow_succ_r'. nia.
Qed.

Lemma size_bound n : n < 2 ^ N.of_nat (S (N.to_nat (N.size n))).
Proof.
  replace (N.of_nat (S (N.to_nat (N.size n)))) with (N.succ (N.size n)) by lia.
  rewrite N.pow_succ_r'. pose proof (N.size_gt n). lia.
Qed.

Lemma decimal_digits n :
  Forall (λ c, isdigit_char c = true) (decimal n) ∧ digits_value (decimal n) = n.
Proof.
  destruct (decimal_fuel_value _ n [] (size_bound n)) as [Hd Hv]; [done|].
  split; [done|]. unfold decimal. rewrite Hv.
  change (digits_value []) with 0. change (N.of_nat (length (@nil ascii))) with 0.
  rewrite N.pow_0_r. lia.
Qed.

Lemma decimal_fuel_length fuel n acc :
  (length acc + (if fuel is O then 0 else 1) ≤ length (decimal_fuel fuel n acc))%nat.
Proof.
  revert n acc. induction fuel as [|fuel IH]; intros n acc; simpl; [lia|].
  destruct (n / 10 =? 0); simpl; [lia|].
  specialize (IH (n / 10) (digit_char (n mod 10) :: acc)). simpl in IH.
  destruct fuel; lia.
Qed.

Lemma decimal_fuel_step fuel n acc :
  10 ≤ n → n < 2 ^ N.of_nat fuel →
  ∃ fuel', fuel = S fuel' ∧ n / 10 < 2 ^ N.of_nat fuel' ∧
    decimal_fuel fuel n acc =
      decimal_fuel fuel' (n / 10) (digit_char (n mod 10) :: acc).
Proof.
  intros Hn Hfuel. destruct fuel as [|fuel]; [change (2 ^ N.of_nat 0) with 1 in Hfuel; lia|].
  exists fuel. split; [done|].
  replace (N.of_nat (S fuel)) with (N.succ (N.of_nat fuel)) in Hfuel by lia.
  rewrite N.pow_succ_r' in Hfuel.
  split; [apply N.Div0.div_lt_upper_bound; lia|].
  cbn [decimal_fuel]. destruct (N.eqb_spec (n / 10) 0) as [Hz|]; [|done].
  pose proof (N.div_mod n 10 ltac:(lia)) as Hdm.
  pose proof (N.mod_lt n 10 ltac:(lia)). rewrite Hz in Hdm. lia.
Qed.

Lemma decimal_fuel_small fuel n acc :
  n < 10 → decimal_fuel (S fuel) n acc = digit_char n :: acc.
Proof.
  intros Hn. cbn [decimal_fuel].
  rewrite N.div_small, N.mod_small by done. done.
Qed.

Lemma decimal_small n : n < 10 → decimal n = [digit_char n].
Proof. apply decimal_fuel_small. Qed.

Lemma decimal_two n :
  10 ≤ n < 100 → decimal n = [digit_char (n / 10); digit_char (n mod 10)].
Proof.
  intros [Hlo Hhi]. unfold decimal.
  destruct (decimal_fuel_step _ n [] Hlo (size_bound n))
    as (fuel & Hfuel & Hlt & ->).
  assert (Hq : n / 10 < 10) by (apply N.Div0.div_lt_upper_bound; lia).
  destruct fuel as [|fuel].
  - change (2 ^ N.of_nat 0) with 1 in Hlt. assert (n / 10 = 0) as Hz by by apply N.lt_1_r.
    pose proof (N.div_mod n 10 ltac:(lia)) as Hdm.
    pose proof (N.mod_lt n 10 ltac:(lia)). rewrite Hz in Hdm. lia.
  - by rewrite decimal_fuel_small.
Qed.

Lemma decimal_long n : 100 ≤ n → (3 ≤ length (decimal n))%nat.
Proof.
  intros Hn. unfold decimal.
  destruct (decimal_fuel_step _ n [] ltac:(lia) (size_bound n))
    as (fuel & _ & Hlt & ->).
  assert (Hq : 10 ≤ n / 10) by (apply N.div_le_lower_bound; lia).
  destruct (decimal_fuel_step _ (n / 10) [digit_char (n mod 10)] Hq Hlt)
    as (fuel' & _ & Hlt' & ->).
  assert (Hq' : 1 ≤ n / 10 / 10) by (apply N.div_le_lower_bound; lia).
  pose proof (decimal_fuel_length fuel' (n / 10 / 10)
                [digit_char (n / 10 mod 10); digit_char (n mod 10)]) as Hlen.
  destruct fuel' as [|fuel']; [change (2 ^ N.of_nat 0) with 1 in Hlt'; lia|].
  cbn [length] in Hlen. lia.
Qed.

Lemma decimal_fuel_head fuel :
  ∀ n acc, 0 < n → n < 2 ^ N.of_nat fuel →
    ∃ c rest, decimal_fuel fuel n acc = c :: rest ∧ c ≠ "0"%char.
Proof.
  induction fuel as [|fuel IH]; intros n acc Hpos Hn;
    [change (2 ^ N.of_nat 0) with 1 in Hn; lia|].
  destruct (N.lt_ge_cases n 10) as [Hsmall | Hbig].
  - rewrite decimal_fuel_small by done.
    eexists _, _. split; [done|]. apply digit_char_nonzero. lia.
  - destruct (decimal_fuel_step _ n acc Hbig Hn) as (fuel' & [= <-] & Hlt & ->).
    apply IH; [|done].
    assert (1 ≤ n / 10) by (apply N.div_le_lower_bound; lia). lia.
Qed.

Lemma decimal_head n :
  0 < n → ∃ c rest, decimal n = c :: rest ∧ c ≠ "0"%char.
Proof. intros Hn. by apply decimal_fuel_head; [|apply size_bound]. Qed.

Lemma py_int_digits s :
  s ≠ [] → Forall (λ c, isdigit_char c = true) s →
  py_int s = Some (digits_value s).
Proof.
  intros Hne Hd. unfold py_int, isdecimal.
  destruct s as [|c s]; [done|]. simpl truthy.
  assert (forallb isdigit_char (c :: s) = true) as ->; [|done].
  apply forallb_forall. intros x Hx. rewrite Forall_forall in Hd.
  by apply Hd, list_elem_of_In.
Qed.

(** [f"{n:02d}"] is the decimal writing of [n], with a zero in front below
    ten: it is read back as [n], has two characters below a hundred and at
    least three, the first not a zero, from a hundred on. *)
Lemma format_02d_spec n :
  py_int (format_02d n) = Some n ∧
  (2 ≤ length (format_02d n))%nat ∧
  (n < 100 → length (format_02d n) = 2%nat) ∧
  (100 ≤ n → (3 ≤ length (format_02d n))%nat ∧
             head (format_02d n) ≠ Some "0"%char).
Proof.
  unfold format_02d. cbn zeta.
  destruct (N.lt_ge_cases n 10) as [H10 | H10].
  - rewrite decimal_small by done. cbn [length Nat.sub repeat app].
    split_and!; [|done|done|lia].
    rewrite py_int_digits; [|done|].
    + rewrite !digits_value_cons. change (digit_value "0") with 0.
      rewrite digit_char_value by done.
      change (digits_value []) with 0.
      change (N.of_nat (length (@nil ascii))) with 0.
      rewrite N.pow_0_r. f_equal. lia.
    + repeat constructor. by apply digit_char_isdigit.
  - destruct (N.lt_ge_cases n 100) as [H100 | H100].
    + rewrite decimal_two by done. cbn [length Nat.sub repeat app].
      split_and!; [|done|done|lia].
      pose proof (decimal_digits n) as [Hd Hv]. rewrite decimal_two in Hd, Hv by done.
      by rewrite py_int_digits, Hv.
    + pose proof (decimal_long n H100) as Hlen.
      replace (2 - length (decimal n))%nat with 0%nat by lia. cbn [repeat app].
      pose proof (decimal_digits n) as [Hd Hv].
      split_and!; [|lia|lia|].
      * rewrite py_int_digits, Hv; [done| |done].
        intros Hnil. rewrite Hnil in Hlen. simpl in Hlen. lia.
      * intros _. split; [done|].
        destruct (decimal_head n ltac:(lia)) as (c & rest & -> & Hc).
        simpl. congruence.
Qed.

Local Close Scope N_scope.

(** ** The matcher on the invoice-number pattern *)

#[local] Arguments token_head : simpl never.

Lemma suffix_pattern_eq month_year :
  suffix_pattern month_year = escape (token_head month_year) ++ [Plus Digit].
Proof.
  unfold suffix_pattern, token_head, escape. cbn [lit list_ascii_of_string app].
  cbn [map]. rewrite map_app. cbn [map app]. rewrite <- app_assoc. done.
Qed.

Lemma match_here_escape k r s :
  match_here (escape k ++ r) s =
    if startswith k s
    then app (map (λ c, [c]) k) <$> match_here r (drop (length k) s)
    else None.
Proof.
  revert s. induction k as [|a k IH]; intros s; simpl.
  - rewrite drop_0. by destruct (match_here r s).
  - destruct s as [|b s]; [done|]. simpl.
    rewrite (bool_decide_ext (b = a) (a = b)) by done.
    case_bool_decide; simpl; [subst b|done]. rewrite IH.
    destruct (startswith k s); [|done].
    by destruct (match_here r (drop (length k) s)).
Qed.

Lemma span_digits_app s : s = (span_digits s).1 ++ (span_digits s).2.
Proof.
  induction s as [|c s IH]; simpl; [done|].
  destruct (isdigit_char c); [|done].
  destruct (span_digits s). simpl in *. by f_equal.
Qed.

Lemma span_digits_digits s :
  Forall (λ c, isdigit_char c = true) (span_digits s).1.
Proof.
  induction s as [|c s IH]; simpl; [done|].
  destruct (isdigit_char c) eqn:Hc; [|done].
  destruct (span_digits s). simpl in *. by constructor.
Qed.

Lemma span_digits_stop s c :
  head (span_digits s).2 = Some c → isdigit_char c = false.
Proof.
  induction s as [|x s IH]; simpl; [done|].
  destruct (isdigit_char x) eqn:Hx.
  - destruct (span_digits s). done.
  - simpl. by intros [= <-].
Qed.

Lemma span_digits_unique ds post :
  Forall (λ c, isdigit_char c = true) ds →
  (∀ c, head post = Some c → isdigit_char c = false) →
  span_digits (ds ++ post) = (ds, post).
Proof.
  intros Hds Hpost. induction Hds as [|d ds Hd _ IH]; simpl.
  - destruct post as [|c post]; [done|]. simpl.
    by rewrite (Hpost c eq_refl).
  - by rewrite Hd, IH.
Qed.

(** The continuation after [\d+] accepts anything, so the digits are taken
    as far as they go. *)
Lemma match_plus_digit k s :
  (∀ s', k s' = Some []) →
  match_plus Digit k s =
    match (span_digits s).1 with
    | [] => None
    | ds => Some [ds]
    end.
Proof.
  intros Hk. induction s as [|c s IH]; simpl; [done|].
  destruct (isdigit_char c); [|done].
  rewrite IH, Hk. by destruct (span_digits s) as [[|d ds] r].
Qed.

Lemma match_suffix month_year s :
  match_here (suffix_pattern month_year) s =
    if startswith (token_head month_year) s
    then match (span_digits (drop (length (token_head month_year)) s)).1 with
         | [] => None
         | ds => Some (map (λ c, [c]) (token_head month_year) ++ [ds])
         end
    else None.
Proof.
  rewrite suffix_pattern_eq, match_here_escape.
  destruct (startswith _ s); [|done].
  cbn [match_here]. rewrite match_plus_digit by done.
  by destruct (span_digits _).1.
Qed.

Lemma match_suffix_token month_year s :
  token_at month_year 0 s ↔ is_Some (match_here (suffix_pattern month_year) s).
Proof.
  rewrite match_suffix. split.
  - intros (d & rest & Hd & Hs). rewrite drop_0 in Hs. subst s.
    assert (startswith (token_head month_year)
              (token_head month_year ++ d :: rest) = true) as ->.
    { apply startswith_spec. by eexists. }
    rewrite drop_app_length. simpl. rewrite Hd.
    by destruct (span_digits rest).
  - destruct (startswith _ s) eqn:Hst; [|by intros [? ?]].
    apply startswith_spec in Hst as [rest ->].
    rewrite drop_app_length.
    pose proof (span_digits_app rest) as Happ.
    pose proof (span_digits_digits rest) as Hd.
    destruct (span_digits rest) as [[|d ds] r]; [by intros [? ?]|].
    intros _. simpl in *. exists d, (ds ++ r). rewrite drop_0.
    split; [by inversion Hd | by rewrite Happ].
Qed.

Lemma token_at_cons month_year i c s :
  token_at month_year (S i) (c :: s) ↔ token_at month_year i s.
Proof. done. Qed.

Lemma search_suffix_Some month_year s :
  ∀ pos m, search_from (suffix_pattern month_year) pos s = Some m →
    first_token month_year s (suffix_group1 m).
Proof.
  induction s as [|c s IH]; intros pos m; cbn [search_from].
  - rewrite match_suffix.
    destruct (startswith _ []) eqn:Hst; [|done].
    rewrite drop_nil. done.
  - destruct (match_here (suffix_pattern month_year) (c :: s)) as [gs|] eqn:Hm.
    + intros [= <-]. rewrite match_suffix in Hm.
      destruct (startswith _ (c :: s)) eqn:Hst; [|done].
      apply startswith_spec in Hst as [rest Hrest]. rewrite Hrest in *.
      rewrite drop_app_length in Hm.
      pose proof (span_digits_app rest) as Happ.
      pose proof (span_digits_digits rest) as Hd.
      pose proof (span_digits_stop rest) as Hstop.
      destruct (span_digits rest) as [[|d ds] r]; [done|].
      cbn [fst snd] in *.
      assert (gs = map (λ c, [c]) (token_head month_year) ++ [d :: ds]) as ->
        by congruence.
      exists [], r. unfold suffix_group1. cbn [m_items].
      rewrite last_last. split_and!; try done.
      * cbn [app]. by rewrite Happ.
      * cbn [length]. lia.
    + intros Hs. destruct (IH _ _ Hs) as (pre & post & Heq & Hne & Hd & Hstop & Hleft).
      exists (c :: pre), post. split_and!; try done.
      * cbn [app]. by f_equal.
      * intros [|i] Hi.
        -- rewrite match_suffix_token, Hm. by intros [? ?].
        -- rewrite token_at_cons. apply Hleft. simpl in Hi. lia.
Qed.

Lemma search_suffix_None month_year s :
  ∀ pos, search_from (suffix_pattern month_year) pos s = None →
    ∀ i, ¬ token_at month_year i s.
Proof.
  induction s as [|c s IH]; intros pos; cbn [search_from].
  - destruct (match_here _ []) eqn:Hm; [done|]. intros _ i (d & rest & _ & Hd).
    rewrite drop_nil in Hd. unfold token_head in Hd. discriminate Hd.
  - destruct (match_here _ (c :: s)) eqn:Hm; [done|].
    intros Hs [|i].
    + rewrite match_suffix_token, Hm. by intros [? ?].
    + rewrite token_at_cons. by apply (IH _ Hs).
Qed.

Lemma first_token_at month_year pre ds post :
  ds ≠ [] → Forall (λ c, isdigit_char c = true) ds →
  token_at month_year (length pre) (pre ++ token_head month_year ++ ds ++ post).
Proof.
  intros Hne Hd. destruct ds as [|d ds]; [done|].
  exists d, (ds ++ post). rewrite drop_app_length.
  split; [by inversion Hd | done].
Qed.

(** A name has at most one first token. *)
Lemma first_token_unique month_year name ds ds' :
  first_token month_year name ds → first_token month_year name ds' → ds = ds'.
Proof.
  intros (pre & post & Heq & Hne & Hd & Hstop & Hleft)
         (pre' & post' & Heq' & Hne' & Hd' & Hstop' & Hleft').
  assert (Hlen : length pre = length pre').
  { destruct (Nat.lt_trichotomy (length pre) (length pre')) as [Hlt | [? | Hgt]];
      [|done|].
    - exfalso. apply (Hleft' _ Hlt). rewrite Heq. by apply first_token_at.
    - exfalso. apply (Hleft _ Hgt). rewrite Heq'. by apply first_token_at. }
  rewrite Heq in Heq'. apply app_inj_1 in Heq' as [_ Heq']; [|done].
  apply app_inv_head in Heq'.
  pose proof (span_digits_unique ds post Hd Hstop) as H1.
  pose proof (span_digits_unique ds' post' Hd' Hstop') as H2.
  rewrite Heq' in H1. congruence.
Qed.

(** What the scan reads off a file name is the value of its first token. *)
Lemma suffix_of_spec month_year path :
  match suffix_of (suffix_pattern month_year) path with
  | Some v => ∃ ds, first_token month_year (stem path) ds ∧ digits_value ds = v
  | None => ∀ i, ¬ token_at month_year i (stem path)
  end.
Proof.
  unfold suffix_of, search.
  destruct (search_from _ 0 (stem path)) as [m|] eqn:Hs.
  - pose proof (search_suffix_Some _ _ _ _ Hs) as Hft.
    destruct Hft as (pre & post & Heq & Hne & Hd & Hrest).
    rewrite py_int_digits by done.
    exists (suffix_group1 m). split; [|done]. by exists pre, post.
  - by apply (search_suffix_None _ _ 0).
Qed.

(** ** The next invoice suffix *)

Lemma suffix_step_max pattern acc path :
  suffix_step pattern acc path =
    match suffix_of pattern path with
    | Some v => N.max acc v
    | None => acc
    end.
Proof.
  unfold suffix_step, suffix_of. cbn zeta.
  destruct (search pattern (stem path)) as [m|]; [|done].
  destruct (py_int (suffix_group1 m)) as [v|]; [|done].
  destruct (N.ltb_spec acc v); lia.
Qed.

Lemma fold_suffix_step pattern files :
  ∀ acc,
    let mx := fold_left (suffix_step pattern) files acc in
    (acc ≤ mx)%N ∧
    (∀ f v, f ∈ files → suffix_of pattern f = Some v → (v ≤ mx)%N) ∧
    (mx = acc ∨ ∃ f, f ∈ files ∧ suffix_of pattern f = Some mx).
Proof.
  induction files as [|f files IH]; intros acc; cbn [fold_left].
  - split_and!; [lia | by intros ? ? ?%elem_of_nil | by left].
  - destruct (IH (suffix_step pattern acc f)) as (Hle & Hall & Hex).
    rewrite suffix_step_max in *.
    split_and!.
    + destruct (suffix_of pattern f); lia.
    + intros g v [-> | Hg]%elem_of_cons Hv; [|by apply (Hall g)].
      rewrite Hv in Hle |- *. lia.
    + destruct Hex as [Heq | (g & Hg & Hv)].
      * destruct (suffix_of pattern f) as [v|] eqn:Hf; [|by left].
        destruct (N.max_spec acc v) as [[_ Hm] | [_ Hm]].
        -- right. exists f. split; [by left | congruence].
        -- left. congruence.
      * right. exists g. split; [by right | done].
Qed.

(** C7, as stated, fails: a name that does not end in [.pdf] is not
    scanned, whatever token it contains. *)
Lemma next_suffix_over_names_counterexample :
  ¬ next_suffix_over_names (lit "0125") [lit "GB-0125-07.txt"]
      (get_next_suffix_for_month (lit "0125") [lit "GB-0125-07.txt"]).
Proof.
  intros (mx & Hout & Hall & _).
  assert (Hmx : mx = 0%N).
  { pose proof (format_02d_spec (mx + 1)) as [Hint _].
    assert (H1 : py_int (get_next_suffix_for_month (lit "0125")
                           [lit "GB-0125-07.txt"]) = Some 1%N)
      by (vm_compute; reflexivity).
    rewrite Hout, Hint in H1. injection H1 as H1. lia. }
  subst mx.
  specialize (Hall (lit "GB-0125-07.txt") (lit "07") ltac:(by left)).
  assert (Hft : first_token (lit "0125") (lit "GB-0125-07.txt") (lit "07")).
  { exists [], (lit ".txt"). split_and!; try done.
    - repeat constructor.
    - intros c [= <-]. reflexivity.
    - simpl. lia. }
  specialize (Hall Hft). vm_compute in Hall. by apply Hall.
Qed.

(** C7, amended: for every month string and every directory listing, the
    result is the formatted successor of the largest numeric segment read
    off the names that end in [.pdf], each taken without its extension and
    at its first token [GB-<MMYY>-<digits>]; names without a token and
    names that do not end in [.pdf] are ignored; with no token at all the
    result is [01].  The result is read back as that successor, has two
    characters below a hundred, and at least three with no leading zero
    from a hundred on. *)
Theorem get_next_suffix_for_month_spec (month_year : str) (output_dir : list str) :
  let out := get_next_suffix_for_month month_year output_dir in
  next_suffix_over_names month_year
    (map stem (List.filter is_pdf output_dir)) out ∧
  ((∀ name i, name ∈ output_dir → is_pdf name = true →
              ¬ token_at month_year i (stem name)) →
   out = lit "01") ∧
  ∃ next : N,
    py_int out = Some next ∧ (1 ≤ next)%N ∧
    2 ≤ length out ∧
    ((next < 100)%N → length out = 2) ∧
    ((100 ≤ next)%N → 3 ≤ length out ∧ head out ≠ Some "0"%char).
Proof.
  cbn zeta. unfold get_next_suffix_for_month. cbn zeta.
  set (files := List.filter is_pdf output_dir).
  destruct (fold_suffix_step (suffix_pattern month_year) files 0%N)
    as (_ & Hall & Hex).
  set (mx := fold_left _ files 0%N) in *.
  split_and!.
  - exists mx. split_and!; [done | |].
    + intros name ds Hname Hft.
      apply list_elem_of_fmap in Hname as (f & -> & Hf).
      pose proof (suffix_of_spec month_year f) as Hspec.
      destruct (suffix_of (suffix_pattern month_year) f) as [v|] eqn:Hv.
      * destruct Hspec as (ds' & Hft' & <-).
        rewrite (first_token_unique _ _ _ _ Hft Hft'). by apply (Hall f).
      * exfalso. destruct Hft as (pre & post & Heq & Hne & Hd & _).
        apply (Hspec (length pre)). rewrite Heq. by apply first_token_at.
    + destruct Hex as [-> | (f & Hf & Hv)]; [by left | right].
      pose proof (suffix_of_spec month_year f) as Hspec. rewrite Hv in Hspec.
      destruct Hspec as (ds & Hft & Hds).
      exists (stem f), ds. split_and!; [|done|done].
      apply list_elem_of_fmap. by exists f.
  - intros Hnone. destruct Hex as [-> | (f & Hf & Hv)]; [reflexivity|].
    exfalso. pose proof (suffix_of_spec month_year f) as Hspec.
    rewrite Hv in Hspec. destruct Hspec as (ds & Hft & _).
    destruct Hft as (pre & post & Heq & Hne & Hd & _).
    apply list_elem_of_In, filter_In in Hf as [Hin Hpdf].
    apply (Hnone f (length pre)); [by apply list_elem_of_In | done |].
    rewrite Heq. by apply first_token_at.
  - exists (mx + 1)%N.
    destruct (format_02d_spec (mx + 1)) as (Hint & Hlen & Hsmall & Hbig).
    split_and!; [done | lia | done | done | done].
Qed.

Example get_next_suffix_for_month_sample :
  get_next_suffix_for_month (lit "0125")
    (map lit ["GB-0125-01.pdf"; "GB-0125-03.pdf"; "GB-0225-09.pdf"]%string) =
  lit "04".
Proof. vm_compute. reflexivity. Qed.

Example get_next_suffix_for_month_empty :
  get_next_suffix_for_month (lit "0125") [] = lit "01".
Proof. vm_compute. reflexivity. Qed.

Example get_next_suffix_for_month_wide :
  get_next_suffix_for_month (lit "0125")
    (map lit ["G_BUILDCON_Invoice_-_GB-0125-99.pdf"; "notes.txt";
              "GB-0125-x.pdf"]%string) =
  lit "100".
Proof. vm_compute. reflexivity. Qed.

(** ** The financial computation *)

Lemma math_ceil_spec x z : math_ceil x = Some z → is_ceiling (Prim2SF x) z.
Proof.
  unfold math_ceil, is_ceiling.
  destruct (Prim2SF x) as [s | s | | s m e]; try done.
  - by intros [= <-].
  - intros [= <-]. destruct (Z.leb_spec 0 e) as [He | He]; [done|].
    assert (Hd : (0 < 2 ^ (- e))%Z) by (apply Z.pow_pos_nonneg; lia).
    pose proof (Z.mul_div_le (- signed s m) _ Hd) as Hlo.
    pose proof (Z.mul_succ_div_gt (- signed s m) _ Hd) as Hhi.
    set (q := (- signed s m / 2 ^ (- e))%Z) in *.
    set (d := (2 ^ (- e))%Z) in *. lia.
Qed.

Lemma math_ceil_None x :
  math_ceil x = None →
  Prim2SF x = S754_nan ∨ ∃ s, Prim2SF x = S754_infinity s.
Proof.
  unfold math_ceil. destruct (Prim2SF x) as [s | s | | s m e]; try done.
  - right. by exists s.
  - by left.
Qed.

(** ** The ceiling of a finite float converts back to a float *)

Lemma digits2_pos_shift m k :
  digits2_pos (Pos.iter xO m k) = (digits2_pos m + k)%positive.
Proof.
  induction k as [|k IH] using Pos.peano_ind.
  - simpl. lia.
  - rewrite Pos.iter_succ. simpl. rewrite IH. lia.
Qed.

Lemma iter_pos_iter {A} (f : A → A) p x : SpecFloat.iter_pos f p x = Pos.iter f x p.
Proof.
  revert x. induction p as [p IH | p IH |]; intros x; simpl.
  - rewrite !IH. by rewrite <- !Pos.iter_swap.
  - by rewrite !IH.
  - done.
Qed.

Lemma shr_1_shift m k :
  Pos.iter shr_1 {| shr_m := Z.pos (Pos.iter xO m k); shr_r := false;
                    shr_s := false |} k =
  {| shr_m := Z.pos m; shr_r := false; shr_s := false |}.
Proof.
  induction k as [|k IH] using Pos.peano_ind.
  - done.
  - rewrite Pos.iter_succ_r, Pos.iter_succ. simpl. exact IH.
Qed.

Lemma digits2_pos_log2 q : Z.pos (digits2_pos q) = (Z.log2 (Z.pos q) + 1)%Z.
Proof.
  assert (H : ∀ p, digits2_pos p = Pos.size p).
  { induction p; simpl; congruence. }
  destruct q; simpl; rewrite ?H; lia.
Qed.

Lemma digits2_pos_le q m :
  (q ≤ m)%positive → (Z.pos (digits2_pos q) ≤ Z.pos (digits2_pos m))%Z.
Proof.
  intros Hle. rewrite !digits2_pos_log2.
  apply Z.add_le_mono_r, Z.log2_le_mono. lia.
Qed.

(** A mantissa of 53 bits with an exponent in range is its own rounding. *)
Lemma binary_round_aux_aligned s mz ez :
  digits2_pos mz = 53%positive → (-1074 ≤ ez ≤ 971)%Z →
  binary_round_aux prec emax s (Z.pos mz) ez loc_Exact = S754_finite s mz ez.
Proof.
  intros Hd He. unfold binary_round_aux, shr_fexp.
  cbn [Zdigits2 shr_record_of_loc]. rewrite Hd.
  assert (Hf : (fexp prec emax (53 + ez) - ez = 0)%Z).
  { unfold fexp, emin, prec, emax. lia. }
  rewrite Hf. cbn [shr shr_m loc_of_shr_record round_nearest_even Zdigits2
                   shr_record_of_loc].
  rewrite Hd, Hf. cbn [shr shr_m].
  assert ((ez <=? emax - prec)%Z = true) as ->; [|done].
  apply Z.leb_le. unfold prec, emax. lia.
Qed.

(** An integer of at most 53 bits is a float. *)
Lemma binary_round_small s n :
  (Z.pos (digits2_pos n) ≤ 53)%Z →
  ∃ m e, binary_round prec emax s n 0 = S754_finite s m e.
Proof.
  intros Hd. unfold binary_round, shl_align.
  assert (Hf : (fexp prec emax (Z.pos (digits2_pos n) + 0) - 0 =
                Z.pos (digits2_pos n) - 53)%Z).
  { unfold fexp, emin, prec, emax. lia. }
  rewrite Hf.
  destruct (Z.pos (digits2_pos n) - 53)%Z as [|k|k] eqn:Hk; [|lia|].
  - exists n, 0%Z. apply binary_round_aux_aligned; lia.
  - eexists _, _. rewrite Z.add_0_r.
    assert (Hfe : fexp prec emax (Z.pos (digits2_pos n)) = Z.neg k).
    { unfold fexp, emin, prec, emax. lia. }
    rewrite Hfe. apply binary_round_aux_aligned.
    + rewrite digits2_pos_shift. lia.
    + lia.
Qed.

(** A mantissa of 53 bits shifted left by an exponent in range is a
    float. *)
Lemma binary_round_shifted s m p :
  digits2_pos m = 53%positive → (Z.pos p ≤ 971)%Z →
  binary_round prec emax s (Pos.iter xO m p) 0 = S754_finite s m (Z.pos p).
Proof.
  intros Hd Hp. unfold binary_round, shl_align.
  rewrite digits2_pos_shift, Hd.
  assert (Hf : (fexp prec emax (Z.pos (53 + p) + 0) - 0 = Z.pos p)%Z).
  { unfold fexp, emin, prec, emax. lia. }
  rewrite Hf. unfold binary_round_aux, shr_fexp.
  cbn [Zdigits2 shr_record_of_loc]. rewrite digits2_pos_shift, Hd, Hf.
  cbn [shr]. rewrite iter_pos_iter, shr_1_shift.
  cbn [shr_m loc_of_shr_record round_nearest_even Zdigits2 shr_record_of_loc].
  rewrite Hd.
  assert (Hf' : (fexp prec emax (53 + (0 + Z.pos p)) - (0 + Z.pos p) = 0)%Z).
  { unfold fexp, emin, prec, emax. lia. }
  rewrite Hf'. cbn [shr shr_m].
  assert ((0 + Z.pos p <=? emax - prec)%Z = true) as ->.
  { apply Z.leb_le. unfold prec, emax. lia. }
  done.
Qed.

Lemma pos_shift_pow2 m p : (Z.pos m * 2 ^ Z.pos p)%Z = Z.pos (Pos.iter xO m p).
Proof.
  induction p as [|p IH] using Pos.peano_ind.
  - simpl. lia.
  - rewrite Pos.iter_succ, Pos2Z.inj_succ, Z.pow_succ_r by lia.
    change (Z.pos (Pos.iter xO m p)~0) with (2 * Z.pos (Pos.iter xO m p))%Z.
    rewrite <- IH. lia.
Qed.

Lemma float_of_int_finite n :
  (∃ s m e, binary_normalize prec emax n 0 false = S754_finite s m e) ∨
  (∃ s, binary_normalize prec emax n 0 false = S754_zero s) →
  is_Some (float_of_int n).
Proof.
  unfold float_of_int. intros [(? & ? & ? & ->) | (? & ->)]; by eexists.
Qed.

(** [float(n)] does not overflow on the ceiling of a finite float. *)
Lemma float_of_int_ceil x n : math_ceil x = Some n → is_Some (float_of_int n).
Proof.
  unfold math_ceil. pose proof (Prim2SF_valid x) as Hv.
  destruct (Prim2SF x) as [s | s | | s m e]; try done.
  - intros [= <-]. by eexists.
  - intros [= <-]. cbn [valid_binary] in Hv. unfold bounded in Hv.
    apply andb_true_iff in Hv as [Hc He].
    unfold canonical_mantissa in Hc. apply Z.eqb_eq in Hc. apply Z.leb_le in He.
    unfold fexp, emin, prec, emax in Hc, He.
    apply float_of_int_finite.
    destruct (Z.leb_spec 0 e) as [Hpos | Hneg].
    + left. assert (Hd : digits2_pos m = 53%positive) by lia.
      destruct e as [|p|p]; [| |lia].
      * rewrite Z.mul_1_r.
        destruct s; cbn [signed binary_normalize].
        -- destruct (binary_round_small true m) as (m' & e' & Hr);
             [rewrite Hd; lia | rewrite Hr; eauto].
        -- destruct (binary_round_small false m) as (m' & e' & Hr);
             [rewrite Hd; lia | rewrite Hr; eauto].
      * destruct s; cbn [signed].
        -- change (Z.neg m) with (- Z.pos m)%Z.
           rewrite Z.mul_opp_l, pos_shift_pow2.
           change (- Z.pos ?q)%Z with (Z.neg q). cbn [binary_normalize].
           rewrite binary_round_shifted by (done || lia). eauto.
        -- rewrite pos_shift_pow2. cbn [binary_normalize].
           rewrite binary_round_shifted by (done || lia). eauto.
    + assert (Hpow : (0 < 2 ^ (- e))%Z) by (apply Z.pow_pos_nonneg; lia).
      assert (Hbound : (Z.abs (- (- signed s m / 2 ^ (- e))) ≤ Z.pos m)%Z).
      { pose proof (Z.mul_div_le (- signed s m) _ Hpow).
        pose proof (Z.mul_succ_div_gt (- signed s m) _ Hpow).
        destruct s; cbn [signed] in *; nia. }
      destruct (- (- signed s m / 2 ^ (- e)))%Z as [|q|q] eqn:Hq.
      * right. by eexists.
      * left. cbn [binary_normalize].
        destruct (binary_round_small false q) as (m' & e' & Hr); [|rewrite Hr; eauto].
        pose proof (digits2_pos_le q m). lia.
      * left. cbn [binary_normalize].
        destruct (binary_round_small true q) as (m' & e' & Hr); [|rewrite Hr; eauto].
        pose proof (digits2_pos_le q m). lia.
Qed.

(** C8, as stated, fails: for a finite amount whose marked-up product
    overflows, [math.ceil] raises and no value is computed. *)
Lemma yields_financials_counterexample : ¬ yields_financials max_float.
Proof.
  unfold yields_financials.
  assert (compute_financials max_float = None) as -> by (vm_compute; reflexivity).
  by intros [? ?].
Qed.

(** C8, amended: for every float amount [y] whose product [y * 1.02] is
    finite the computation yields its values: [sub_total], the least integer
    not below the product (rounded up, never down),
    [base_amount = sub_total / 1.18], [cgst = sgst = base_amount * 0.09],
    [tax_total = cgst + sgst] and [sub_total_2 = base_amount + cgst + sgst],
    in float arithmetic; the integer ceiling of a finite float is always in
    the range of floats.  No value is computed only when the product is a
    NaN or an infinity, on which [math.ceil] raises. *)
Theorem compute_financials_spec (y : float) :
  match compute_financials y with
  | Some f =>
      is_ceiling (Prim2SF (y * f_1_02)) (sub_total f) ∧
      ∃ sub_total_f,
        float_of_int (sub_total f) = Some sub_total_f ∧
        base_amount f = (sub_total_f / f_1_18)%float ∧
        cgst f = (base_amount f * f_0_09)%float ∧
        sgst f = cgst f ∧
        tax_total f = (cgst f + sgst f)%float ∧
        sub_total_2 f = (base_amount f + cgst f + sgst f)%float
  | None =>
      Prim2SF (y * f_1_02) = S754_nan ∨
      (∃ s, Prim2SF (y * f_1_02) = S754_infinity s)
  end.
Proof.
  unfold compute_financials.
  destruct (math_ceil (y * f_1_02)) as [n|] eqn:Hceil.
  - destruct (float_of_int_ceil _ _ Hceil) as [nf Hf]. rewrite Hf.
    cbn [sub_total base_amount cgst sgst tax_total sub_total_2].
    split; [by apply math_ceil_spec|]. by exists nf.
  - by apply math_ceil_None in Hceil as [? | ?]; [left | right].
Qed.

(** The example of the design: an amount of 1000. *)
Example compute_financials_1000 :
  (λ f, (format_2f_int (sub_total f), format_2f (base_amount f),
         format_2f (cgst f), format_2f (sgst f), format_2f (tax_total f)))
    <$> compute_financials 1000%float =
  Some (Some (lit "1020.00"), lit "864.41", lit "77.80", lit "77.80",
        lit "155.59").
Proof. vm_compute. reflexivity. Qed.

Example compute_financials_rounds_up :
  sub_total <$> compute_financials 0x1.f4199999999ap+9%float = Some 1021%Z.
Proof. vm_compute. reflexivity. Qed.

(** ** Input validation of the handlers *)

Section HandlerFacts.

Variable py_float : str → option float.
Variable strptime_ymd : str → option (nat * nat * nat).
Variable today : str.
Variable produce : invoice_input → list event * result.

(** An amount that is missing or that [float] refuses is rejected with
    status 400 before anything is done. *)
Lemma generate_invoice_rejects_amount (form : gmap str str) :
  form !! lit "y_value" ≫= py_float = None →
  generate_invoice py_float strptime_ymd today produce form =
    ([], Returned 400 (lit "Invalid y_value")).
Proof. intros H. unfold generate_invoice. by rewrite H. Qed.

(** A suffix that is not numeric is rejected with status 400 before
    anything is done. *)
Lemma generate_invoice_rejects_suffix (form : gmap str str) y n :
  form !! lit "y_value" ≫= py_float = Some y →
  math_ceil (y * f_1_02) = Some n →
  isdigit (strip (default [] (form !! lit "invoice_suffix"))) = false →
  generate_invoice py_float strptime_ymd today produce form =
    ([], Returned 400 (lit "Invoice suffix must be numeric")).
Proof.
  intros Hy Hn Hs. unfold generate_invoice. by rewrite Hy, Hn, Hs.
Qed.

(** An amount that [float] accepts but whose marked-up product is a NaN
    or an infinity (the texts [nan] and [inf] are such) is not rejected
    either: [math.ceil] raises and the exception escapes. *)
Lemma generate_invoice_unbounded_amount (form : gmap str str) y :
  form !! lit "y_value" ≫= py_float = Some y →
  math_ceil (y * f_1_02) = None →
  generate_invoice py_float strptime_ymd today produce form =
    ([], Raised (lit "ValueError or OverflowError")).
Proof. intros Hy Hn. unfold generate_invoice. by rewrite Hy, Hn. Qed.

(** C9, where the code departs from it: with a valid amount and a numeric
    suffix, a date that [strptime] refuses is not rejected by
    [generate_invoice]; the [ValueError] escapes and the request is answered
    with status 500, which is not a client error, although nothing has been
    loaded or written.  [next_suffix] rejects the same date with status
    400. *)
Theorem generate_invoice_malformed_date (form : gmap str str) y n date_value :
  form !! lit "y_value" ≫= py_float = Some y →
  math_ceil (y * f_1_02) = Some n →
  isdigit (strip (default [] (form !! lit "invoice_suffix"))) = true →
  form !! lit "date" = Some date_value →
  date_value ≠ [] →
  strptime_ymd date_value = None →
  generate_invoice py_float strptime_ymd today produce form =
    ([], Raised (lit "ValueError")) ∧
  http_status (generate_invoice py_float strptime_ymd today produce form).2 = 500 ∧
  ¬ client_error (generate_invoice py_float strptime_ymd today produce form).2 ∧
  ∀ output_dir,
    next_suffix strptime_ymd output_dir {[ lit "date" := date_value ]} =
      ([], Returned 400 (lit "invalid date")).
Proof.
  intros Hy Hn Hs Hd Hne Hp.
  assert (Hg : generate_invoice py_float strptime_ymd today produce form =
               ([], Raised (lit "ValueError"))).
  { unfold generate_invoice. rewrite Hy, Hn, Hs, Hd. simpl. by rewrite Hp. }
  rewrite Hg. split_and!; [done | done | unfold client_error; simpl; lia |].
  intros output_dir. unfold next_suffix. rewrite lookup_singleton_eq.
  destruct date_value; [done|]. by rewrite Hp.
Qed.

End HandlerFacts.

Lemma generate_invoice_malformed_date_witness :
  generate_invoice sample_float sample_strptime (lit "2025-01-15")
    sample_produce sample_form = ([], Raised (lit "ValueError")) ∧
  http_status (generate_invoice sample_float sample_strptime (lit "2025-01-15")
                 sample_produce sample_form).2 = 500 ∧
  ¬ client_error (generate_invoice sample_float sample_strptime
                    (lit "2025-01-15") sample_produce sample_form).2 ∧
  ∀ output_dir,
    next_suffix sample_strptime output_dir {[ lit "date" := lit "2025-13-40" ]} =
      ([], Returned 400 (lit "invalid date")).
Proof.
  apply (generate_invoice_malformed_date sample_float sample_strptime
           (lit "2025-01-15") sample_produce sample_form 1000%float 1020%Z
           (lit "2025-13-40")).
  - vm_compute. reflexivity.
  - vm_compute. reflexivity.
  - vm_compute. reflexivity.
  - vm_compute. reflexivity.
  - discriminate.
  - reflexivity.
Defined.

(** * Further properties of the code *)

(** ** The paragraph engine *)

Lemma Scan_tokens s ps t :
  Scan s ps → Token t ∈ ps → is_placeholder t ∧ substring t s.
Proof.
  induction 1 as [s Hnone | l t' rest ps Ht Hleft Hscan IH].
  - destruct s; simpl; [by intros ?%elem_of_nil|].
    intros [[=] | ?%elem_of_nil]%elem_of_cons. done.
  - rewrite elem_of_app, elem_of_cons. intros [Hin | [[= ->] | Hin]].
    + destruct l; simpl in Hin; [by apply elem_of_nil in Hin|].
      apply elem_of_cons in Hin as [[=] | ?%elem_of_nil]. done.
    + split; [done|]. by exists l, rest.
    + destruct (IH Hin) as [Hp (pre & post & ->)]. split; [done|].
      exists (l ++ t' ++ pre), post. by rewrite <- !app_assoc.
Qed.

Lemma replace_placeholders_untouched p replacements ps :
  Scan (full_text_of p) ps → existsb is_token ps = false →
  replace_placeholders_in_paragraph_call p replacements = (p, Returns).
Proof.
  intros Hscan Htok.
  destruct (replace_placeholders_spec p replacements) as (ps' & Hscan' & ->).
  by rewrite (Scan_unique _ _ _ Hscan' Hscan), Htok.
Qed.

Lemma replace_placeholders_style p replacements :
  p_style (replace_placeholders_in_paragraph p replacements) = p_style p.
Proof.
  unfold replace_placeholders_in_paragraph.
  destruct (replace_placeholders_spec p replacements) as (ps & _ & ->).
  by destruct (existsb is_token ps).
Qed.

(** X1: the call never removes a run, never touches the paragraph's style,
    and leaves the bold flag and the formatting of every run that was there
    as they were; such a run keeps its text or loses all of it. *)
Theorem replace_placeholders_frame (p : Paragraph) (replacements : gmap str str) :
  p_style (replace_placeholders_in_paragraph p replacements) = p_style p ∧
  length (runs p) ≤
    length (runs (replace_placeholders_in_paragraph p replacements)) ∧
  Forall2 same_but_cleared (runs p)
    (take (length (runs p))
       (runs (replace_placeholders_in_paragraph p replacements))).
Proof.
  split; [apply replace_placeholders_style|].
  destruct (replace_placeholders_spec p replacements) as (ps & Hscan & _).
  destruct (existsb is_token ps) eqn:Htok.
  - rewrite (replace_placeholders_runs p replacements ps) by done.
    split; [rewrite length_app, length_map; lia |].
    rewrite take_app_length' by (by rewrite length_map).
    rewrite Forall2_fmap_r. apply Forall_Forall2_diag, Forall_forall.
    intros r _. unfold same_but_cleared. simpl. auto.
  - unfold replace_placeholders_in_paragraph.
    rewrite (replace_placeholders_untouched p replacements ps) by done.
    cbn [fst]. split; [done|]. rewrite firstn_all.
    apply Forall_Forall2_diag, Forall_forall.
    intros r _. unfold same_but_cleared. auto.
Qed.

(** X2: the result depends on the runs only through their concatenated
    text: two paragraphs with the same text gain the same new runs and end
    with the same text, however a token is split across the runs. *)
Theorem replace_placeholders_split_independent (p q : Paragraph)
    (replacements : gmap str str) :
  full_text_of p = full_text_of q →
  emitted p (replace_placeholders_in_paragraph p replacements) =
    emitted q (replace_placeholders_in_paragraph q replacements) ∧
  full_text_of (replace_placeholders_in_paragraph p replacements) =
    full_text_of (replace_placeholders_in_paragraph q replacements).
Proof.
  intros Heq.
  destruct (replace_placeholders_spec p replacements) as (ps & Hscan & _).
  assert (Hscan' : Scan (full_text_of q) ps) by (by rewrite <- Heq).
  destruct (existsb is_token ps) eqn:Htok.
  - rewrite (emitted_built p replacements ps), (emitted_built q replacements ps)
      by done.
    rewrite (full_text_after p replacements ps),
      (full_text_after q replacements ps) by done.
    by rewrite Heq.
  - unfold replace_placeholders_in_paragraph.
    rewrite (replace_placeholders_untouched p replacements ps),
      (replace_placeholders_untouched q replacements ps) by done.
    cbn [fst]. unfold emitted. by rewrite !drop_all.
Qed.

Lemma replace_placeholders_split_independent_witness :
  emitted (sample_paragraph ["Date: {{da"; "te}}"])
    (replace_placeholders_in_paragraph
       (sample_paragraph ["Date: {{da"; "te}}"]) sample_replacements) =
  emitted (sample_paragraph ["Date: "; "{{date}}"; ""])
    (replace_placeholders_in_paragraph
       (sample_paragraph ["Date: "; "{{date}}"; ""]) sample_replacements) ∧
  full_text_of (replace_placeholders_in_paragraph
                  (sample_paragraph ["Date: {{da"; "te}}"]) sample_replacements) =
  full_text_of (replace_placeholders_in_paragraph
                  (sample_paragraph ["Date: "; "{{date}}"; ""])
                  sample_replacements).
Proof.
  apply (replace_placeholders_split_independent
           (sample_paragraph ["Date: {{da"; "te}}"])
           (sample_paragraph ["Date: "; "{{date}}"; ""]) sample_replacements).
  vm_compute. reflexivity.
Defined.

Lemma substitute_unrecognised replacements ps :
  (∀ t, Token t ∈ ps → replacements !! t = None) →
  substitute replacements ps = concat (map piece_source ps).
Proof.
  unfold substitute. induction ps as [|pc ps IH]; intros Hnone; simpl; [done|].
  rewrite IH by (intros t Ht; apply Hnone; by right). f_equal.
  destruct pc as [l|t]; simpl; [done|].
  rewrite (Hnone t); [done | by left].
Qed.

(** X3: when no placeholder that occurs in the text is a key of the map
    (an empty map, or a template with other tokens), the call returns and
    the text of the paragraph is left as it was, for a text as python-docx
    reads it from a document: one that XML can carry, its line ends turned
    into line feeds. *)
Theorem replace_placeholders_pass_through (p : Paragraph)
    (replacements : gmap str str) :
  read_from_document (full_text_of p) →
  (∀ t, is_placeholder t → substring t (full_text_of p) →
        replacements !! t = None) →
  replace_placeholders_in_paragraph_outcome p replacements = Returns ∧
  full_text_of (replace_placeholders_in_paragraph p replacements) =
    full_text_of p.
Proof.
  intros [Hxml Hcr] Hnone.
  destruct (replace_placeholders_spec p replacements) as (ps & Hscan & _).
  assert (Hsub : substitute replacements ps = full_text_of p).
  { rewrite substitute_unrecognised; [by apply Scan_source|].
    intros t Ht. destruct (Scan_tokens _ _ _ Hscan Ht). by apply Hnone. }
  rewrite (replace_placeholders_outcome p replacements ps Hscan), Hsub, Hxml.
  rewrite andb_false_r. split; [done|].
  destruct (existsb is_token ps) eqn:Htok.
  - rewrite (replaced_text_of_scan p replacements ps) by (by rewrite ?Hsub).
    rewrite Hsub. by apply docx_text_id.
  - unfold replace_placeholders_in_paragraph.
    by rewrite (replace_placeholders_untouched p replacements ps).
Qed.

Lemma replace_placeholders_pass_through_witness :
  replace_placeholders_in_paragraph_outcome
    (sample_paragraph ["Ref {{other}} and {{date"]) ∅ = Returns ∧
  full_text_of (replace_placeholders_in_paragraph
                  (sample_paragraph ["Ref {{other}} and {{date"]) ∅) =
  full_text_of (sample_paragraph ["Ref {{other}} and {{date"]).
Proof.
  apply (replace_placeholders_pass_through
           (sample_paragraph ["Ref {{other}} and {{date"]) ∅).
  - split; [reflexivity|]. apply (bool_decide_unpack _). vm_compute. exact I.
  - intros t _ _. apply lookup_empty.
Defined.

(** Without it the text is not kept: a carriage return of the text, which a
    document can only spell as a character reference, comes back as a line
    feed once the runs are rebuilt. *)
Example replace_placeholders_carriage_return_sample :
  full_text_of
    (replace_placeholders_in_paragraph
       (mkParagraph [IRun (mkRun (lit "a" ++ [CR] ++ lit "{{other}}") None [])]
          (lit "Normal")) ∅) =
  lit "a" ++ [LF] ++ lit "{{other}}".
Proof. vm_compute. reflexivity. Qed.

(** X4: only the keys that are placeholders are ever looked up: two maps
    that agree on every placeholder give the same paragraph. *)
Theorem replace_placeholders_keys (p : Paragraph)
    (replacements replacements' : gmap str str) :
  (∀ t, is_placeholder t → replacements !! t = replacements' !! t) →
  replace_placeholders_in_paragraph p replacements =
  replace_placeholders_in_paragraph p replacements'.
Proof.
  intros Hagree. unfold replace_placeholders_in_paragraph.
  destruct (replace_placeholders_spec p replacements) as (ps & Hscan & ->).
  destruct (replace_placeholders_spec p replacements') as (ps' & Hscan' & ->).
  rewrite (Scan_unique _ _ _ Hscan' Hscan).
  destruct (existsb is_token ps); [|done]. cbn [fst].
  assert (piece_segments replacements (full_text_of p) ps =
          piece_segments replacements' (full_text_of p) ps) as ->; [|done].
  unfold piece_segments.
  apply map_ext_in. intros pc Hin%list_elem_of_In.
  destruct pc as [l|t]; [done|].
  destruct (Scan_tokens _ _ _ Hscan Hin) as [Hp _].
  unfold piece_segment, piece_text. by rewrite (Hagree t Hp).
Qed.

Lemma replace_placeholders_keys_witness :
  replace_placeholders_in_paragraph
    (sample_paragraph ["Date: {{date}} date"])
    (<[lit "date" := lit "never used"]> sample_replacements) =
  replace_placeholders_in_paragraph
    (sample_paragraph ["Date: {{date}} date"]) sample_replacements.
Proof.
  apply (replace_placeholders_keys (sample_paragraph ["Date: {{date}} date"])).
  intros t (body & -> & _). by rewrite lookup_insert_ne.
Defined.

Lemma token_spans_from pos ps :
  Forall (λ x, pos ≤ x.1.1) (token_spans pos ps).
Proof.
  revert pos. induction ps as [|[l|t] ps IH]; intros pos; simpl; [done| |].
  - eapply Forall_impl; [apply IH|]. simpl. intros x Hx. lia.
  - constructor; [simpl; lia|].
    eapply Forall_impl; [apply IH|]. simpl. intros x Hx. lia.
Qed.

Lemma token_spans_sorted pos ps :
  StronglySorted span_before (token_spans pos ps).
Proof.
  revert pos. induction ps as [|[l|t] ps IH]; intros pos; simpl.
  - constructor.
  - apply IH.
  - constructor; [apply IH|].
    eapply Forall_impl; [apply token_spans_from|].
    unfold span_before. simpl. intros x Hx. lia.
Qed.

Lemma token_spans_slices ps :
  ∀ pre s, Scan s ps →
    Forall (λ x, x.1.1 < x.1.2 ≤ length (pre ++ s) ∧
                 slice x.1.1 x.1.2 (pre ++ s) = x.2 ∧ is_placeholder x.2)
      (token_spans (length pre) ps).
Proof.
  intros pre s Hscan. revert pre.
  induction Hscan as [s Hnone | l t rest ps Ht Hleft Hscan IH]; intros pre.
  - by destruct s.
  - rewrite token_spans_app, literal_piece_source. cbn [token_spans].
    assert (Hl : token_spans (length pre) (literal_piece l) = [])
      by (by destruct l).
    rewrite Hl. cbn [app].
    pose proof (is_placeholder_length _ Ht) as Hlen.
    constructor.
    + cbn [fst snd]. rewrite !length_app. split_and!; [lia | lia | | done].
      unfold slice. rewrite <- length_app, app_assoc, drop_app_length.
      replace (length (pre ++ l) + length t - length (pre ++ l)) with (length t)
        by lia.
      by rewrite take_app_length.
    + specialize (IH (pre ++ l ++ t)).
      rewrite <- !app_assoc in IH.
      replace (length (pre ++ l ++ t)) with (length pre + length l + length t)
        in IH by (rewrite !length_app; lia).
      exact IH.
Qed.

(** X5: the matches of the scan are well placed: each span is non-empty and
    within the text, the text it delimits is the match and is a
    placeholder, and each match ends before the next begins. *)
Theorem placeholder_matches_spans (s : str) :
  Forall (λ x, x.1.1 < x.1.2 ≤ length s ∧
               slice x.1.1 x.1.2 s = x.2 ∧ is_placeholder x.2)
    (map match_span (finditer PLACEHOLDER_RE s)) ∧
  StronglySorted span_before (map match_span (finditer PLACEHOLDER_RE s)).
Proof.
  destruct (finditer_loop (S (length s)) 0 0 [] s) as (ps & Hscan & Hspans);
    simpl; try done; try lia.
  fold (finditer PLACEHOLDER_RE s) in Hspans. rewrite Hspans. simpl in Hscan.
  split; [apply (token_spans_slices ps [] s Hscan) | apply token_spans_sorted].
Qed.

(** X6: [is_paragraph_empty] depends on the paragraph only through
    [paragraph.text]: a paragraph is empty exactly when that text, the text
    of its hyperlinks included, has no character other than white space, so
    the pass over the single runs never changes the verdict of the first
    test. *)
Theorem is_paragraph_empty_text (p : Paragraph) :
  (is_paragraph_empty p = true ↔
   Forall (λ c, isspace c = true) (paragraph_text p)) ∧
  is_paragraph_empty p = negb (has_visible_text (paragraph_text p)).
Proof.
  assert (H : is_paragraph_empty p = true ↔
              Forall (λ c, isspace c = true) (paragraph_text p))
    by (by rewrite is_paragraph_empty_spec, blank_Forall).
  split; [done|].
  destruct (has_visible_text (paragraph_text p)) eqn:Hv; simpl.
  - unfold is_paragraph_empty. by rewrite Hv.
  - apply H. by apply has_visible_text_spec.
Qed.

Example is_paragraph_empty_link_sample :
  is_paragraph_empty link_paragraph = false ∧
  Forall (λ c, isspace c = true) (full_text_of link_paragraph).
Proof. split; [reflexivity|]. by repeat constructor. Qed.

(** The text of a paragraph is blank when the text of its runs and the text
    of its hyperlinks are. *)
Lemma paragraph_text_blank p :
  Forall (λ c, isspace c = true) (paragraph_text p) ↔
  Forall (λ c, isspace c = true) (full_text_of p) ∧
  Forall (λ c, isspace c = true) (hyperlink_text p).
Proof.
  unfold paragraph_text, full_text_of, runs, hyperlink_text.
  induction (p_content p) as [|[r|t] content IH]; simpl; [done| |].
  - rewrite !Forall_app, IH. tauto.
  - rewrite !Forall_app, IH. tauto.
Qed.

Lemma hyperlink_text_after p replacements :
  hyperlink_text (replace_placeholders_in_paragraph p replacements) =
  hyperlink_text p.
Proof.
  unfold replace_placeholders_in_paragraph.
  destruct (replace_placeholders_spec p replacements) as (ps & _ & ->).
  destruct (existsb is_token ps); [|done]. cbn [fst].
  unfold hyperlink_text, clear_runs. cbn [p_content].
  rewrite omap_app.
  assert (omap (λ i, match i with IHyperlink t => Some t | IRun _ => None end)
            (map IRun (built_runs
                         (piece_segments replacements (full_text_of p) ps)).1)
          = []) as ->.
  { by induction (built_runs _).1. }
  rewrite app_nil_r. f_equal.
  induction (p_content p) as [|[r|t] content IH]; simpl; [done|done|].
  by f_equal.
Qed.

(** X7: after a call that returned, a paragraph is empty exactly when the
    substituted text and the text of its hyperlinks have no character other
    than white space; a paragraph made of tokens mapped to empty strings
    and of white space becomes empty, and is then open to the trailing
    trim. *)
Theorem replaced_paragraph_empty (p : Paragraph) (replacements : gmap str str) :
  ∃ ps, Scan (full_text_of p) ps ∧
    (replace_placeholders_in_paragraph_outcome p replacements = Returns →
     (is_paragraph_empty (replace_placeholders_in_paragraph p replacements)
        = true
      ↔ Forall (λ c, isspace c = true) (substitute replacements ps) ∧
        Forall (λ c, isspace c = true) (hyperlink_text p))).
Proof.
  destruct (replace_placeholders_spec p replacements) as (ps & Hscan & _).
  exists ps. split; [done|]. intros Hret.
  rewrite is_paragraph_empty_spec, blank_Forall, paragraph_text_blank.
  rewrite hyperlink_text_after.
  rewrite (replace_placeholders_outcome p replacements ps Hscan) in Hret.
  destruct (existsb is_token ps) eqn:Htok.
  - destruct (xml_compatible (substitute replacements ps)) eqn:Hxml; [|done].
    rewrite (replaced_text_of_scan p replacements ps) by done.
    by rewrite isspace_docx_text.
  - unfold replace_placeholders_in_paragraph.
    rewrite (replace_placeholders_untouched p replacements ps) by done.
    cbn [fst]. rewrite substitute_no_token by done.
    by rewrite (Scan_source _ _ Hscan).
Qed.

Example replaced_paragraph_empty_sample :
  is_paragraph_empty
    (replace_placeholders_in_paragraph (sample_paragraph [" {{h"; "sn}} "])
       sample_replacements) = true.
Proof. vm_compute. reflexivity. Qed.

(** ** The traversal of the document tree *)

Lemma each_returns {A} (f : A → A * outcome) l :
  Forall (λ x, (f x).2 = Returns) l →
  each f l = (map (λ x, (f x).1) l, Returns).
Proof.
  induction 1 as [|x l Hx _ IH]; [done|].
  cbn [each map]. destruct (f x) as [x' o]. cbn [fst snd] in *. subst o.
  by rewrite IH.
Qed.

Lemma each_id {A} (f : A → A * outcome) l :
  Forall (λ x, f x = (x, Returns)) l → each f l = (l, Returns).
Proof.
  induction 1 as [|x l Hx _ IH]; [done|].
  cbn [each]. by rewrite Hx, IH.
Qed.




Lemma fold_visit_raised on_cell idxs cells :
  fold_left (visit on_cell) idxs (cells, Raises) = (cells, Raises).
Proof. induction idxs as [|i idxs IH]; [done|]. apply IH. Qed.



Lemma fold_visit_id on_cell idxs cells :
  Forall (λ c, on_cell c = (c, Returns)) cells →
  fold_left (visit on_cell) idxs (cells, Returns) = (cells, Returns).
Proof.
  intros Hid. induction idxs as [|i idxs IH]; [done|].
  cbn [fold_left]. unfold visit at 2. cbn [fst snd].
  destruct (cells !! i) as [c|] eqn:Hc; [|done].
  rewrite (Forall_lookup_1 _ cells i c Hid Hc).
  by rewrite list_insert_id.
Qed.

(** A table without merged cell is visited cell by cell, each once. *)
Lemma fold_visit_seq on_cell rest :
  ∀ seen,
    Forall (λ c, (on_cell c).2 = Returns) rest →
    fold_left (visit on_cell) (seq (length seen) (length rest))
      (seen ++ rest, Returns) =
    (seen ++ map (λ c, (on_cell c).1) rest, Returns).
Proof.
  induction rest as [|c rest IH]; intros seen Hret; [done|].
  apply Forall_cons in Hret as [Hc Hret].
  cbn [length seq fold_left map]. unfold visit at 2. cbn [fst snd].
  rewrite list_lookup_middle by reflexivity.
  destruct (on_cell c) as [c' o]. cbn [fst snd] in *. subst o.
  replace (<[length seen:=c']> (seen ++ c :: rest))
    with ((seen ++ [c']) ++ rest).
  2:{ rewrite <- (Nat.add_0_r (length seen)), insert_app_r.
      by rewrite <- app_assoc. }
  specialize (IH (seen ++ [c']) Hret).
  rewrite length_app in IH. cbn [length] in IH.
  rewrite Nat.add_1_r in IH. rewrite IH. by rewrite <- app_assoc.
Qed.

(** *** Fuel *)

Lemma item_depth_table cells grid :
  item_depth (ITable cells grid) = S (max_list (map nesting_depth cells)).
Proof. done. Qed.




Lemma nesting_depth_cell block cells grid c :
  ITable cells grid ∈ block → c ∈ cells →
  nesting_depth c < nesting_depth block.
Proof.
  intros Hin Hc. unfold nesting_depth at 2.
  assert (item_depth (ITable cells grid) ≤ max_list (map item_depth block)).
  { apply max_list_elem_of_le.
    change (map item_depth block) with (item_depth <$> block).
    by apply list_elem_of_fmap_2. }
  rewrite item_depth_table in H.
  assert (nesting_depth c ≤ max_list (map nesting_depth cells)); [|lia].
  apply max_list_elem_of_le.
  change (map nesting_depth cells) with (nesting_depth <$> cells).
  by apply list_elem_of_fmap_2.
Qed.






(** *** Every paragraph, once *)

Lemma concat_map_lift {A B} (g : A → A) (h : A → list B) (f : B → B) l :
  Forall (λ x, h (g x) = map f (h x)) l →
  concat (map h (map g l)) = map f (concat (map h l)).
Proof.
  induction 1 as [|x l Hx _ IH]; simpl; [done|].
  by rewrite map_app, Hx, IH.
Qed.

Lemma substituted_item_paragraphs replacements it :
  item_paragraphs (substituted_item replacements it) =
  map (λ p, replace_placeholders_in_paragraph p replacements)
    (item_paragraphs it).
Proof.
  induction it as [p | cells grid IH] using Item_deep_ind; [done|].
  cbn [substituted_item item_paragraphs].
  apply (concat_map_lift (map (substituted_item replacements))
           (λ cell, concat (map item_paragraphs cell))).
  eapply Forall_impl; [exact IH|]. intros cell Hcell. cbn beta.
  by apply concat_map_lift.
Qed.

Lemma replace_in_paragraphs_returns replacements block :
  Forall (λ p, replace_placeholders_in_paragraph_outcome p replacements
               = Returns) (paragraphs block) →
  replace_in_paragraphs replacements block =
    (map (λ it, match it with
                | IPara p =>
                    IPara (replace_placeholders_in_paragraph p replacements)
                | ITable _ _ => it
                end) block, Returns).
Proof.
  intros Hret. unfold replace_in_paragraphs. rewrite each_returns.
  - f_equal. apply map_ext. intros [p|cells grid]; [|done].
    unfold replace_placeholders_in_paragraph.
    by destruct (replace_placeholders_in_paragraph_call p replacements).
  - apply Forall_forall. intros [p|cells grid] Hin; [|done].
    rewrite Forall_forall in Hret.
    assert (Hp : p ∈ paragraphs block).
    { unfold paragraphs. apply list_elem_of_omap. by exists (IPara p). }
    specialize (Hret p Hp).
    unfold replace_placeholders_in_paragraph_outcome in Hret.
    by destruct (replace_placeholders_in_paragraph_call p replacements).
Qed.

Lemma elem_of_concat {A} (x : A) (ls : list (list A)) :
  x ∈ concat ls ↔ ∃ l, x ∈ l ∧ l ∈ ls.
Proof.
  induction ls as [|l ls IH]; simpl.
  - split; [by intros ?%elem_of_nil | by intros (l & _ & ?%elem_of_nil)].
  - rewrite elem_of_app, IH. split.
    + intros [Hx | (l' & Hx & Hl')]; [exists l | exists l'];
        (split; [done|]); [by left | by right].
    + intros (l' & Hx & [-> | Hl']%elem_of_cons); [by left|].
      right. by exists l'.
Qed.

Lemma paragraphs_in_block block p :
  p ∈ paragraphs block → p ∈ block_paragraphs block.
Proof.
  unfold paragraphs, block_paragraphs.
  intros ([q|cells grid] & Hin & [= ->])%list_elem_of_omap.
  apply elem_of_concat. exists [p]. split; [by left|].
  change [p] with (item_paragraphs (IPara p)).
  change (map item_paragraphs block) with (item_paragraphs <$> block).
  by apply list_elem_of_fmap_2.
Qed.

Lemma cell_paragraphs_in_block block cells grid c p :
  ITable cells grid ∈ block → c ∈ cells → p ∈ block_paragraphs c →
  p ∈ block_paragraphs block.
Proof.
  intros Hin Hc Hp. unfold block_paragraphs.
  apply elem_of_concat. exists (item_paragraphs (ITable cells grid)).
  split.
  - cbn [item_paragraphs]. apply elem_of_concat.
    exists (block_paragraphs c). split; [done|].
    change (map (λ cell, concat (map item_paragraphs cell)) cells)
      with (block_paragraphs <$> cells).
    by apply list_elem_of_fmap_2.
  - change (map item_paragraphs block) with (item_paragraphs <$> block).
    by apply list_elem_of_fmap_2.
Qed.

(** On a block without merged cell whose paragraphs all go through, the
    traversal returns the block with every paragraph substituted once. *)
Lemma replace_in_block_unmerged replacements fuel :
  ∀ block,
    nesting_depth block ≤ fuel → unmerged block = true →
    Forall (λ p, replace_placeholders_in_paragraph_outcome p replacements
                 = Returns) (block_paragraphs block) →
    replace_in_block fuel replacements block =
      (map (substituted_item replacements) block, Returns).
Proof.
  induction fuel as [|fuel IH]; intros block Hfuel Hun Hret.
  - cbn [replace_in_block]. rewrite replace_in_paragraphs_returns.
    2:{ rewrite Forall_forall in *. intros p Hp.
        by apply Hret, paragraphs_in_block. }
    f_equal. apply map_ext_in. intros [p|cells grid] Hin; [done|].
    apply list_elem_of_In in Hin.
    assert (item_depth (ITable cells grid) ≤ nesting_depth block).
    { apply max_list_elem_of_le.
      change (map item_depth block) with (item_depth <$> block).
      by apply list_elem_of_fmap_2. }
    rewrite item_depth_table in H. lia.
  - cbn [replace_in_block]. rewrite replace_in_paragraphs_returns.
    2:{ rewrite Forall_forall in *. intros p Hp.
        by apply Hret, paragraphs_in_block. }
    unfold replace_in_tables. rewrite each_returns.
    + rewrite map_map. f_equal. apply map_ext_in.
      intros [p|cells grid] Hin%list_elem_of_In; [done|].
      cbn [substituted_item]. unfold replace_in_table. cbn [fst snd].
      unfold unmerged in Hun. rewrite forallb_forall in Hun.
      specialize (Hun _ (proj1 (list_elem_of_In _ _) Hin)).
      cbn [item_unmerged] in Hun. apply andb_true_iff in Hun as [Hgrid Hcells].
      apply bool_decide_eq_true in Hgrid. rewrite Hgrid.
      rewrite (fold_visit_seq _ cells []).
      * cbn [app fst]. f_equal. apply map_ext_in.
        intros c Hc%list_elem_of_In. rewrite IH; [done| | |].
        -- pose proof (nesting_depth_cell _ _ _ _ Hin Hc). lia.
        -- rewrite forallb_forall in Hcells.
           by apply Hcells, list_elem_of_In.
        -- rewrite Forall_forall in *. intros p Hp.
           by apply Hret, (cell_paragraphs_in_block _ cells grid c).
      * apply Forall_forall. intros c Hc. rewrite IH; [done| | |].
        -- pose proof (nesting_depth_cell _ _ _ _ Hin Hc). lia.
        -- rewrite forallb_forall in Hcells.
           by apply Hcells, list_elem_of_In.
        -- rewrite Forall_forall in *. intros p Hp.
           by apply Hret, (cell_paragraphs_in_block _ cells grid c).
    + apply Forall_forall. intros it Hit.
      apply list_elem_of_fmap in Hit as ([p|cells grid] & -> & Hin); [done|].
      unfold replace_in_table. cbn [fst snd].
      unfold unmerged in Hun. rewrite forallb_forall in Hun.
      specialize (Hun _ (proj1 (list_elem_of_In _ _) Hin)).
      cbn [item_unmerged] in Hun. apply andb_true_iff in Hun as [Hgrid Hcells].
      apply bool_decide_eq_true in Hgrid. rewrite Hgrid.
      rewrite (fold_visit_seq _ cells []); [done|].
      apply Forall_forall. intros c Hc. rewrite IH; [done| | |].
      * pose proof (nesting_depth_cell _ _ _ _ Hin Hc). lia.
      * rewrite forallb_forall in Hcells. by apply Hcells, list_elem_of_In.
      * rewrite Forall_forall in *. intros p Hp.
        by apply Hret, (cell_paragraphs_in_block _ cells grid c).
Qed.

(** X8: in a block without merged cell whose paragraphs all go through,
    the traversal returns, having reached every paragraph of the block, at
    any depth of table nesting, and replaced it by what one call makes of
    it; the children of the block keep their number, kind and order. *)
Theorem replace_placeholders_in_block_paragraphs (block : Block)
    (replacements : gmap str str) :
  unmerged block = true →
  Forall (λ p, replace_placeholders_in_paragraph_outcome p replacements
               = Returns) (block_paragraphs block) →
  (replace_placeholders_in_block_call block replacements).2 = Returns ∧
  block_paragraphs (replace_placeholders_in_block block replacements) =
    map (λ p, replace_placeholders_in_paragraph p replacements)
      (block_paragraphs block) ∧
  map is_para (replace_placeholders_in_block block replacements) =
    map is_para block ∧
  paragraphs (replace_placeholders_in_block block replacements) =
    map (λ p, replace_placeholders_in_paragraph p replacements)
      (paragraphs block).
Proof.
  intros Hun Hret.
  unfold replace_placeholders_in_block, replace_placeholders_in_block_call.
  rewrite replace_in_block_unmerged by done. cbn [fst snd].
  unfold block_paragraphs. split_and!.
  - done.
  - apply concat_map_lift, Forall_forall. intros it _.
    apply substituted_item_paragraphs.
  - rewrite map_map. apply map_ext. by intros [p|cells grid].
  - unfold paragraphs. clear.
    induction block as [|[p|cells grid] block IH]; simpl; [done| |done].
    by f_equal.
Qed.

Lemma replace_placeholders_in_block_paragraphs_witness :
  (replace_placeholders_in_block_call
     [IPara (sample_paragraph ["Date: {{date}}"]);
      ITable [[IPara (sample_paragraph ["HSN {{hsn}}"])]] [[0]]]
     sample_replacements).2 = Returns ∧
  block_paragraphs
    (replace_placeholders_in_block
       [IPara (sample_paragraph ["Date: {{date}}"]);
        ITable [[IPara (sample_paragraph ["HSN {{hsn}}"])]] [[0]]]
       sample_replacements) =
    map (λ p, replace_placeholders_in_paragraph p sample_replacements)
      (block_paragraphs
         [IPara (sample_paragraph ["Date: {{date}}"]);
          ITable [[IPara (sample_paragraph ["HSN {{hsn}}"])]] [[0]]]) ∧
  map is_para
    (replace_placeholders_in_block
       [IPara (sample_paragraph ["Date: {{date}}"]);
        ITable [[IPara (sample_paragraph ["HSN {{hsn}}"])]] [[0]]]
       sample_replacements) =
    map is_para
      [IPara (sample_paragraph ["Date: {{date}}"]);
       ITable [[IPara (sample_paragraph ["HSN {{hsn}}"])]] [[0]]] ∧
  paragraphs
    (replace_placeholders_in_block
       [IPara (sample_paragraph ["Date: {{date}}"]);
        ITable [[IPara (sample_paragraph ["HSN {{hsn}}"])]] [[0]]]
       sample_replacements) =
    map (λ p, replace_placeholders_in_paragraph p sample_replacements)
      (paragraphs
         [IPara (sample_paragraph ["Date: {{date}}"]);
          ITable [[IPara (sample_paragraph ["HSN {{hsn}}"])]] [[0]]]).
Proof.
  apply (replace_placeholders_in_block_paragraphs
           [IPara (sample_paragraph ["Date: {{date}}"]);
            ITable [[IPara (sample_paragraph ["HSN {{hsn}}"])]] [[0]]]
           sample_replacements).
  - reflexivity.
  - repeat constructor.
Defined.

(** A cell that spans two grid columns is visited twice: the second visit
    finds the token the first left in place, empties the runs the first
    built and builds them anew, without the bold of a paragraph-bold token
    that is no longer in the text. *)
Example merged_cell_sample :
  map (λ p, map (λ r, (r_text r, r_bold r)) (runs p))
    (block_paragraphs
       (replace_placeholders_in_block merged_block sample_replacements)) =
  [[([], Some false); ([], Some true); ([], Some true); ([], Some true);
    ([], Some true); (lit "Total 1020.00 ", None); (lit "{{x}}", None)]] ∧
  map (λ p, map (λ r, (r_text r, r_bold r))
              (runs (replace_placeholders_in_paragraph p sample_replacements)))
    (block_paragraphs merged_block) =
  [[([], Some false); (lit "Total ", Some true); (lit "1020.00", Some true);
    (lit " ", Some true); (lit "{{x}}", Some true)]].
Proof. vm_compute. done. Qed.

(** *** No placeholder, no change *)

Lemma replace_in_block_noop replacements fuel :
  ∀ block,
    Forall (λ p, ¬ substring (lit "{{") (full_text_of p))
      (block_paragraphs block) →
    replace_in_block fuel replacements block = (block, Returns).
Proof.
  assert (Hpar : ∀ block,
            Forall (λ p, ¬ substring (lit "{{") (full_text_of p))
              (block_paragraphs block) →
            replace_in_paragraphs replacements block = (block, Returns)).
  { intros block Hall. apply each_id, Forall_forall.
    intros [p|cells grid] Hin; [|done].
    rewrite replace_not_found; [done|].
    intros i Hi. rewrite Forall_forall in Hall. apply (Hall p).
    - apply paragraphs_in_block. unfold paragraphs.
      apply list_elem_of_omap. by exists (IPara p).
    - by apply (occurs_at_braces i). }
  induction fuel as [|fuel IH]; intros block Hall; cbn [replace_in_block];
    rewrite Hpar by done; [done|].
  apply each_id, Forall_forall. intros [p|cells grid] Hin; [done|].
  unfold replace_in_table. cbn [fst snd].
  rewrite fold_visit_id; [done|].
  apply Forall_forall. intros c Hc. apply IH.
  rewrite Forall_forall in *. intros p Hp.
  by apply Hall, (cell_paragraphs_in_block _ cells grid c).
Qed.

(** X9: a block in which no paragraph, at any depth, has an open
    double-brace in its text goes through the traversal unchanged. *)
Theorem replace_placeholders_in_block_noop (block : Block)
    (replacements : gmap str str) :
  Forall (λ p, ¬ substring (lit "{{") (full_text_of p))
    (block_paragraphs block) →
  replace_placeholders_in_block block replacements = block.
Proof.
  intros Hall.
  unfold replace_placeholders_in_block, replace_placeholders_in_block_call.
  by rewrite replace_in_block_noop.
Qed.

Lemma replace_placeholders_in_block_noop_witness :
  replace_placeholders_in_block sample_block sample_replacements = sample_block.
Proof.
  apply (replace_placeholders_in_block_noop sample_block sample_replacements).
  repeat constructor; intros H%contains_spec; vm_compute in H; discriminate H.
Defined.

(** ** The trailing trim, again *)

Lemma trim_unchanged block :
  (∀ p, last (paragraphs block) = Some p → ¬ blank p) →
  remove_trailing_empty_paragraphs_from_block block = Some block.
Proof.
  intros Hlast. unfold remove_trailing_empty_paragraphs_from_block. simpl.
  destruct (last (paragraphs block)) as [p|] eqn:Hp; [|done].
  destruct (is_paragraph_empty p) eqn:He; [|done].
  apply is_paragraph_empty_spec in He. by destruct (Hlast p).
Qed.

(** X10: the trim leaves a block as it is exactly when the block has no
    paragraph or its last paragraph is not empty. *)
Theorem remove_trailing_unchanged_iff (block : Block) :
  remove_trailing_empty_paragraphs_from_block block = Some block ↔
  (∀ p, last (paragraphs block) = Some p → ¬ blank p).
Proof.
  split; [|apply trim_unchanged].
  intros Hrun p Hp Hblank.
  unfold remove_trailing_empty_paragraphs_from_block in Hrun. simpl in Hrun.
  rewrite Hp in Hrun. apply is_paragraph_empty_spec in Hblank.
  rewrite Hblank in Hrun.
  pose proof (last_removelast _ _ Hp) as Hsplit.
  destruct (trim_loop_spec (length (paragraphs block))
              (remove_last_paragraph block))
    as (block' & removed & Hrun' & _ & Hpar & _).
  { rewrite remove_last_paragraph_paragraphs.
    rewrite Hsplit at 2. rewrite length_app. simpl. lia. }
  rewrite Hrun' in Hrun. injection Hrun as ->.
  rewrite remove_last_paragraph_paragraphs in Hpar.
  assert (Hlen : length (removelast (paragraphs block)) =
                 length (paragraphs block ++ removed)) by (by rewrite <- Hpar).
  rewrite Hsplit in Hlen at 2. rewrite !length_app in Hlen. simpl in Hlen. lia.
Qed.

(** X11: trimming twice is trimming once. *)
Theorem remove_trailing_idempotent (block : Block) :
  remove_trailing_empty_paragraphs_from_block block
    ≫= remove_trailing_empty_paragraphs_from_block =
  remove_trailing_empty_paragraphs_from_block block.
Proof.
  destruct (trim_loop_spec (S (length (paragraphs block))) block)
    as (block' & removed & Hrun & _ & _ & _ & Hstop & _); [lia|].
  change (trim_loop (S (length (paragraphs block))) block)
    with (remove_trailing_empty_paragraphs_from_block block) in Hrun.
  rewrite Hrun.
  change (remove_trailing_empty_paragraphs_from_block block' = Some block').
  by apply trim_unchanged.
Qed.

(** ** The next invoice suffix, again *)

Lemma fold_suffix_step_unique pattern files files' :
  (∀ f, f ∈ files ↔ f ∈ files') →
  fold_left (suffix_step pattern) files 0%N =
  fold_left (suffix_step pattern) files' 0%N.
Proof.
  intros Hsame.
  destruct (fold_suffix_step pattern files 0%N) as (_ & Hall & Hex).
  destruct (fold_suffix_step pattern files' 0%N) as (_ & Hall' & Hex').
  cbn zeta in *. apply N.le_antisymm.
  - destruct Hex as [-> | (f & Hf & Hv)]; [lia|].
    apply (Hall' f); [by apply Hsame | done].
  - destruct Hex' as [-> | (f & Hf & Hv)]; [lia|].
    apply (Hall f); [by apply Hsame | done].
Qed.

(** X12: the result depends only on which names the directory holds, not
    on the order in which the listing yields them nor on repetitions. *)
Theorem get_next_suffix_for_month_order (month_year : str)
    (output_dir output_dir' : list str) :
  (∀ name, name ∈ output_dir ↔ name ∈ output_dir') →
  get_next_suffix_for_month month_year output_dir =
  get_next_suffix_for_month month_year output_dir'.
Proof.
  intros Hsame. unfold get_next_suffix_for_month. cbn zeta. do 2 f_equal.
  apply fold_suffix_step_unique. intros f.
  rewrite !list_elem_of_In, !filter_In, <- !list_elem_of_In. by rewrite Hsame.
Qed.

Lemma get_next_suffix_for_month_order_witness :
  get_next_suffix_for_month (lit "0125")
    (map lit ["GB-0125-03.pdf"; "GB-0125-01.pdf"]%string) =
  get_next_suffix_for_month (lit "0125")
    (map lit ["GB-0125-01.pdf"; "GB-0125-03.pdf"; "GB-0125-01.pdf"]%string).
Proof.
  apply (get_next_suffix_for_month_order (lit "0125")).
  intros name. cbn [map]. rewrite !elem_of_cons, !elem_of_nil. tauto.
Defined.

(** X13: more files never lower the number: if every name of one listing
    is in another, the suffix computed on the first is at most the suffix
    computed on the second. *)
Theorem get_next_suffix_for_month_monotone (month_year : str)
    (output_dir output_dir' : list str) :
  (∀ name, name ∈ output_dir → name ∈ output_dir') →
  ∃ n n',
    py_int (get_next_suffix_for_month month_year output_dir) = Some n ∧
    py_int (get_next_suffix_for_month month_year output_dir') = Some n' ∧
    (n ≤ n')%N.
Proof.
  intros Hsub. unfold get_next_suffix_for_month. cbn zeta.
  set (pat := suffix_pattern month_year).
  destruct (fold_suffix_step pat (List.filter is_pdf output_dir) 0%N)
    as (_ & _ & Hex).
  destruct (fold_suffix_step pat (List.filter is_pdf output_dir') 0%N)
    as (_ & Hall' & _).
  cbn zeta in *.
  set (mx := fold_left _ (List.filter is_pdf output_dir) 0%N) in *.
  set (mx' := fold_left _ (List.filter is_pdf output_dir') 0%N) in *.
  exists (mx + 1)%N, (mx' + 1)%N.
  destruct (format_02d_spec (mx + 1)) as [-> _].
  destruct (format_02d_spec (mx' + 1)) as [-> _].
  split_and!; [done | done |].
  destruct Hex as [-> | (f & Hf & Hv)]; [lia|].
  assert (mx ≤ mx')%N; [|lia]. apply (Hall' f); [|done].
  apply list_elem_of_In, filter_In in Hf as [Hin Hpdf].
  apply list_elem_of_In, filter_In. split; [|done].
  by apply list_elem_of_In, Hsub, list_elem_of_In.
Qed.

Lemma get_next_suffix_for_month_monotone_witness :
  ∃ n n',
    py_int (get_next_suffix_for_month (lit "0125")
              [lit "GB-0125-03.pdf"]) = Some n ∧
    py_int (get_next_suffix_for_month (lit "0125")
              (map lit ["GB-0125-11.pdf"; "GB-0125-03.pdf"]%string)) = Some n' ∧
    (n ≤ n')%N.
Proof.
  apply (get_next_suffix_for_month_monotone (lit "0125")).
  intros name. cbn [map]. rewrite !elem_of_cons, !elem_of_nil. tauto.
Defined.

Lemma rfind_dot_pdf x : rfind_dot (x ++ lit ".pdf") = Some (length x).
Proof.
  induction x as [|c x IH]; [reflexivity|].
  cbn [app rfind_dot length]. by rewrite IH.
Qed.

Lemma stem_pdf x : x ≠ [] → stem (x ++ lit ".pdf") = x.
Proof.
  intros Hx. unfold stem. rewrite rfind_dot_pdf.
  assert ((0 <? length x) = true) as -> by (destruct x; [done | reflexivity]).
  assert ((length x <? length (x ++ lit ".pdf") - 1) = true) as ->.
  { apply Nat.ltb_lt. rewrite length_app. simpl. lia. }
  simpl. by rewrite take_app_length.
Qed.

Lemma is_pdf_app x : is_pdf (x ++ lit ".pdf") = true.
Proof.
  unfold is_pdf, endswith. apply startswith_spec.
  rewrite rev_app_distr. by eexists.
Qed.

Lemma stored_name_first_token month_year ds :
  ds ≠ [] → Forall (λ c, isdigit_char c = true) ds →
  first_token month_year (stem (stored_name month_year ds)) ds.
Proof.
  intros Hne Hd. unfold stored_name.
  rewrite !app_assoc, stem_pdf by (by destruct ds).
  rewrite <- !app_assoc.
  exists (lit "G_BUILDCON_Invoice_-_"), []. split_and!; try done.
  - by rewrite app_nil_r.
  - intros i Hi (d & rest & _ & Heq). unfold token_head in Heq.
    do 21 (destruct i as [|i]; [discriminate Heq|]). simpl in Hi. lia.
Qed.

(** X14: a stored invoice is counted: when the directory holds the PDF the
    program keeps for invoice [GB-<MMYY>-<digits>], the next suffix for
    that month is a number above that invoice's. *)
Theorem get_next_suffix_for_month_fresh (month_year ds : str)
    (output_dir : list str) :
  ds ≠ [] → Forall (λ c, isdigit_char c = true) ds →
  stored_name month_year ds ∈ output_dir →
  ∃ n, py_int (get_next_suffix_for_month month_year output_dir) = Some n ∧
       (digits_value ds < n)%N.
Proof.
  intros Hne Hd Hin. unfold get_next_suffix_for_month. cbn zeta.
  destruct (fold_suffix_step (suffix_pattern month_year)
              (List.filter is_pdf output_dir) 0%N) as (_ & Hall & _).
  cbn zeta in Hall.
  set (mx := fold_left _ (List.filter is_pdf output_dir) 0%N) in *.
  exists (mx + 1)%N. destruct (format_02d_spec (mx + 1)) as [-> _].
  split; [done|].
  pose proof (suffix_of_spec month_year (stored_name month_year ds)) as Hspec.
  pose proof (stored_name_first_token month_year ds Hne Hd) as Hft.
  destruct (suffix_of (suffix_pattern month_year) (stored_name month_year ds))
    as [v|] eqn:Hv.
  - destruct Hspec as (ds' & Hft' & <-).
    rewrite (first_token_unique _ _ _ _ Hft Hft').
    assert (digits_value ds' ≤ mx)%N; [|lia].
    apply (Hall (stored_name month_year ds)); [|done].
    apply list_elem_of_In, filter_In. split; [by apply list_elem_of_In|].
    unfold stored_name. rewrite !app_assoc. apply is_pdf_app.
  - exfalso. destruct Hft as (pre & post & Heq & _).
    apply (Hspec (length pre)). rewrite Heq. by apply first_token_at.
Qed.

Lemma get_next_suffix_for_month_fresh_witness :
  ∃ n, py_int (get_next_suffix_for_month (lit "0125")
                 (map lit ["notes.txt"; "G_BUILDCON_Invoice_-_GB-0125-07.pdf"]%string))
       = Some n ∧ (digits_value (lit "07") < n)%N.
Proof.
  apply (get_next_suffix_for_month_fresh (lit "0125") (lit "07")).
  - discriminate.
  - repeat constructor.
  - cbn [map]. right. left.
Defined.

(** ** The list of invoices *)

Lemma str_leb_total a b : str_leb a b = true ∨ str_leb b a = true.
Proof.
  revert b. induction a as [|x a IH]; intros [|y b]; simpl; auto.
  destruct (Nat.ltb_spec (nat_of_ascii x) (nat_of_ascii y)); simpl; [auto|].
  destruct (Nat.ltb_spec (nat_of_ascii y) (nat_of_ascii x)); simpl; [auto|].
  assert (nat_of_ascii x = nat_of_ascii y) as Heq by lia.
  rewrite Heq, Nat.eqb_refl. simpl. apply IH.
Qed.

Lemma str_leb_trans a b c :
  str_leb a b = true → str_leb b c = true → str_leb a c = true.
Proof.
  revert b c. induction a as [|x a IH]; intros [|y b] [|z c]; simpl; try done.
  rewrite !orb_true_iff, !andb_true_iff, !Nat.ltb_lt, !Nat.eqb_eq.
  intros [Hxy | [Hxy Hab]] [Hyz | [Hyz Hbc]].
  - left. lia.
  - left. lia.
  - left. lia.
  - right. split; [lia|]. by apply (IH b).
Qed.

#[global] Instance name_ge_total : Total name_ge.
Proof. intros a b. unfold name_ge. destruct (str_leb_total a b); auto. Qed.

#[global] Instance name_ge_trans : Transitive name_ge.
Proof. intros a b c Hab Hbc. unfold name_ge in *. by apply (str_leb_trans c b a). Qed.

Lemma list_existing_invoices_filenames url_for output_dir :
  map e_filename (list_existing_invoices url_for output_dir) =
  merge_sort name_ge (List.filter is_pdf output_dir).
Proof.
  unfold list_existing_invoices. rewrite map_map. apply map_id.
Qed.

(** X15: the list holds exactly the names of the directory that end in
    [.pdf], each as often as the listing has it, from the largest name down:
    every entry's file name is at or above those of the entries after it. *)
Theorem list_existing_invoices_sorted (url_for : str → option str)
    (output_dir : list str) :
  map e_filename (list_existing_invoices url_for output_dir) ≡ₚ
    List.filter is_pdf output_dir ∧
  StronglySorted name_ge
    (map e_filename (list_existing_invoices url_for output_dir)).
Proof.
  rewrite list_existing_invoices_filenames. split.
  - apply merge_sort_Permutation.
  - apply StronglySorted_merge_sort; apply _.
Qed.

Lemma search_from_suffix r s :
  ∀ pos m, search_from r pos s = Some m →
    ∃ pre s', s = pre ++ s' ∧ match_here r s' = Some (m_items m).
Proof.
  induction s as [|c s IH]; intros pos m; cbn [search_from].
  - destruct (match_here r []) as [gs|] eqn:Hm; [|done].
    intros [= <-]. by exists [], [].
  - destruct (match_here r (c :: s)) as [gs|] eqn:Hm.
    + intros [= <-]. by exists [], (c :: s).
    + intros (pre & s' & -> & Hs')%IH. by exists (c :: pre), s'.
Qed.

Lemma match_here_one a r c s :
  match_here (One a :: r) (c :: s) =
    if accepts a c then cons [c] <$> match_here r s else None.
Proof. done. Qed.

Lemma match_invoice_no s gs :
  match_here INVOICE_NO_RE s = Some gs →
  is_invoice_no (concat gs) ∧ concat gs `prefix_of` s.
Proof.
  unfold INVOICE_NO_RE.
  destruct s as [|c1 s]; [done|]. rewrite match_here_one.
  destruct (accepts (Ch "G") c1) eqn:H1; [|done].
  destruct s as [|c2 s]; [done|]. rewrite match_here_one.
  destruct (accepts (Ch "B") c2) eqn:H2; [|done].
  destruct s as [|c3 s]; [done|]. rewrite match_here_one.
  destruct (accepts (Ch "-") c3) eqn:H3; [|done].
  destruct s as [|d1 s]; [done|]. rewrite match_here_one.
  destruct (accepts Digit d1) eqn:D1; [|done].
  destruct s as [|d2 s]; [done|]. rewrite match_here_one.
  destruct (accepts Digit d2) eqn:D2; [|done].
  destruct s as [|d3 s]; [done|]. rewrite match_here_one.
  destruct (accepts Digit d3) eqn:D3; [|done].
  destruct s as [|d4 s]; [done|]. rewrite match_here_one.
  destruct (accepts Digit d4) eqn:D4; [|done].
  destruct s as [|c4 s]; [done|]. rewrite match_here_one.
  destruct (accepts (Ch "-") c4) eqn:H4; [|done].
  cbn [match_here]. rewrite match_plus_digit by done.
  pose proof (span_digits_app s) as Happ.
  pose proof (span_digits_digits s) as Hd.
  destruct (span_digits s) as [[|d ds] rest]; [done|]. cbn [fst snd] in *.
  cbn [fmap option_fmap option_map]. intros [= <-].
  apply bool_decide_eq_true in H1, H2, H3, H4. subst c1 c2 c3 c4.
  cbn [accepts] in D1, D2, D3, D4. cbn [concat app]. split.
  - exists [d1; d2; d3; d4], (d :: ds). split_and!; try done.
    + unfold token_head. cbn. by rewrite app_nil_r.
    + repeat constructor; done.
  - exists rest. rewrite Happ, app_nil_r. reflexivity.
Qed.

Lemma replace_char_spec old new s :
  length (replace_char old new s) = length s ∧
  (old ≠ new → old ∉ replace_char old new s) ∧
  Forall2 (λ c d, d = if bool_decide (c = old) then new else c)
    s (replace_char old new s).
Proof.
  unfold replace_char. split_and!.
  - apply length_map.
  - intros Hne Hin. apply list_elem_of_In, in_map_iff in Hin as (c & Hc & _).
    case_bool_decide; congruence.
  - rewrite Forall2_fmap_r. apply Forall_Forall2_diag, Forall_forall. done.
Qed.

(** X16: every entry of the list is made from one PDF name of the
    directory: its display name is that name with each underscore turned
    into a blank and nothing else changed; its invoice number is empty or
    a token [GB-], four digits, [-], digits that occurs in the name; its
    URL is the one [url_for] gave or [/download/] followed by the name. *)
Theorem list_existing_invoices_entries (url_for : str → option str)
    (output_dir : list str) :
  Forall
    (λ e,
       e_filename e ∈ output_dir ∧ is_pdf (e_filename e) = true ∧
       length (e_display_name e) = length (e_filename e) ∧
       ("_"%char ∉ e_display_name e) ∧
       Forall2 (λ c d, d = if bool_decide (c = "_"%char) then " "%char else c)
         (e_filename e) (e_display_name e) ∧
       (e_invoice_no e = [] ∨
        (is_invoice_no (e_invoice_no e) ∧
         substring (e_invoice_no e) (e_filename e))) ∧
       (url_for (e_filename e) = Some (e_url e) ∨
        (url_for (e_filename e) = None ∧
         e_url e = lit "/download/" ++ e_filename e)))
    (list_existing_invoices url_for output_dir).
Proof.
  unfold list_existing_invoices. rewrite Forall_fmap. apply Forall_forall.
  intros name Hin. rewrite merge_sort_Permutation in Hin.
  apply list_elem_of_In, filter_In in Hin as [Hin Hpdf].
  destruct (replace_char_spec "_" " " name) as (Hlen & Hno & Hall).
  cbn [e_filename e_display_name e_invoice_no e_url invoice_entry_of compose].
  split_and!; try done.
  - by apply list_elem_of_In.
  - by apply Hno.
  - unfold search.
    destruct (search_from INVOICE_NO_RE 0 name) as [m|] eqn:Hs; [|by left].
    right. apply search_from_suffix in Hs as (pre & s' & -> & Hm).
    apply match_invoice_no in Hm as [Hno' [rest ->]]. split; [done|].
    by exists pre, rest.
  - destruct (url_for name); simpl; auto.
Qed.

Lemma search_from_skip r pos c s :
  match_here r (c :: s) = None →
  search_from r pos (c :: s) = search_from r (S pos) s.
Proof. intros H. cbn [search_from]. by rewrite H. Qed.

Lemma search_from_hit r pos s gs :
  match_here r s = Some gs →
  search_from r pos s = Some (Match pos (pos + length (concat gs)) gs).
Proof. intros H. destruct s; cbn [search_from]; by rewrite H. Qed.

Lemma match_invoice_no_head c s :
  c ≠ "G"%char → match_here INVOICE_NO_RE (c :: s) = None.
Proof.
  intros Hc. unfold INVOICE_NO_RE. rewrite match_here_one. simpl.
  by rewrite bool_decide_eq_false_2.
Qed.

Lemma match_invoice_no_stored month_year ds rest :
  length month_year = 4 →
  Forall (λ c, isdigit_char c = true) month_year →
  ds ≠ [] → Forall (λ c, isdigit_char c = true) ds →
  (∀ c, head rest = Some c → isdigit_char c = false) →
  ∃ gs, match_here INVOICE_NO_RE (token_head month_year ++ ds ++ rest) = Some gs ∧
        concat gs = token_head month_year ++ ds.
Proof.
  intros Hlen Hmy Hne Hds Hrest.
  destruct month_year as [|d1 [|d2 [|d3 [|d4 [|? ?]]]]]; try done.
  apply Forall_cons in Hmy as [D1 Hmy]. apply Forall_cons in Hmy as [D2 Hmy].
  apply Forall_cons in Hmy as [D3 Hmy]. apply Forall_cons in Hmy as [D4 _].
  unfold token_head, INVOICE_NO_RE. cbn [lit list_ascii_of_string app].
  rewrite !match_here_one. cbn [accepts].
  rewrite !bool_decide_eq_true_2 by done. rewrite D1, D2, D3, D4.
  cbn [match_here]. rewrite match_plus_digit by done.
  rewrite span_digits_unique by done. destruct ds as [|d ds]; [done|].
  eexists. split; [reflexivity|]. cbn. by rewrite app_nil_r.
Qed.

(** X17: the invoice number is read back from a stored name: for a month
    of four digits and a suffix of digits, the entry made from the name the
    program keeps the PDF under has the invoice number
    [GB-<MMYY>-<suffix>]. *)
Theorem invoice_entry_of_stored_name (url_for : str → option str)
    (month_year ds : str) :
  length month_year = 4 →
  Forall (λ c, isdigit_char c = true) month_year →
  ds ≠ [] → Forall (λ c, isdigit_char c = true) ds →
  e_invoice_no (invoice_entry_of url_for (stored_name month_year ds)) =
    token_head month_year ++ ds.
Proof.
  intros Hlen Hmy Hne Hds.
  destruct (match_invoice_no_stored month_year ds (lit ".pdf") Hlen Hmy Hne Hds)
    as (gs & Hgs & Hcat); [by intros c [= <-]|].
  unfold invoice_entry_of, stored_name, search. cbn [e_invoice_no].
  cbn [lit list_ascii_of_string app].
  rewrite search_from_skip.
  2:{ unfold INVOICE_NO_RE. by rewrite !match_here_one. }
  do 20 (rewrite search_from_skip by (by apply match_invoice_no_head)).
  rewrite (search_from_hit _ _ _ _ Hgs).
  unfold group0. cbn [m_items]. by rewrite Hcat.
Qed.

Lemma invoice_entry_of_stored_name_witness :
  e_invoice_no (invoice_entry_of (λ _, None) (stored_name (lit "0125") (lit "07")))
  = token_head (lit "0125") ++ lit "07".
Proof.
  apply (invoice_entry_of_stored_name (λ _, None) (lit "0125") (lit "07")).
  - reflexivity.
  - repeat constructor.
  - discriminate.
  - repeat constructor.
Defined.

(** ** The download handler *)

Section DownloadFacts.

Variable resolves_inside : str → option bool.
Variable path_exists : str → bool.

(** X18: a name that contains a slash, a backslash or two dots in a row is
    refused with status 400 before the file system is touched, whether or
    not such a file exists. *)
Theorem download_file_rejects_traversal (filename : str) :
  substring (lit "/") filename ∨ substring (lit "\") filename ∨
  substring (lit "..") filename →
  download_file resolves_inside path_exists filename = ([], Returned 400 []).
Proof.
  rewrite <- !contains_spec. intros H. unfold download_file.
  assert (contains (lit "/") filename || contains (lit "\") filename
          || contains (lit "..") filename = true) as ->; [|done].
  rewrite !orb_true_iff. tauto.
Qed.

(** X19: a file is sent only for a name without slash, backslash or double
    dot, whose path resolves inside the output directory, which exists, and
    which ends in [.pdf] in some letter case; it is then sent from
    [output/] under the name with underscores turned into blanks.  Every
    other request ends with status 400 or 404 and sends nothing. *)
Theorem download_file_sends_only_pdf (filename : str) :
  let '(events, r) := download_file resolves_inside path_exists filename in
  (r = Returned 200 (lit "output/" ++ filename) ∧
   ¬ substring (lit "/") filename ∧ ¬ substring (lit "\") filename ∧
   ¬ substring (lit "..") filename ∧
   resolves_inside (lit "output/" ++ filename) = Some true ∧
   path_exists (lit "output/" ++ filename) = true ∧
   endswith (lit ".pdf") (lower filename) = true ∧
   List.filter is_send events =
     [FsSend (lit "output/" ++ filename) (replace_char "_" " " filename)]) ∨
  ((r = Returned 400 [] ∨ r = Returned 404 []) ∧
   List.filter is_send events = []).
Proof.
  unfold download_file.
  destruct (contains (lit "/") filename) eqn:H1; [right; auto|].
  destruct (contains (lit "\") filename) eqn:H2; [right; auto|].
  destruct (contains (lit "..") filename) eqn:H3; [right; auto|].
  cbn [orb].
  destruct (resolves_inside (lit "output/" ++ filename)) as [[]|] eqn:Hr;
    [|right; auto|right; auto].
  destruct (path_exists (lit "output/" ++ filename)) eqn:He; [|right; auto].
  cbn [negb].
  destruct (endswith (lit ".pdf") (lower filename)) eqn:Hp; [|right; auto].
  left. cbn [negb]. split_and!; try done.
  - rewrite <- contains_spec. congruence.
  - rewrite <- contains_spec. congruence.
  - rewrite <- contains_spec. congruence.
Qed.

End DownloadFacts.

Lemma download_file_rejects_traversal_witness :
  download_file (λ _, Some true) (λ _, true) (lit "../../etc/passwd") =
    ([], Returned 400 []).
Proof.
  apply (download_file_rejects_traversal (λ _, Some true) (λ _, true)
           (lit "../../etc/passwd")).
  left. apply contains_spec. vm_compute. reflexivity.
Defined.

Example download_file_sample :
  download_file (λ _, Some true) (λ _, true)
    (lit "G_BUILDCON_Invoice_-_GB-0125-07.PDF") =
  ([FsResolve (lit "output/G_BUILDCON_Invoice_-_GB-0125-07.PDF");
    FsExists (lit "output/G_BUILDCON_Invoice_-_GB-0125-07.PDF");
    FsSend (lit "output/G_BUILDCON_Invoice_-_GB-0125-07.PDF")
      (lit "G BUILDCON Invoice - GB-0125-07.PDF")],
   Returned 200 (lit "output/G_BUILDCON_Invoice_-_GB-0125-07.PDF")).
Proof. vm_compute. reflexivity. Qed.

(** ** The request handlers, again *)

Lemma py_int_decimal s n :
  py_int s = Some n → Forall (λ c, isdigit_char c = true) s.
Proof.
  unfold py_int, isdecimal.
  destruct (truthy s && forallb isdigit_char s) eqn:H; [|done].
  intros _. apply andb_true_iff in H as [_ H].
  apply Forall_forall. intros c Hc. rewrite forallb_forall in H.
  by apply H, list_elem_of_In.
Qed.

Lemma digit_not_space c : isdigit_char c = true → isspace c = false.
Proof. destruct c as [[] [] [] [] [] [] [] []]; done. Qed.

Lemma lstrip_digits s :
  Forall (λ c, isdigit_char c = true) s → lstrip s = s.
Proof.
  destruct s as [|c s]; [done|]. intros [Hc _]%Forall_cons.
  cbn [lstrip]. by rewrite digit_not_space.
Qed.

Lemma strip_digits s :
  Forall (λ c, isdigit_char c = true) s → strip s = s.
Proof.
  intros Hd. unfold strip.
  rewrite (lstrip_digits s), lstrip_digits, rev_involutive;
    [done | by apply Forall_rev | done].
Qed.

Lemma isdigit_digits s :
  s ≠ [] → Forall (λ c, isdigit_char c = true) s → isdigit s = true.
Proof.
  intros Hne Hd. unfold isdigit. destruct s as [|c s]; [done|].
  cbn [truthy andb]. apply forallb_forall. intros x Hx.
  rewrite Forall_forall in Hd. rewrite Hd; [done|]. by apply list_elem_of_In.
Qed.

Section HandlerMoreFacts.

Variable py_float : str → option float.
Variable strptime_ymd : str → option (nat * nat * nat).
Variable today : str.
Variable produce : invoice_input → list event * result.

(** X20: the template is loaded only for a request that passed every
    check: either the handler ends at once, with status 400 or with an
    escaped exception and nothing loaded or written, or the rest of the
    handler runs on an amount [float] accepted, its integer ceiling after
    the markup, a suffix that is the stripped field and is numeric, and
    the date [strptime] read from the field or from today's date. *)
Theorem generate_invoice_validated (form : gmap str str) :
  let out := generate_invoice py_float strptime_ymd today produce form in
  (∃ body, out = ([], Returned 400 body)) ∨
  (∃ exn, out = ([], Raised exn)) ∨
  (∃ i, out = produce i ∧
        form !! lit "y_value" ≫= py_float = Some (in_y_value i) ∧
        is_ceiling (Prim2SF (in_y_value i * f_1_02)) (in_sub_total i) ∧
        in_invoice_suffix i =
          strip (default [] (form !! lit "invoice_suffix")) ∧
        isdigit (in_invoice_suffix i) = true ∧
        strptime_ymd (default today (form !! lit "date")) = Some (in_date i)).
Proof.
  cbn zeta. unfold generate_invoice.
  destruct (form !! lit "y_value" ≫= py_float) as [y|] eqn:Hy;
    [|left; by eexists].
  destruct (math_ceil (y * f_1_02)) as [n|] eqn:Hn;
    [|right; left; by eexists].
  cbn zeta.
  destruct (isdigit (strip (default [] (form !! lit "invoice_suffix")))) eqn:Hs;
    cbn [negb]; [|left; by eexists].
  destruct (strptime_ymd (default today (form !! lit "date"))) as [d|] eqn:Hd;
    [|right; left; by eexists].
  right. right. eexists. split; [reflexivity|].
  cbn [in_y_value in_sub_total in_invoice_suffix in_date].
  split_and!; try done. by apply math_ceil_spec.
Qed.

(** X21: [next_suffix] never lets an exception escape and touches nothing:
    it answers 400 when the date is missing, empty or refused by
    [strptime], and otherwise 200 with the next suffix of the month of that
    date; the suffix it offers is one [generate_invoice] accepts, stripped
    or not: it is not empty and made of decimal digits. *)
Theorem next_suffix_total (output_dir : list str) (args : gmap str str) :
  let out := next_suffix strptime_ymd output_dir args in
  out.1 = [] ∧
  ((∃ body, out.2 = Returned 400 body ∧
            (args !! lit "date" = None ∨ args !! lit "date" = Some [] ∨
             ∃ date_value, args !! lit "date" = Some date_value ∧
                           strptime_ymd date_value = None)) ∨
   (∃ date_value date,
      args !! lit "date" = Some date_value ∧
      strptime_ymd date_value = Some date ∧
      out.2 = Returned 200
                (get_next_suffix_for_month (month_year_of date) output_dir) ∧
      isdigit (strip (get_next_suffix_for_month (month_year_of date)
                        output_dir)) = true)).
Proof.
  cbn zeta. unfold next_suffix.
  destruct (args !! lit "date") as [[|c dv]|] eqn:Hd.
  - split; [done|]. left. eexists. split; [done|]. auto.
  - destruct (strptime_ymd (c :: dv)) as [d|] eqn:Hp.
    + split; [done|]. right. exists (c :: dv), d. split_and!; try done.
      unfold get_next_suffix_for_month. cbn zeta.
      match goal with |- context [format_02d ?n] =>
        destruct (format_02d_spec n) as (Hint & Hlen & _) end.
      apply py_int_decimal in Hint. rewrite strip_digits by done.
      apply isdigit_digits; [|done]. intros Hnil. rewrite Hnil in Hlen.
      simpl in Hlen. lia.
    + split; [done|]. left. eexists. split; [done|]. right. right.
      by exists (c :: dv).
  - split; [done|]. left. eexists. split; [done|]. auto.
Qed.

End HandlerMoreFacts.

(** X22: for a date whose month is below a hundred, as every date has, the
    month token [strftime("%m%y")] is four decimal digits: two for the
    month and two for the year within its century. *)
Theorem month_year_of_digits (y m d : nat) :
  m < 100 →
  length (month_year_of (y, m, d)) = 4 ∧
  Forall (λ c, isdigit_char c = true) (month_year_of (y, m, d)) ∧
  py_int (take 2 (month_year_of (y, m, d))) = Some (N.of_nat m) ∧
  py_int (drop 2 (month_year_of (y, m, d))) = Some (N.of_nat (y mod 100)).
Proof.
  intros Hm. unfold month_year_of.
  destruct (format_02d_spec (N.of_nat m)) as (Hi & _ & Hl & _).
  destruct (format_02d_spec (N.of_nat (y mod 100))) as (Hi' & _ & Hl' & _).
  specialize (Hl ltac:(lia)).
  assert (y mod 100 < 100) by (apply Nat.mod_upper_bound; lia).
  specialize (Hl' ltac:(lia)).
  split_and!.
  - rewrite length_app. lia.
  - apply Forall_app. split; eapply py_int_decimal; eassumption.
  - rewrite take_app_length' by done. done.
  - rewrite drop_app_length' by done. done.
Qed.

Lemma month_year_of_digits_witness :
  length (month_year_of (2025, 1, 15)) = 4 ∧
  Forall (λ c, isdigit_char c = true) (month_year_of (2025, 1, 15)) ∧
  py_int (take 2 (month_year_of (2025, 1, 15))) = Some (N.of_nat 1) ∧
  py_int (drop 2 (month_year_of (2025, 1, 15))) = Some (N.of_nat (2025 mod 100)).
Proof. apply (month_year_of_digits 2025 1 15). lia. Defined.

(** ** Substitution, then trim *)








(** When the traversal raises before it reaches the last paragraph, that
    paragraph stays as it was, and the trim that a caller runs all the same
    (as for a header, whose exceptions are swallowed) keeps it: here the
    paragraph would have been emptied, and the block before it is trimmed
    to nothing when it stands alone. *)
Example trim_after_raise_sample :
  is_paragraph_empty
    (replace_placeholders_in_paragraph (sample_paragraph ["{{note}}"])
       refused_replacements) = true ∧
  replace_placeholders_in_block_call
    ([IPara (sample_paragraph ["{{hsn}}"])] ++
     [IPara (sample_paragraph ["{{note}}"])]) refused_replacements =
    ([IPara (mkParagraph [IRun (mkRun [] (Some false) (lit "Calibri"));
                          IRun (mkRun [] None [])] (lit "Normal"));
      IPara (sample_paragraph ["{{note}}"])], Raises) ∧
  remove_trailing_empty_paragraphs_from_block
    (replace_placeholders_in_block
       ([IPara (sample_paragraph ["{{hsn}}"])] ++
        [IPara (sample_paragraph ["{{note}}"])]) refused_replacements) =
    Some (replace_placeholders_in_block
            ([IPara (sample_paragraph ["{{hsn}}"])] ++
             [IPara (sample_paragraph ["{{note}}"])]) refused_replacements) ∧
  remove_trailing_empty_paragraphs_from_block
    (replace_placeholders_in_block
       [IPara (sample_paragraph ["{{hsn}}"])] refused_replacements) = Some [].
Proof. vm_compute. done. Qed.

(** ** Amounts in words *)

Lemma split_dot_whole b : "."%char ∉ b → split_dot b = [b].
Proof.
  induction b as [|c b IH]; [done|].
  intros [Hc Hb]%not_elem_of_cons. cbn [split_dot].
  rewrite bool_decide_eq_false_2 by congruence. by rewrite IH.
Qed.

Lemma split_dot_at a b :
  "."%char ∉ a → split_dot (a ++ "."%char :: b) = a :: split_dot b.
Proof.
  induction a as [|c a IH]; intros Ha.
  - cbn [app split_dot]. by rewrite bool_decide_eq_true_2.
  - apply not_elem_of_cons in Ha as [Hc Ha]. cbn [app split_dot].
    rewrite bool_decide_eq_false_2 by congruence. by rewrite IH.
Qed.

Lemma digits_no_dot s :
  Forall (λ c, isdigit_char c = true) s → "."%char ∉ s.
Proof.
  intros Hd Hin. rewrite Forall_forall in Hd. by specialize (Hd _ Hin).
Qed.

Lemma py_int_signed_digits s :
  Forall (λ c, isdigit_char c = true) s →
  py_int_signed s = Z.of_N <$> py_int s.
Proof.
  intros Hd. destruct s as [|c t]; [done|].
  apply Forall_cons in Hd as [Hc _]. unfold py_int_signed.
  destruct c as [[] [] [] [] [] [] [] []]; try done.
Qed.

Lemma py_int_of_decimal n : py_int (decimal n) = Some n.
Proof.
  destruct (decimal_digits n) as [Hd Hv]. rewrite py_int_digits, Hv; [done| |done].
  pose proof (decimal_fuel_length (S (N.to_nat (N.size n))) n []) as Hlen.
  intros Hnil. unfold decimal in Hnil. rewrite Hnil in Hlen. simpl in Hlen. lia.
Qed.

Section WordsFacts.

Variable num2words : Z → option str.
Variable title : str → str.

(** X24: the words are made from the amount as rounded to two decimals:
    the rupees are its integer part, signed as the amount is, the paise its
    two decimals, and the paise are named exactly when they are not zero; a
    zero amount has no paise.  The call raises on a NaN and on an infinity,
    and when [num2words] raises on the rupees or on paise that are to be
    named. *)
Theorem number_to_words_indian_spec (amount : float) :
  number_to_words_indian num2words title amount =
    match Prim2SF amount with
    | S754_finite s m e =>
        let q := Z.to_N (round_hundredths m e) in
        let rupees := (if s then - Z.of_N (q / 100) else Z.of_N (q / 100))%Z in
        rupees_words ← in_words num2words title rupees;
        if (q mod 100 =? 0)%N
        then Some (rupees_words ++ lit " Rupees Only")
        else paise_words ← in_words num2words title (Z.of_N (q mod 100));
             Some (rupees_words ++ lit " Rupees And " ++ paise_words ++
                   lit " Paise Only")
    | S754_zero _ =>
        rupees_words ← in_words num2words title 0;
        Some (rupees_words ++ lit " Rupees Only")
    | S754_infinity _ | S754_nan => None
    end.
Proof.
  unfold number_to_words_indian, format_2f. cbn zeta.
  destruct (Prim2SF amount) as [[] | [] | | s m e]; try reflexivity.
  set (q := Z.to_N (round_hundredths m e)).
  destruct (decimal_digits (q / 100)) as [Hd _].
  destruct (format_02d_spec (q mod 100)) as [Hint _].
  pose proof (py_int_decimal _ _ Hint) as Hd'.
  assert (Hsplit : split_dot ((if s then lit "-" else []) ++
                              decimal (q / 100) ++ lit "." ++
                              format_02d (q mod 100)) =
                   [(if s then lit "-" else []) ++ decimal (q / 100);
                    format_02d (q mod 100)]).
  { rewrite app_assoc. change (lit "." ++ ?x) with ("."%char :: x).
    rewrite split_dot_at, split_dot_whole; [done | by apply digits_no_dot |].
    apply not_elem_of_app. split; [|by apply digits_no_dot].
    destruct s; [|apply not_elem_of_nil].
    by intros [[=] | ?%elem_of_nil]%elem_of_cons. }
  rewrite Hsplit.
  assert (Hr : py_int_signed ((if s then lit "-" else []) ++ decimal (q / 100)) =
               Some (if s then - Z.of_N (q / 100) else Z.of_N (q / 100))%Z).
  { destruct s.
    - cbn [lit list_ascii_of_string app]. unfold py_int_signed.
      by rewrite py_int_of_decimal.
    - cbn [app]. by rewrite py_int_signed_digits, py_int_of_decimal. }
  rewrite Hr, py_int_signed_digits, Hint by done.
  cbn [fmap option_fmap option_map mbind option_bind].
  clear. by destruct (q mod 100)%N.
Qed.

End WordsFacts.

Example number_to_words_indian_sample :
  number_to_words_indian
    (λ n, if (n =? 1020)%Z then Some (lit "one thousand, twenty")
          else Some (lit "fifty"))
    (λ s, s) 1020.5%float =
  Some (lit "one thousand twenty Rupees And fifty Paise Only").
Proof. vm_compute. reflexivity. Qed.

(** An amount beyond the words of [num2words] makes the call raise. *)
Example number_to_words_indian_overflow_sample :
  number_to_words_indian sample_num2words (λ s, s) 1e10%float = None ∧
  number_to_words_indian sample_num2words (λ s, s) 9999999999%float =
    Some (lit "n Rupees Only").
Proof. vm_compute. done. Qed.
